(** * A shallow embedding of [lsm.py]: Bloom filter, SSTable, LSM tree

    The development follows the three classes of the program:
    [BloomFilter], [SSTable] and [LSMTree].

    Modelling conventions.
    - A Python [str] is modelled by the sequence of bytes of its UTF-8
      encoding, as a [string]; [encode] / [decode] are then the conversions
      between [string] and [list byte].  Comparison of [str] values by code
      point coincides with the byte-wise lexicographic order used here.
      Decoding is total: [UnicodeDecodeError], which only a file changed
      from outside can cause, is not modelled.
    - The builtin [hash] is a per-process function on strings whose values
      are not specified by the language; it is a section variable.
    - Python integers are [Z]; [struct.pack] with formats [I] and [Q] is
      little-endian with 4 and 8 bytes and raises [struct.error] outside
      the representable range.
    - The directory of files is a finite map from file names to contents.
    - An exception leaves the mutations done before it in place: stateful
      operations return the final state together with the outcome. *)

From Stdlib Require Import ZArith Lia List String Ascii Sorted Permutation.
From Stdlib.Strings Require Import Byte.
From Stdlib Require Import DecimalString DecimalFacts DecimalNat.
From stdpp Require Import gmap strings list.

Local Open Scope Z_scope.

(** ** Exceptions and outcomes *)

Inductive exn : Set :=
  | StructError
  | FileNotFoundError
  | OSError
  | IndexError
  | ValueError
  | ZeroDivisionError.

Inductive result (A : Type) : Type :=
  | Ok (a : A)
  | Raise (e : exn).

Arguments Ok {A} a.
Arguments Raise {A} e.

Global Instance result_ret : MRet result := fun _ a => Ok a.
Global Instance result_bind : MBind result := fun _ _ k r =>
  match r with
  | Ok a => k a
  | Raise e => Raise e
  end.

Definition is_ok {A} (r : result A) : bool :=
  match r with Ok _ => true | Raise _ => false end.

(** ** Bytes and [struct] *)

Definition Z_of_byte (b : byte) : Z := Z.of_N (Byte.to_N b).

(** [bytes([z])]: a byte from an integer in [range(256)]. *)
Definition byte_of_Z (z : Z) : option byte :=
  if (0 <=? z) && (z <? 256) then Byte.of_N (Z.to_N z) else None.

Definition byte_wrap (z : Z) : byte :=
  match Byte.of_N (Z.to_N (z mod 256)) with
  | Some b => b
  | None => x00
  end.

(** The [w] low bytes of [n], least significant first. *)
Fixpoint le_encode (w : nat) (n : Z) : list byte :=
  match w with
  | O => []
  | S w' => byte_wrap n :: le_encode w' (n / 256)
  end.

Fixpoint le_decode (bs : list byte) : Z :=
  match bs with
  | [] => 0
  | b :: bs' => Z_of_byte b + 256 * le_decode bs'
  end.

(** [struct.pack('I', n)] *)
Definition pack_I (n : Z) : result (list byte) :=
  if (0 <=? n) && (n <? 2 ^ 32) then Ok (le_encode 4 n) else Raise StructError.

(** [struct.pack('Q', n)] *)
Definition pack_Q (n : Z) : result (list byte) :=
  if (0 <=? n) && (n <? 2 ^ 64) then Ok (le_encode 8 n) else Raise StructError.

(** [struct.unpack('I', bs)[0]]: the buffer must have exactly 4 bytes. *)
Definition unpack_I (bs : list byte) : result Z :=
  if (length bs =? 4)%nat then Ok (le_decode bs) else Raise StructError.

(** [struct.unpack('Q', bs)[0]] *)
Definition unpack_Q (bs : list byte) : result Z :=
  if (length bs =? 8)%nat then Ok (le_decode bs) else Raise StructError.

(** [s.encode()], [bs.decode()] and [len] of a byte string. *)
Definition encode (s : string) : list byte := list_byte_of_string s.
Definition decode (bs : list byte) : string := string_of_list_byte bs.
Definition blen (bs : list byte) : Z := Z.of_nat (length bs).

(** [str(n)] for a natural number. *)
Definition str_of_nat (n : nat) : string := NilZero.string_of_uint (Nat.to_uint n).

(** ** Files opened for reading

    A binary file opened with mode [rb] is its content and a position. *)

Definition f_read (content : list byte) (pos : Z) (n : Z) : list byte * Z :=
  let bs := take (Z.to_nat n) (drop (Z.to_nat pos) content) in
  (bs, pos + blen bs).

Definition f_read_all (content : list byte) (pos : Z) : list byte :=
  drop (Z.to_nat pos) content.

(** [f.seek(off, os.SEEK_END)]: a negative resulting position is refused. *)
Definition f_seek_end (content : list byte) (off : Z) : result Z :=
  let p := blen content + off in
  if p <? 0 then Raise OSError else Ok p.

(** ** Sequences: indexing, [sorted], [bisect], dictionaries *)

(** [l[i]] with Python's negative indices. *)
Definition py_getitem {A} (l : list A) (i : Z) : result A :=
  let n := Z.of_nat (length l) in
  let j := if i <? 0 then i + n else i in
  if (0 <=? j) && (j <? n) then
    match l !! Z.to_nat j with
    | Some x => Ok x
    | None => Raise IndexError
    end
  else Raise IndexError.

(** [l[i] = x] *)
Definition py_setitem {A} (l : list A) (i : Z) (x : A) : result (list A) :=
  let n := Z.of_nat (length l) in
  let j := if i <? 0 then i + n else i in
  if (0 <=? j) && (j <? n) then Ok (<[Z.to_nat j := x]> l) else Raise IndexError.

(** [sorted]: a stable sort that only uses [<]; elements that came first
    stay first among equals. *)
Fixpoint sort_insert {A} (ltb : A -> A -> bool) (x : A) (l : list A) : list A :=
  match l with
  | [] => [x]
  | y :: l' => if ltb y x then y :: sort_insert ltb x l' else x :: l
  end.

Fixpoint py_sorted {A} (ltb : A -> A -> bool) (l : list A) : list A :=
  match l with
  | [] => []
  | x :: l' => sort_insert ltb x (py_sorted ltb l')
  end.

(** [<] on tuples [(key, value)]. *)
Definition pair_ltb (p q : string * string) : bool :=
  if String.eqb (fst p) (fst q) then String.ltb (snd p) (snd q)
  else String.ltb (fst p) (fst q).

(** The loop of [bisect.bisect_left(a, x)]: [fuel] bounds the iterations. *)
Fixpoint bisect_left_go (a : list string) (x : string) (fuel lo hi : nat) : nat :=
  match fuel with
  | O => lo
  | S fuel' =>
      if (lo <? hi)%nat then
        let mid := ((lo + hi) / 2)%nat in
        if String.ltb (nth mid a EmptyString) x
        then bisect_left_go a x fuel' (mid + 1)%nat hi
        else bisect_left_go a x fuel' lo mid
      else lo
  end.

Definition bisect_left (a : list string) (x : string) : nat :=
  bisect_left_go a x (length a) 0%nat (length a).

Fixpoint bisect_right_go (a : list string) (x : string) (fuel lo hi : nat) : nat :=
  match fuel with
  | O => lo
  | S fuel' =>
      if (lo <? hi)%nat then
        let mid := ((lo + hi) / 2)%nat in
        if String.ltb x (nth mid a EmptyString)
        then bisect_right_go a x fuel' lo mid
        else bisect_right_go a x fuel' (mid + 1)%nat hi
      else lo
  end.

Definition bisect_right (a : list string) (x : string) : nat :=
  bisect_right_go a x (length a) 0%nat (length a).

(** A [dict] with string keys keeps insertion order; [d[k] = v] replaces
    the value in place when [k] is present and appends otherwise. *)
Definition dict := list (string * string).

Fixpoint dict_set (d : dict) (k v : string) : dict :=
  match d with
  | [] => [(k, v)]
  | (k', v') :: d' =>
      if String.eqb k' k then (k, v) :: d' else (k', v') :: dict_set d' k v
  end.

Fixpoint dict_get (d : dict) (k : string) : option string :=
  match d with
  | [] => None
  | (k', v') :: d' => if String.eqb k' k then Some v' else dict_get d' k
  end.

(** [for k, v in items: d[k] = v] *)
Definition dict_update (d : dict) (items : list (string * string)) : dict :=
  fold_left (fun acc kv => dict_set acc (fst kv) (snd kv)) items d.

(** ** class BloomFilter *)

Module BloomFilter.

Record t : Type := mk {
  size : Z;
  num_hashes : Z;
  bits : list byte;
}.

(** [BloomFilter(size, num_hashes)]; the program only uses the defaults. *)
Definition init (size num_hashes : Z) : t :=
  mk size num_hashes (replicate (Z.to_nat ((size + 7) / 8)) x00).

Definition default : t := init 8192 4.

Section WithHash.
Variable hash : string -> Z.

(** [hash(key + str(seed)) % self.size] *)
Definition _hash (bf : t) (key : string) (seed : nat) : result Z :=
  if size bf =? 0 then Raise ZeroDivisionError
  else Ok (hash (key +:+ str_of_nat seed) mod size bf).

(** [self.bits[pos // 8] |= (1 << (pos % 8))] *)
Definition set_bit (bs : list byte) (pos : Z) : result (list byte) :=
  b ← py_getitem bs (pos / 8);
  match byte_of_Z (Z.lor (Z_of_byte b) (Z.shiftl 1 (pos mod 8))) with
  | Some b' => py_setitem bs (pos / 8) b'
  | None => Raise ValueError
  end.

(** [self.bits[pos // 8] & (1 << (pos % 8))] *)
Definition test_bit (bs : list byte) (pos : Z) : result Z :=
  b ← py_getitem bs (pos / 8);
  Ok (Z.land (Z_of_byte b) (Z.shiftl 1 (pos mod 8))).

(** The body of [add] for the seeds in [seeds], in order. *)
Fixpoint add_loop (bf : t) (key : string) (seeds : list nat) : result t :=
  match seeds with
  | [] => Ok bf
  | i :: seeds' =>
      pos ← _hash bf key i;
      bs ← set_bit (bits bf) pos;
      add_loop (mk (size bf) (num_hashes bf) bs) key seeds'
  end.

Definition add (bf : t) (key : string) : result t :=
  add_loop bf key (seq 0 (Z.to_nat (num_hashes bf))).

Fixpoint might_contain_loop (bf : t) (key : string) (seeds : list nat)
  : result bool :=
  match seeds with
  | [] => Ok true
  | i :: seeds' =>
      pos ← _hash bf key i;
      w ← test_bit (bits bf) pos;
      if w =? 0 then Ok false else might_contain_loop bf key seeds'
  end.

Definition might_contain (bf : t) (key : string) : result bool :=
  might_contain_loop bf key (seq 0 (Z.to_nat (num_hashes bf))).

End WithHash.

(** [struct.pack('II', self.size, self.num_hashes) + self.bits] *)
Definition serialize (bf : t) : result (list byte) :=
  a ← pack_I (size bf);
  b ← pack_I (num_hashes bf);
  Ok (a ++ b ++ bits bf).

(** [deserialize(data)]: [struct.unpack('II', data[:8])], [data[8:]]. *)
Definition deserialize (data : list byte) : result t :=
  let hd := take 8 data in
  if (length hd =? 8)%nat then
    Ok (mk (le_decode (take 4 hd)) (le_decode (drop 4 hd)) (drop 8 data))
  else Raise StructError.

End BloomFilter.

(** The working directory: file name to content. *)
Abbreviation files := (gmap string (list byte)).

(** ** class SSTable *)

Module SSTable.

Record t : Type := mk {
  filename : string;
  index : list (string * Z);
  bloom : option BloomFilter.t;
}.

(** [struct.pack('I', len(key_b)) + key_b + struct.pack('I', len(value_b)) + value_b] *)
Definition encode_record (key value : string) : result (list byte) :=
  let key_b := encode key in
  let value_b := encode value in
  a ← pack_I (blen key_b);
  b ← pack_I (blen value_b);
  Ok (a ++ key_b ++ b ++ value_b).

(** The entries of [index_data], after the count. *)
Fixpoint index_entries (idx : list (string * Z)) : result (list byte) :=
  match idx with
  | [] => Ok []
  | (key, offset) :: idx' =>
      let key_b := encode key in
      a ← pack_I (blen key_b);
      q ← pack_Q offset;
      rest ← index_entries idx';
      Ok (a ++ key_b ++ q ++ rest)
  end.

Definition index_data (idx : list (string * Z)) : result (list byte) :=
  c ← pack_I (Z.of_nat (length idx));
  es ← index_entries idx;
  Ok (c ++ es).

(** The loop of [_load] that decodes [n] index entries from [pos]. *)
Fixpoint load_entries (content : list byte) (n : nat) (pos : Z)
    (idx : list (string * Z)) : result (list (string * Z) * Z) :=
  match n with
  | O => Ok (idx, pos)
  | S n' =>
      let '(b, pos1) := f_read content pos 4 in
      key_len ← unpack_I b;
      let '(key_b, pos2) := f_read content pos1 key_len in
      let '(ob, pos3) := f_read content pos2 8 in
      offset ← unpack_Q ob;
      load_entries content n' pos3 (idx ++ [(decode key_b, offset)])
  end.

(** [SSTable(filename)]: [_load]. *)
Definition _load (fn : string) (fs : files) : result t :=
  match fs !! fn with
  | None => Ok (mk fn [] None)
  | Some content =>
      p ← f_seek_end content (-4);
      index_size ← unpack_I (fst (f_read content p 4));
      p ← f_seek_end content (-4 - index_size);
      let '(b, p) := f_read content p 4 in
      count ← unpack_I b;
      '(idx, p) ← load_entries content (Z.to_nat count) p [];
      let bloom_data := f_read_all content p in
      if 8 <=? blen bloom_data then
        bf ← BloomFilter.deserialize bloom_data;
        Ok (mk fn idx (Some bf))
      else Ok (mk fn idx None)
  end.

(** The reads of [get] once the file is open: seek to [offset], skip the
    key, read the value. *)
Definition read_value (content : list byte) (offset : Z) : result string :=
  if offset <? 0 then Raise OSError else
  let '(b, p) := f_read content offset 4 in
  key_len ← unpack_I b;
  let '(b, p) := f_read content (p + key_len) 4 in
  value_len ← unpack_I b;
  Ok (decode (fst (f_read content p value_len))).

(** [size_bytes] and [cleanup] *)
Definition size_bytes (sst : t) (fs : files) : Z :=
  match fs !! filename sst with
  | Some content => blen content
  | None => 0
  end.

Definition cleanup (sst : t) (fs : files) : files := delete (filename sst) fs.

Section WithHash.
Variable hash : string -> Z.

(** The first loop of [_build]: the filter, the bytes written so far
    and the offsets.  An exception leaves the written bytes behind. *)
Fixpoint write_records (bf : BloomFilter.t) (written : list byte)
    (offsets : list Z) (recs : list (string * string))
  : result (BloomFilter.t * list Z) * list byte :=
  match recs with
  | [] => (Ok (bf, offsets), written)
  | (key, value) :: recs' =>
      match BloomFilter.add hash bf key with
      | Raise e => (Raise e, written)
      | Ok bf' =>
          match encode_record key value with
          | Raise e => (Raise e, written)
          | Ok record =>
              write_records bf' (written ++ record)
                (offsets ++ [blen written]) recs'
          end
      end
  end.

(** [SSTable(filename, data)]: [_build]. *)
Definition _build (fn : string) (data : list (string * string)) (fs : files)
  : result t * files :=
  let data_sorted := py_sorted (fun x y => String.ltb (fst x) (fst y)) data in
  match write_records BloomFilter.default [] [] data_sorted with
  | (Raise e, written) => (Raise e, <[fn := written]> fs)
  | (Ok (bf, offsets), written) =>
      let idx := zip (map fst data_sorted) offsets in
      match index_data idx with
      | Raise e => (Raise e, <[fn := written]> fs)
      | Ok idata =>
          match pack_I (blen idata) with
          | Raise e => (Raise e, <[fn := written ++ idata]> fs)
          | Ok sz =>
              match BloomFilter.serialize bf with
              | Raise e => (Raise e, <[fn := written ++ idata ++ sz]> fs)
              | Ok ser =>
                  (Ok (mk fn idx (Some bf)),
                   <[fn := written ++ idata ++ sz ++ ser]> fs)
              end
          end
      end
  end.

Definition get (sst : t) (key : string) (fs : files) : result (option string) :=
  match bloom sst with
  | None => Ok None
  | Some bf =>
      mc ← BloomFilter.might_contain hash bf key;
      if negb mc then Ok None else
      let keys := map fst (index sst) in
      let pos := bisect_left keys key in
      if (length keys <=? pos)%nat || negb (String.eqb (nth pos keys EmptyString) key)
      then Ok None
      else
        match index sst !! pos with
        | None => Raise IndexError
        | Some (_, offset) =>
            match fs !! filename sst with
            | None => Raise FileNotFoundError
            | Some content => v ← read_value content offset; Ok (Some v)
            end
        end
  end.

(** The loop of [range] over the keys [keys[left:right]]. *)
Fixpoint range_loop (sst : t) (fs : files) (keys : list string)
  : result (list (string * string)) :=
  match keys with
  | [] => Ok []
  | key :: keys' =>
      value ← get sst key fs;
      rest ← range_loop sst fs keys';
      Ok (match value with Some v => (key, v) :: rest | None => rest end)
  end.

Definition range (sst : t) (start stop : string) (fs : files)
  : result (list (string * string)) :=
  let keys := map fst (index sst) in
  let left := bisect_left keys start in
  let right := bisect_right keys stop in
  range_loop sst fs
    (map (fun i => nth i keys EmptyString) (seq left (right - left))).

End WithHash.

End SSTable.

(** ** class LSMTree *)

Module LSMTree.

Record t : Type := mk {
  memtable : dict;
  memtable_limit : Z;
  levels : list (list SSTable.t);
}.

(** [LSMTree(memtable_limit)] *)
Definition init (memtable_limit : Z) : t := mk [] memtable_limit [].

(** The tree object together with the directory it writes to. *)
Definition state : Type := t * files.

(** [for sst in ssts: sst.cleanup()] *)
Definition cleanup_all (ssts : list SSTable.t) (fs : files) : files :=
  fold_left (fun fs sst => SSTable.cleanup sst fs) ssts fs.

Section WithHash.
Variable hash : string -> Z.

(** [for sst in ssts: for k, v in sst.range("", "~"): merged[k] = v] *)
Fixpoint gather (merged : dict) (ssts : list SSTable.t) (fs : files)
  : result dict :=
  match ssts with
  | [] => Ok merged
  | sst :: ssts' =>
      items ← SSTable.range hash sst "" "~" fs;
      gather (dict_update merged items) ssts' fs
  end.

Definition _compact_level (level : nat) (st : state) : result unit * state :=
  let '(tr, fs) := st in
  match levels tr !! level with
  | None => (Ok tt, st)
  | Some [] => (Ok tt, st)
  | Some this_level =>
      match gather [] this_level fs with
      | Raise e => (Raise e, st)
      | Ok merged =>
          match (match levels tr !! (level + 1)%nat with
                 | Some next_level => gather merged next_level fs
                 | None => Ok merged
                 end) with
          | Raise e => (Raise e, st)
          | Ok merged =>
              let lvls1 :=
                if (length (levels tr) <=? level + 1)%nat
                then levels tr ++ [[]] else levels tr in
              let next_level := default [] (lvls1 !! (level + 1)%nat) in
              let fs1 := cleanup_all next_level fs in
              let lvls2 := <[(level + 1)%nat := []]> lvls1 in
              let filename := "l" +:+ str_of_nat (level + 1) +:+ "_0.sst" in
              match SSTable._build hash filename merged fs1 with
              | (Raise e, fs2) =>
                  (Raise e, (mk (memtable tr) (memtable_limit tr) lvls2, fs2))
              | (Ok sst, fs2) =>
                  let lvls3 := <[(level + 1)%nat := [sst]]> lvls2 in
                  let fs3 := cleanup_all this_level fs2 in
                  let lvls4 := <[level := []]> lvls3 in
                  (Ok tt, (mk (memtable tr) (memtable_limit tr) lvls4, fs3))
              end
          end
      end
  end.

Definition _flush_memtable (st : state) : result unit * state :=
  let '(tr, fs) := st in
  match memtable tr with
  | [] => (Ok tt, st)
  | _ :: _ =>
      let lvls1 := match levels tr with [] => [[]] | _ :: _ => levels tr end in
      let l0 := default [] (lvls1 !! 0%nat) in
      let filename := "l0_" +:+ str_of_nat (length l0) +:+ ".sst" in
      match SSTable._build hash filename (memtable tr) fs with
      | (Raise e, fs1) =>
          (Raise e, (mk (memtable tr) (memtable_limit tr) lvls1, fs1))
      | (Ok sst, fs1) =>
          let l0' := l0 ++ [sst] in
          let st2 := (mk [] (memtable_limit tr) (<[0%nat := l0']> lvls1), fs1) in
          if (2 <? length l0')%nat then _compact_level 0 st2 else (Ok tt, st2)
      end
  end.

Definition put (key value : string) (st : state) : result unit * state :=
  let '(tr, fs) := st in
  let tr1 := mk (dict_set (memtable tr) key value) (memtable_limit tr) (levels tr) in
  if memtable_limit tr <=? Z.of_nat (length (memtable tr1))
  then _flush_memtable (tr1, fs)
  else (Ok tt, (tr1, fs)).

(** The inner and outer loops of [get]. *)
Fixpoint get_level (ssts : list SSTable.t) (key : string) (fs : files)
  : result (option string) :=
  match ssts with
  | [] => Ok None
  | sst :: ssts' =>
      val ← SSTable.get hash sst key fs;
      match val with
      | Some v => Ok (Some v)
      | None => get_level ssts' key fs
      end
  end.

Fixpoint get_levels (lvls : list (list SSTable.t)) (key : string) (fs : files)
  : result (option string) :=
  match lvls with
  | [] => Ok None
  | lvl :: lvls' =>
      val ← get_level lvl key fs;
      match val with
      | Some v => Ok (Some v)
      | None => get_levels lvls' key fs
      end
  end.

Definition get (key : string) (st : state) : result (option string) :=
  let '(tr, fs) := st in
  match dict_get (memtable tr) key with
  | Some v => Ok (Some v)
  | None => get_levels (reverse (levels tr)) key fs
  end.

(** The loops of [range] over the tables, deepest level first. *)
Fixpoint range_level (res : dict) (ssts : list SSTable.t)
    (start stop : string) (fs : files) : result dict :=
  match ssts with
  | [] => Ok res
  | sst :: ssts' =>
      items ← SSTable.range hash sst start stop fs;
      range_level (dict_update res items) ssts' start stop fs
  end.

Fixpoint range_levels (res : dict) (lvls : list (list SSTable.t))
    (start stop : string) (fs : files) : result dict :=
  match lvls with
  | [] => Ok res
  | lvl :: lvls' =>
      res' ← range_level res lvl start stop fs;
      range_levels res' lvls' start stop fs
  end.

Definition range (start stop : string) (st : state)
  : result (list (string * string)) :=
  let '(tr, fs) := st in
  let in_window kv :=
    String.leb start (fst kv) && String.leb (fst kv) stop in
  let res := dict_update [] (List.filter in_window (memtable tr)) in
  res' ← range_levels res (reverse (levels tr)) start stop fs;
  Ok (py_sorted pair_ltb res').

End WithHash.

End LSMTree.

(** * Specification-level definitions *)

(** The comparison [_build] sorts with: [key=lambda x: x[0]]. *)
Definition key_ltb (x y : string * string) : bool := String.ltb (fst x) (fst y).

(** Lists of keys in ascending and in strictly ascending order. *)
Definition ascending (a : list string) : Prop :=
  StronglySorted (fun x y => String.leb x y = true) a.

Definition strictly_ascending (a : list string) : Prop :=
  StronglySorted (fun x y => String.ltb x y = true) a.

(** The loop shared by [bisect_left] and [bisect_right]: the first index
    from which [p] no longer holds. *)
Fixpoint partition_go (p : string -> bool) (a : list string) (fuel lo hi : nat) : nat :=
  match fuel with
  | O => lo
  | S fuel' =>
      if (lo <? hi)%nat then
        let mid := ((lo + hi) / 2)%nat in
        if p (nth mid a EmptyString)
        then partition_go p a fuel' (mid + 1)%nat hi
        else partition_go p a fuel' lo mid
      else lo
  end.

(** The list position denoted by a Python index into a list of length [n]. *)
Definition norm_index (n i : Z) : Z := if i <? 0 then i + n else i.

(** The bit at position [pos] of a byte array is set. *)
Definition bit_is_set (bs : list byte) (pos : Z) : Prop :=
  ∃ w, BloomFilter.test_bit bs pos = Ok w ∧ w ≠ 0.

(** Every hash position of [key] is set in [bf]. *)
Definition covers (hash : string → Z) (bf : BloomFilter.t) (key : string) : Prop :=
  ∀ i, (i < Z.to_nat (BloomFilter.num_hashes bf))%nat →
    ∃ pos, BloomFilter._hash hash bf key i = Ok pos ∧
           bit_is_set (BloomFilter.bits bf) pos.

(** A concrete hash function, to run the model on examples. *)
Fixpoint sample_hash_go (s : string) (acc : Z) : Z :=
  match s with
  | EmptyString => acc
  | String c s' => sample_hash_go s' (acc * 31 + Z.of_N (N_of_ascii c))
  end.

Definition sample_hash (s : string) : Z := sample_hash_go s 7.

(** ** The layout of an SSTable file, independently of the filter *)

(** The data region: the records one after the other. *)
Fixpoint records_bytes (recs : list (string * string)) : result (list byte) :=
  match recs with
  | [] => Ok []
  | (key, value) :: recs' =>
      rb ← SSTable.encode_record key value;
      rest ← records_bytes recs';
      Ok (rb ++ rest)
  end.

(** The offset of each record when the first one starts at [pos]. *)
Fixpoint records_offsets (pos : Z) (recs : list (string * string)) : list Z :=
  match recs with
  | [] => []
  | (key, value) :: recs' =>
      pos :: records_offsets (pos + (8 + blen (encode key) + blen (encode value))) recs'
  end.

(** The index and the bytes that precede the serialized filter. *)
Definition build_layout (data : list (string * string))
  : result (list (string * Z) * list byte) :=
  let data_sorted := py_sorted key_ltb data in
  body ← records_bytes data_sorted;
  let idx := zip (map fst data_sorted) (records_offsets 0 data_sorted) in
  idata ← SSTable.index_data idx;
  sz ← pack_I (blen idata);
  Ok (idx, body ++ idata ++ sz).

(** The record set can be written as an SSTable: every length and offset
    fits its field. *)
Definition fits (data : list (string * string)) : bool := is_ok (build_layout data).

(** A filter as [_build] makes them: the default geometry. *)
Definition default_geometry (bf : BloomFilter.t) : Prop :=
  BloomFilter.size bf = 8192 ∧ BloomFilter.num_hashes bf = 4 ∧
  length (BloomFilter.bits bf) = 1024%nat.

(** The handle [sst] was built from [data] and its file is still in place
    in [fs] as [_build] wrote it. *)
Definition represents (hash : string → Z) (fs : files) (sst : SSTable.t)
    (data : list (string * string)) : Prop :=
  NoDup (map fst data) ∧
  ∃ fs0 fs1,
    SSTable._build hash (SSTable.filename sst) data fs0 = (Ok sst, fs1) ∧
    fs !! SSTable.filename sst = fs1 !! SSTable.filename sst.

(** The window test of a range scan, on a record. *)
Definition in_window (start stop : string) (kv : string * string) : bool :=
  String.leb start (fst kv) && String.leb (fst kv) stop.

(** ** The tree as a collection of record sets

    A table is abstracted by the record set it was built from; the
    operations below follow [LSMTree] on these record sets and do not
    mention files, handles or the filter.  They are defined on the runs
    in which every [_build] succeeds ([fits]). *)

Record atree : Type := mk_atree {
  amem : dict;
  alimit : Z;
  alevels : list (list dict);
}.

Definition a_init (limit : Z) : atree := mk_atree [] limit [].

Definition a_range_tbl (start stop : string) (d : dict) : list (string * string) :=
  List.filter (in_window start stop) (py_sorted key_ltb d).

Definition a_gather (start stop : string) (merged : dict) (tbls : list dict) : dict :=
  fold_left (fun m d => dict_update m (a_range_tbl start stop d)) tbls merged.

Definition a_compact (level : nat) (t : atree) : option atree :=
  match alevels t !! level with
  | None => Some t
  | Some [] => Some t
  | Some this_level =>
      let merged := a_gather "" "~" [] this_level in
      let merged :=
        match alevels t !! (level + 1)%nat with
        | Some next_level => a_gather "" "~" merged next_level
        | None => merged
        end in
      if fits merged then
        let lvls1 :=
          if (length (alevels t) <=? level + 1)%nat
          then alevels t ++ [[]] else alevels t in
        Some (mk_atree (amem t) (alimit t)
                (<[level := []]> (<[(level + 1)%nat := [merged]]> lvls1)))
      else None
  end.

Definition a_flush (t : atree) : option atree :=
  match amem t with
  | [] => Some t
  | _ :: _ =>
      if fits (amem t) then
        let lvls1 := match alevels t with [] => [[]] | _ :: _ => alevels t end in
        let l0' := default [] (lvls1 !! 0%nat) ++ [amem t] in
        let t2 := mk_atree [] (alimit t) (<[0%nat := l0']> lvls1) in
        if (2 <? length l0')%nat then a_compact 0 t2 else Some t2
      else None
  end.

Definition a_put (key value : string) (t : atree) : option atree :=
  let t1 := mk_atree (dict_set (amem t) key value) (alimit t) (alevels t) in
  if alimit t <=? Z.of_nat (length (amem t1)) then a_flush t1 else Some t1.

Fixpoint a_get_level (tbls : list dict) (key : string) : option string :=
  match tbls with
  | [] => None
  | d :: tbls' =>
      match dict_get d key with
      | Some v => Some v
      | None => a_get_level tbls' key
      end
  end.

Fixpoint a_get_levels (lvls : list (list dict)) (key : string) : option string :=
  match lvls with
  | [] => None
  | lvl :: lvls' =>
      match a_get_level lvl key with
      | Some v => Some v
      | None => a_get_levels lvls' key
      end
  end.

Definition a_get (key : string) (t : atree) : option string :=
  match dict_get (amem t) key with
  | Some v => Some v
  | None => a_get_levels (reverse (alevels t)) key
  end.

Definition a_range (start stop : string) (t : atree) : list (string * string) :=
  let res := dict_update [] (List.filter (in_window start stop) (amem t)) in
  py_sorted pair_ltb
    (fold_left (a_gather start stop) (reverse (alevels t)) res).

(** Runs: a sequence of [put]s, on the tree and on its abstraction. *)
Fixpoint a_run (ops : list (string * string)) (t : atree) : option atree :=
  match ops with
  | [] => Some t
  | (k, v) :: ops' =>
      match a_put k v t with
      | Some t' => a_run ops' t'
      | None => None
      end
  end.

Fixpoint run (hash : string → Z) (ops : list (string * string))
    (st : LSMTree.state) : LSMTree.state :=
  match ops with
  | [] => st
  | (k, v) :: ops' => run hash ops' (snd (LSMTree.put hash k v st))
  end.

(** The tree [st] stores the record sets of [t]: every handle represents
    the corresponding record set, and the files are named by level and
    position. *)
Definition refines (hash : string → Z) (st : LSMTree.state) (t : atree) : Prop :=
  let '(tr, fs) := st in
  LSMTree.memtable tr = amem t ∧
  LSMTree.memtable_limit tr = alimit t ∧
  NoDup (map fst (LSMTree.memtable tr)) ∧
  Forall2 (Forall2 (represents hash fs)) (LSMTree.levels tr) (alevels t) ∧
  (length (LSMTree.levels tr) <= 2)%nat ∧
  (∀ l0 j h, LSMTree.levels tr !! 0%nat = Some l0 → l0 !! j = Some h →
     SSTable.filename h = "l0_" +:+ str_of_nat j +:+ ".sst") ∧
  (∀ l1 h, LSMTree.levels tr !! 1%nat = Some l1 → h ∈ l1 →
     l1 = [h] ∧ SSTable.filename h = "l1_0.sst").

(** The states a program can reach: a new tree in any directory, [put]s
    whatever their outcome, and changes to the files from outside. *)
Inductive reachable (hash : string → Z) : LSMTree.state → Prop :=
  | reach_init limit fs : reachable hash (LSMTree.init limit, fs)
  | reach_put key value st :
      reachable hash st → reachable hash (snd (LSMTree.put hash key value st))
  | reach_files tr fs fs' :
      reachable hash (tr, fs) → reachable hash (tr, fs').

(** Every table of the tree has its index in ascending key order. *)
Definition indexes_ascending (tr : LSMTree.t) : Prop :=
  Forall (Forall (fun sst => ascending (map fst (SSTable.index sst))))
    (LSMTree.levels tr).

(** ** Example inputs *)

(** A string of [2 ^ n] copies of [s]. *)
Fixpoint str_double (n : nat) (s : string) : string :=
  match n with
  | O => s
  | S n' => str_double n' (s +:+ s)
  end.

(** A key of [2 ^ 32] bytes, one more than a 32-bit length can describe. *)
Definition big_key : string := str_double 32 "a".

(** A table with two records, built in an empty directory. *)
Definition example_data : list (string * string) := [("b", "2"); ("a", "1")].

Definition example_build : result SSTable.t * files :=
  SSTable._build sample_hash "t.sst" example_data ∅.

(** Runs of [put]s used as examples: the scenario of the specification
    with a memtable limit of 2, and runs with a limit of 1, where every
    [put] flushes. *)
Definition scenario_b : list (string * string) :=
  [("a", "1"); ("b", "2"); ("c", "3"); ("a", "4"); ("d", "5")].

Definition overwrite_in_memtable : list (string * string) :=
  [("a", "1"); ("b", "2"); ("a", "4")].

Definition overwrite_twice : list (string * string) :=
  [("x", "old"); ("x", "new")].

Definition overwrite_across_levels : list (string * string) :=
  [("x", "old"); ("y", "1"); ("z", "2"); ("x", "new"); ("a", "1")].

Definition high_key_two : list (string * string) := [("~~", "v"); ("y", "1")].

Definition high_key_three : list (string * string) :=
  [("~~", "v"); ("y", "1"); ("z", "2")].

(** ** Sizes, runs and shapes *)

(** The bytes one record takes in the file of a table: two length fields,
    the key and the value in the data region; a length field, the key and
    an 8-byte offset in the index. *)
Definition record_cost (kv : string * string) : Z :=
  20 + 2 * blen (encode (fst kv)) + blen (encode (snd kv)).

(** The size of the file [_build] writes for [data]: the records, and 1040
    bytes for the index count, the index size and the filter. *)
Fixpoint table_size (data : list (string * string)) : Z :=
  match data with
  | [] => 1040
  | kv :: data' => record_cost kv + table_size data'
  end.

(** [for k, v in ops: tree.put(k, v)]: the first exception ends the run. *)
Fixpoint puts (hash : string → Z) (ops : list (string * string))
    (st : LSMTree.state) : result unit * LSMTree.state :=
  match ops with
  | [] => (Ok tt, st)
  | (k, v) :: ops' =>
      match LSMTree.put hash k v st with
      | (Ok _, st') => puts hash ops' st'
      | (Raise e, st') => (Raise e, st')
      end
  end.

(** The value of the last [put] of [k] in [ops]. *)
Fixpoint last_put (ops : list (string * string)) (k : string) : option string :=
  match ops with
  | [] => None
  | (k', v) :: ops' =>
      match last_put ops' k with
      | Some v' => Some v'
      | None => if String.eqb k' k then Some v else None
      end
  end.

(** At most two levels, at most two tables at level 0 and at most one at
    level 1. *)
Definition two_levels (tr : LSMTree.t) : Prop :=
  (length (LSMTree.levels tr) <= 2)%nat ∧
  (∀ l0, LSMTree.levels tr !! 0%nat = Some l0 → (length l0 <= 2)%nat) ∧
  (∀ l1, LSMTree.levels tr !! 1%nat = Some l1 → (length l1 <= 1)%nat).

(** All the records of the record sets of a tree: the memtable, then the
    tables level by level. *)
Definition a_records (t : atree) : list (string * string) :=
  amem t ++ concat (concat (alevels t)).

(** * Facts about bytes and [struct] *)

Lemma Z_of_byte_range b : 0 <= Z_of_byte b < 256.
Proof.
  unfold Z_of_byte. pose proof (Byte.to_N_bounded b). lia.
Qed.

Lemma Z_of_byte_wrap z : Z_of_byte (byte_wrap z) = z mod 256.
Proof.
  unfold byte_wrap, Z_of_byte.
  pose proof (Z.mod_pos_bound z 256 ltac:(lia)) as Hb.
  destruct (Byte.of_N (Z.to_N (z mod 256))) as [b|] eqn:E.
  - apply Byte.to_of_N in E. rewrite E. lia.
  - apply Byte.of_N_None_iff in E. lia.
Qed.

Lemma byte_of_Z_Some z b : byte_of_Z z = Some b → Z_of_byte b = z.
Proof.
  unfold byte_of_Z, Z_of_byte.
  destruct (0 <=? z) eqn:E1; [|done]. destruct (z <? 256) eqn:E2; [|done].
  simpl. intros E. apply Byte.to_of_N in E. rewrite E. lia.
Qed.

Lemma byte_of_Z_is_Some z : 0 <= z < 256 → is_Some (byte_of_Z z).
Proof.
  intros H. unfold byte_of_Z.
  replace (0 <=? z) with true by (symmetry; apply Z.leb_le; lia).
  replace (z <? 256) with true by (symmetry; apply Z.ltb_lt; lia).
  simpl. destruct (Byte.of_N (Z.to_N z)) eqn:E; [eauto|].
  apply Byte.of_N_None_iff in E. lia.
Qed.

Lemma length_le_encode w n : length (le_encode w n) = w.
Proof. revert n. induction w as [|w IH]; intros n; simpl; [done|]. by rewrite IH. Qed.

Lemma le_decode_encode w n : le_decode (le_encode w n) = n mod 256 ^ Z.of_nat w.
Proof.
  revert n. induction w as [|w IH]; intros n.
  - simpl. by rewrite Z.mod_1_r.
  - cbn [le_encode le_decode]. rewrite Z_of_byte_wrap, IH.
    rewrite Nat2Z.inj_succ, Z.pow_succ_r by lia.
    rewrite Z.rem_mul_r by lia. done.
Qed.

Lemma le_decode_range bs : 0 <= le_decode bs < 256 ^ Z.of_nat (length bs).
Proof.
  induction bs as [|b bs IH].
  - simpl. lia.
  - cbn [le_decode length]. rewrite Nat2Z.inj_succ, Z.pow_succ_r by lia.
    pose proof (Z_of_byte_range b). lia.
Qed.

Lemma pack_I_Ok n bs :
  pack_I n = Ok bs ↔ (0 <= n < 2 ^ 32 ∧ bs = le_encode 4 n).
Proof.
  unfold pack_I. destruct (0 <=? n) eqn:E1; destruct (n <? 2 ^ 32) eqn:E2; simpl;
    split; try (intros [? ?]); try intros ?; simplify_eq; try done; try lia.
  split; [lia|done].
Qed.

Lemma pack_I_Raise n e :
  pack_I n = Raise e ↔ (¬ (0 <= n < 2 ^ 32) ∧ e = StructError).
Proof.
  unfold pack_I. destruct (0 <=? n) eqn:E1; destruct (n <? 2 ^ 32) eqn:E2; simpl;
    split; try (intros [? ?]); try intros ?; simplify_eq; try done; try lia;
    split; try done; lia.
Qed.

Lemma pack_Q_Ok n bs :
  pack_Q n = Ok bs ↔ (0 <= n < 2 ^ 64 ∧ bs = le_encode 8 n).
Proof.
  unfold pack_Q. destruct (0 <=? n) eqn:E1; destruct (n <? 2 ^ 64) eqn:E2; simpl;
    split; try (intros [? ?]); try intros ?; simplify_eq; try done; try lia.
  split; [lia|done].
Qed.

Lemma unpack_I_encode n : 0 <= n < 2 ^ 32 → unpack_I (le_encode 4 n) = Ok n.
Proof.
  intros H. unfold unpack_I. rewrite length_le_encode. simpl Nat.eqb. cbv iota.
  rewrite le_decode_encode. f_equal. apply Z.mod_small. simpl. lia.
Qed.

Lemma unpack_Q_encode n : 0 <= n < 2 ^ 64 → unpack_Q (le_encode 8 n) = Ok n.
Proof.
  intros H. unfold unpack_Q. rewrite length_le_encode. simpl Nat.eqb. cbv iota.
  rewrite le_decode_encode. f_equal. apply Z.mod_small. simpl. lia.
Qed.

Lemma decode_encode s : decode (encode s) = s.
Proof. apply string_of_list_byte_of_string. Qed.

Lemma length_encode s : length (encode s) = String.length s.
Proof.
  unfold encode, list_byte_of_string. rewrite length_map.
  induction s as [|a s IH]; simpl; [done|]. by rewrite IH.
Qed.

Lemma blen_app a b : blen (a ++ b) = blen a + blen b.
Proof. unfold blen. rewrite length_app. lia. Qed.

Lemma blen_le_encode w n : blen (le_encode w n) = Z.of_nat w.
Proof. unfold blen. by rewrite length_le_encode. Qed.

Lemma blen_nonneg a : 0 <= blen a.
Proof. unfold blen. lia. Qed.

(** Reading [n] bytes at the end of a prefix [pre] yields the next [n]
    bytes. *)
Lemma f_read_app pre bs rest n :
  n = blen bs →
  f_read (pre ++ bs ++ rest) (blen pre) n = (bs, blen pre + n).
Proof.
  intros ->. unfold f_read, blen. rewrite !Nat2Z.id.
  rewrite drop_app_length, take_app_length. done.
Qed.

(** * Facts about the order on strings *)

Lemma ltb_leb x y : String.ltb x y = negb (String.leb y x).
Proof.
  unfold String.ltb, String.leb. rewrite (String.compare_antisym x y).
  by destruct (String.compare y x).
Qed.

Lemma leb_refl x : String.leb x x = true.
Proof.
  assert (String.le x x) as H by reflexivity.
  unfold String.le in H. by apply Is_true_true in H.
Qed.

Lemma leb_trans x y z :
  String.leb x y = true → String.leb y z = true → String.leb x z = true.
Proof.
  intros H1 H2. apply Is_true_true.
  change (String.le x z). transitivity y; unfold String.le; by apply Is_true_true.
Qed.

Lemma ltb_irrefl x : String.ltb x x = false.
Proof. by rewrite ltb_leb, leb_refl. Qed.

Lemma ltb_leb_weak x y : String.ltb x y = true → String.leb x y = true.
Proof.
  rewrite ltb_leb. intros H. destruct (String.leb_total x y) as [E|E]; [done|].
  rewrite E in H. done.
Qed.

Lemma leb_ltb_trans x y z :
  String.leb x y = true → String.ltb y z = true → String.ltb x z = true.
Proof.
  rewrite !ltb_leb. intros H1 H2. destruct (String.leb z x) eqn:E; [|done].
  rewrite (leb_trans _ _ _ E H1) in H2. done.
Qed.

Lemma ltb_leb_trans x y z :
  String.ltb x y = true → String.leb y z = true → String.ltb x z = true.
Proof.
  rewrite !ltb_leb. intros H1 H2. destruct (String.leb z x) eqn:E; [|done].
  rewrite (leb_trans _ _ _ H2 E) in H1. done.
Qed.

Lemma ltb_trans x y z :
  String.ltb x y = true → String.ltb y z = true → String.ltb x z = true.
Proof. intros H1 H2. eapply leb_ltb_trans; [by apply ltb_leb_weak|done]. Qed.

Lemma leb_antisym_eqb x y :
  String.leb x y = true → String.leb y x = true → x = y.
Proof. apply String.leb_antisym. Qed.

Lemma ltb_neq x y : String.ltb x y = true → x ≠ y.
Proof. intros H ->. by rewrite ltb_irrefl in H. Qed.

Lemma leb_cases x y : String.leb x y = true → String.ltb x y = true ∨ x = y.
Proof.
  intros H. rewrite ltb_leb. destruct (String.leb y x) eqn:E; [right|by left].
  by apply String.leb_antisym.
Qed.

(** * Facts about [sorted] *)

Lemma sort_insert_perm {A} (ltb : A → A → bool) x l :
  Permutation (sort_insert ltb x l) (x :: l).
Proof.
  induction l as [|y l IH]; simpl; [done|].
  destruct (ltb y x); [|done].
  rewrite IH. apply perm_swap.
Qed.

Lemma py_sorted_perm {A} (ltb : A → A → bool) l :
  Permutation (py_sorted ltb l) l.
Proof.
  induction l as [|x l IH]; simpl; [done|].
  rewrite sort_insert_perm. by constructor.
Qed.

Lemma py_sorted_length {A} (ltb : A → A → bool) l :
  length (py_sorted ltb l) = length l.
Proof. apply Permutation_length, py_sorted_perm. Qed.

Lemma sort_insert_ascending x l :
  ascending (map fst l) → ascending (map fst (sort_insert key_ltb x l)).
Proof.
  unfold ascending. induction l as [|y l IH]; simpl; intros Hs.
  - repeat constructor.
  - unfold key_ltb at 1. destruct (String.ltb (fst y) (fst x)) eqn:E.
    + simpl. apply StronglySorted_inv in Hs as [Hs Hy]. constructor; [by apply IH|].
      apply Forall_forall. intros k Hk.
      rewrite (sort_insert_perm key_ltb x l) in Hk.
      simpl in Hk. apply elem_of_cons in Hk as [->|Hk]; [by apply ltb_leb_weak|].
      rewrite Forall_forall in Hy. by apply Hy.
    + simpl. constructor; [done|].
      assert (String.leb (fst x) (fst y) = true) as Hxy.
      { rewrite ltb_leb in E. by destruct (String.leb (fst x) (fst y)). }
      constructor; [done|].
      apply StronglySorted_inv in Hs as [_ Hy].
      eapply Forall_impl; [exact Hy|]. intros k Hk. simpl in Hk.
      by eapply leb_trans.
Qed.

Lemma py_sorted_ascending l : ascending (map fst (py_sorted key_ltb l)).
Proof.
  induction l as [|x l IH]; simpl; [constructor|]. by apply sort_insert_ascending.
Qed.

Lemma ascending_NoDup_strict a : ascending a → NoDup a → strictly_ascending a.
Proof.
  unfold ascending, strictly_ascending. induction a as [|x a IH]; intros Hs Hn.
  - constructor.
  - apply StronglySorted_inv in Hs as [Hs Hx]. apply NoDup_cons in Hn as [Hx' Hn].
    constructor; [by apply IH|].
    rewrite Forall_forall in Hx |- *. intros y Hy.
    destruct (leb_cases _ _ (Hx y Hy)) as [?| ->]; [done|].
    exfalso. by apply Hx'.
Qed.

Lemma strictly_ascending_ascending a : strictly_ascending a → ascending a.
Proof.
  unfold ascending, strictly_ascending. induction 1 as [|x a Hs IH Hx]; constructor; [done|].
  eapply Forall_impl; [exact Hx|]. intros y Hy. by apply ltb_leb_weak.
Qed.

Lemma ascending_nth a i j :
  ascending a → (i <= j)%nat → (j < length a)%nat →
  String.leb (nth i a EmptyString) (nth j a EmptyString) = true.
Proof.
  unfold ascending. intros Hs. revert i j.
  induction Hs as [|x a Hs IH Hx]; intros i j Hij Hj; simpl in Hj; [lia|].
  destruct j as [|j].
  - assert (i = 0)%nat as -> by lia. apply leb_refl.
  - destruct i as [|i]; simpl.
    + rewrite Forall_forall in Hx. apply Hx. apply list_elem_of_In, nth_In. lia.
    + apply IH; lia.
Qed.

Lemma strictly_ascending_nth a i j :
  strictly_ascending a → (i < j)%nat → (j < length a)%nat →
  String.ltb (nth i a EmptyString) (nth j a EmptyString) = true.
Proof.
  unfold strictly_ascending. intros Hs. revert i j.
  induction Hs as [|x a Hs IH Hx]; intros i j Hij Hj; simpl in Hj; [lia|].
  destruct j as [|j]; [lia|].
  destruct i as [|i]; simpl.
  - rewrite Forall_forall in Hx. apply Hx. apply list_elem_of_In, nth_In. lia.
  - apply IH; lia.
Qed.

(** * Facts about [bisect] *)

Lemma bisect_left_go_partition a x fuel lo hi :
  bisect_left_go a x fuel lo hi =
  partition_go (fun k => String.ltb k x) a fuel lo hi.
Proof.
  revert lo hi. induction fuel as [|fuel IH]; intros lo hi; simpl; [done|].
  destruct (lo <? hi)%nat; [|done]. by rewrite !IH.
Qed.

Lemma bisect_right_go_partition a x fuel lo hi :
  bisect_right_go a x fuel lo hi =
  partition_go (fun k => negb (String.ltb x k)) a fuel lo hi.
Proof.
  revert lo hi. induction fuel as [|fuel IH]; intros lo hi; simpl; [done|].
  destruct (lo <? hi)%nat; [|done]. rewrite !IH.
  by destruct (String.ltb x _).
Qed.

Section Partition.
Variable p : string → bool.
Variable a : list string.

(** [p] holds on an initial segment of [a]. *)
Hypothesis p_mono : ∀ i j, (i <= j)%nat → (j < length a)%nat →
  p (nth j a EmptyString) = true → p (nth i a EmptyString) = true.

Lemma partition_go_spec fuel lo hi :
  (hi - lo <= fuel)%nat → (lo <= hi)%nat → (hi <= length a)%nat →
  (∀ i, (i < lo)%nat → p (nth i a EmptyString) = true) →
  (∀ i, (hi <= i)%nat → (i < length a)%nat → p (nth i a EmptyString) = false) →
  let r := partition_go p a fuel lo hi in
  (lo <= r)%nat ∧ (r <= hi)%nat ∧
  (∀ i, (i < r)%nat → p (nth i a EmptyString) = true) ∧
  (∀ i, (r <= i)%nat → (i < length a)%nat → p (nth i a EmptyString) = false).
Proof.
  revert lo hi. induction fuel as [|fuel IH]; intros lo hi Hf Hlh Hh Hlo Hhi;
    cbn [partition_go]; cbv zeta.
  - assert (lo = hi) as -> by lia. eauto.
  - destruct (lo <? hi)%nat eqn:E.
    + apply Nat.ltb_lt in E.
      pose proof (Nat.div_mod_eq (lo + hi) 2) as Hd.
      pose proof (Nat.mod_upper_bound (lo + hi) 2 ltac:(lia)) as Hm.
      remember ((lo + hi) / 2)%nat as mid eqn:Hmid.
      remember ((lo + hi) mod 2)%nat as rm eqn:Hrm. clear Hmid Hrm.
      assert (lo <= mid ∧ mid < hi)%nat as [Hm1 Hm2] by lia.
      destruct (p (nth mid a EmptyString)) eqn:Ep.
      * destruct (IH (mid + 1)%nat hi) as (H1 & H2 & H3 & H4); try lia; try done.
        { intros i Hi. apply (p_mono i mid); [lia|lia|done]. }
        repeat split; try done; lia.
      * destruct (IH lo mid) as (H1 & H2 & H3 & H4); try lia; try done.
        { intros i Hi1 Hi2. destruct (p (nth i a EmptyString)) eqn:Epi; [|done].
          rewrite (p_mono mid i) in Ep; [done|lia|lia|done]. }
        repeat split; try done; lia.
    + apply Nat.ltb_ge in E. assert (lo = hi) as -> by lia. eauto.
Qed.

Lemma partition_spec :
  let r := partition_go p a (length a) 0 (length a) in
  (r <= length a)%nat ∧
  ∀ i, (i < length a)%nat → (p (nth i a EmptyString) = true ↔ (i < r)%nat).
Proof.
  destruct (partition_go_spec (length a) 0 (length a)) as (H1 & H2 & H3 & H4);
    try lia; try (intros; lia).
  simpl. split; [done|]. intros i Hi. split.
  - intros Hp. destruct (Nat.lt_ge_cases i (partition_go p a (length a) 0 (length a)))
      as [?|Hge]; [done|].
    rewrite (H4 i Hge Hi) in Hp. done.
  - apply H3.
Qed.
End Partition.

Lemma bisect_left_spec a x :
  ascending a →
  (bisect_left a x <= length a)%nat ∧
  ∀ i, (i < length a)%nat →
    (String.ltb (nth i a EmptyString) x = true ↔ (i < bisect_left a x)%nat).
Proof.
  intros Ha. unfold bisect_left. rewrite bisect_left_go_partition.
  apply partition_spec. intros i j Hij Hj Hp.
  eapply leb_ltb_trans; [|exact Hp]. by apply ascending_nth.
Qed.

Lemma bisect_right_spec a x :
  ascending a →
  (bisect_right a x <= length a)%nat ∧
  ∀ i, (i < length a)%nat →
    (String.leb (nth i a EmptyString) x = true ↔ (i < bisect_right a x)%nat).
Proof.
  intros Ha. unfold bisect_right. rewrite bisect_right_go_partition.
  destruct (partition_spec (fun k => negb (String.ltb x k)) a) as [H1 H2].
  - intros i j Hij Hj Hp. rewrite ltb_leb, negb_involutive in Hp |- *.
    eapply leb_trans; [|exact Hp]. by apply ascending_nth.
  - split; [done|]. intros i Hi. rewrite <- (H2 i Hi).
    by rewrite ltb_leb, negb_involutive.
Qed.

(** The slice [a[l:r]] selected by index is the sub-list selected by a
    predicate that holds exactly on the indices of the slice. *)
Lemma slice_filter (q : string → bool) (a : list string) l r :
  (r <= length a)%nat →
  (∀ i, (i < length a)%nat → (q (nth i a EmptyString) = true ↔ (l <= i < r)%nat)) →
  map (fun i => nth i a EmptyString) (seq l (r - l)) = List.filter q a.
Proof.
  revert l r. induction a as [|x a IH]; intros l r Hr Hq.
  - simpl in Hr. assert (r = 0)%nat as -> by lia. done.
  - simpl in Hr. cbn [List.filter].
    pose proof (Hq 0%nat ltac:(simpl; lia)) as H0. cbn [nth] in H0.
    assert (∀ l' r', (∀ i, (l <= S i < r)%nat ↔ (l' <= i < r')%nat) →
      ∀ i, (i < length a)%nat → q (nth i a EmptyString) = true ↔ (l' <= i < r')%nat)
      as Hshift.
    { intros l' r' Hlr i Hi. rewrite <- Hlr.
      specialize (Hq (S i) ltac:(simpl; lia)). cbn [nth] in Hq. done. }
    destruct (q x) eqn:Eq.
    + assert (l = 0 ∧ 0 < r)%nat as [-> Hr0] by (destruct H0 as [H0 _]; specialize (H0 eq_refl); lia).
      destruct r as [|r]; [lia|].
      rewrite Nat.sub_0_r. cbn [seq map nth]. f_equal.
      rewrite <- seq_shift, map_map. cbn [nth].
      rewrite <- (IH 0%nat r); [by rewrite Nat.sub_0_r|lia|].
      apply Hshift. intros i. lia.
    + assert (¬ (l <= 0 < r)%nat) as Hn.
      { intros Hc. apply H0 in Hc. done. }
      destruct l as [|l].
      * assert (r = 0)%nat as -> by lia. simpl.
        rewrite <- (IH 0%nat 0%nat); [done|lia|].
        apply Hshift. intros i. lia.
      * destruct r as [|r].
        -- simpl. rewrite <- (IH 0%nat 0%nat); [done|lia|].
           apply Hshift. intros i. lia.
        -- replace (S r - S l)%nat with (r - l)%nat by lia.
           rewrite <- seq_shift, map_map. cbn [nth].
           apply IH; [lia|]. apply Hshift. intros i. lia.
Qed.

(** * Facts about indexing *)

Lemma bind_Ok {A B} (r : result A) (k : A → result B) b :
  r ≫= k = Ok b ↔ ∃ a, r = Ok a ∧ k a = Ok b.
Proof.
  destruct r as [a|e]; simpl; split.
  - intros H. eauto.
  - intros (a' & Ha & Hk). by simplify_eq.
  - done.
  - intros (a' & Ha & Hk). done.
Qed.

Lemma py_getitem_Ok {A} (l : list A) i x :
  py_getitem l i = Ok x ↔
  (0 <= norm_index (Z.of_nat (length l)) i < Z.of_nat (length l) ∧
   l !! Z.to_nat (norm_index (Z.of_nat (length l)) i) = Some x).
Proof.
  unfold py_getitem, norm_index.
  set (j := if i <? 0 then i + Z.of_nat (length l) else i).
  destruct (0 <=? j) eqn:E1; destruct (j <? Z.of_nat (length l)) eqn:E2; simpl;
    try (split; [done|intros [? ?]; lia]).
  destruct (l !! Z.to_nat j) eqn:E; split.
  - intros ?. simplify_eq. split; [lia|done].
  - intros [_ ?]. by simplify_eq.
  - done.
  - intros [_ ?]. done.
Qed.

Lemma py_setitem_Ok {A} (l : list A) i x l' :
  py_setitem l i x = Ok l' ↔
  (0 <= norm_index (Z.of_nat (length l)) i < Z.of_nat (length l) ∧
   l' = <[Z.to_nat (norm_index (Z.of_nat (length l)) i) := x]> l).
Proof.
  unfold py_setitem, norm_index.
  set (j := if i <? 0 then i + Z.of_nat (length l) else i).
  destruct (0 <=? j) eqn:E1; destruct (j <? Z.of_nat (length l)) eqn:E2; simpl;
    try (split; [done|intros [? ?]; lia]).
  split.
  - intros ?. simplify_eq. split; [lia|done].
  - intros [_ ->]. done.
Qed.

(** * Facts about the Bloom filter *)

Lemma shiftl_1_nonzero k : 0 <= k → Z.shiftl 1 k ≠ 0.
Proof. intros Hk. rewrite Z.shiftl_1_l. apply Z.pow_nonzero; lia. Qed.

Lemma lor_byte_range a k :
  0 <= a < 256 → 0 <= k < 8 → 0 <= Z.lor a (Z.shiftl 1 k) < 256.
Proof.
  intros Ha Hk. rewrite Z.shiftl_1_l.
  assert (0 <= 2 ^ k < 2 ^ 8) as Hp.
  { split; [apply Z.pow_nonneg; lia|]. apply Z.pow_lt_mono_r; lia. }
  split.
  - apply Z.lor_nonneg. lia.
  - change 256 with (2 ^ 8). destruct (Z.eq_dec (Z.lor a (2 ^ k)) 0) as [->|Hne]; [lia|].
    apply Z.log2_lt_pow2.
    + assert (0 <= Z.lor a (2 ^ k)) by (apply Z.lor_nonneg; lia). lia.
    + rewrite Z.log2_lor by lia.
      apply Z.max_lub_lt.
      * destruct (Z.eq_dec a 0) as [->|?]; [simpl; lia|].
        apply Z.log2_lt_pow2; lia.
      * rewrite Z.log2_pow2 by lia. lia.
Qed.

Section Bloom.
Variable hash : string → Z.

Lemma set_bit_Ok bs pos bs' :
  BloomFilter.set_bit bs pos = Ok bs' →
  ∃ b b',
    py_getitem bs (pos / 8) = Ok b ∧
    Z_of_byte b' = Z.lor (Z_of_byte b) (Z.shiftl 1 (pos mod 8)) ∧
    py_setitem bs (pos / 8) b' = Ok bs'.
Proof.
  unfold BloomFilter.set_bit. intros H.
  apply bind_Ok in H as (b & Hb & H).
  destruct (byte_of_Z _) as [b'|] eqn:E; [|done].
  exists b, b'. split; [done|]. split; [|done]. by apply byte_of_Z_Some.
Qed.

Lemma set_bit_is_Ok bs pos :
  is_Some (bs !! Z.to_nat (pos / 8)) → 0 <= pos →
  ∃ bs', BloomFilter.set_bit bs pos = Ok bs'.
Proof.
  intros [b Hb] Hpos. unfold BloomFilter.set_bit.
  pose proof (lookup_lt_Some _ _ _ Hb) as Hlt.
  assert (0 <= pos / 8) as Hd by (apply Z.div_pos; lia).
  assert (py_getitem bs (pos / 8) = Ok b) as ->.
  { apply py_getitem_Ok. unfold norm_index.
    replace (pos / 8 <? 0) with false by (symmetry; apply Z.ltb_ge; lia).
    split; [lia|done]. }
  simpl.
  destruct (byte_of_Z_is_Some (Z.lor (Z_of_byte b) (Z.shiftl 1 (pos mod 8)))) as [b' Hb'].
  { apply lor_byte_range; [apply Z_of_byte_range|]. apply Z.mod_pos_bound. lia. }
  rewrite Hb'. eexists. apply py_setitem_Ok. unfold norm_index.
  replace (pos / 8 <? 0) with false by (symmetry; apply Z.ltb_ge; lia).
  split; [lia|done].
Qed.

Lemma set_bit_length bs pos bs' :
  BloomFilter.set_bit bs pos = Ok bs' → length bs' = length bs.
Proof.
  intros H. apply set_bit_Ok in H as (b & b' & _ & _ & H).
  apply py_setitem_Ok in H as [_ ->]. by rewrite length_insert.
Qed.

Lemma set_bit_sets bs pos bs' :
  BloomFilter.set_bit bs pos = Ok bs' → bit_is_set bs' pos.
Proof.
  intros H. pose proof (set_bit_length _ _ _ H) as Hlen.
  apply set_bit_Ok in H as (b & b' & Hg & Hb' & Hs).
  apply py_getitem_Ok in Hg as [Hr Hb]. apply py_setitem_Ok in Hs as [_ ->].
  exists (Z.land (Z_of_byte b') (Z.shiftl 1 (pos mod 8))). split.
  - unfold BloomFilter.test_bit.
    assert (py_getitem (<[Z.to_nat (norm_index (Z.of_nat (length bs)) (pos / 8)) := b']> bs)
              (pos / 8) = Ok b') as ->; [|done].
    apply py_getitem_Ok. rewrite length_insert. split; [done|].
    apply list_lookup_insert_eq. lia.
  - rewrite Hb', Z.land_lor_distr_l, Z.land_diag. intros H0.
    apply Z.lor_eq_0_iff in H0 as [_ H0].
    apply shiftl_1_nonzero in H0; [done|]. apply Z.mod_pos_bound. lia.
Qed.

Lemma set_bit_keeps bs pos bs' pos' :
  BloomFilter.set_bit bs pos = Ok bs' → bit_is_set bs pos' → bit_is_set bs' pos'.
Proof.
  intros H (w & Hw & Hne).
  apply set_bit_Ok in H as (b & b' & Hg & Hb' & Hs).
  apply py_getitem_Ok in Hg as [Hr Hb]. apply py_setitem_Ok in Hs as [_ ->].
  unfold BloomFilter.test_bit in Hw. apply bind_Ok in Hw as (c & Hc & Hw).
  apply py_getitem_Ok in Hc as [Hr' Hc]. simplify_eq.
  set (n := Z.of_nat (length bs)) in *.
  destruct (decide (Z.to_nat (norm_index n (pos / 8)) = Z.to_nat (norm_index n (pos' / 8))))
    as [Heq|Hneq].
  - exists (Z.land (Z_of_byte b') (Z.shiftl 1 (pos' mod 8))). split.
    + unfold BloomFilter.test_bit.
      assert (py_getitem (<[Z.to_nat (norm_index n (pos / 8)) := b']> bs) (pos' / 8) = Ok b')
        as ->; [|done].
      apply py_getitem_Ok. rewrite length_insert. split; [done|].
      rewrite Heq. apply list_lookup_insert_eq. lia.
    + rewrite Heq in Hb. simplify_eq.
      rewrite Hb', Z.land_lor_distr_l. intros H0.
      apply Z.lor_eq_0_iff in H0 as [H0 _]. done.
  - exists (Z.land (Z_of_byte c) (Z.shiftl 1 (pos' mod 8))). split; [|done].
    unfold BloomFilter.test_bit.
    assert (py_getitem (<[Z.to_nat (norm_index n (pos / 8)) := b']> bs) (pos' / 8) = Ok c)
      as ->; [|done].
    apply py_getitem_Ok. rewrite length_insert. split; [done|].
    by rewrite list_lookup_insert_ne.
Qed.

Lemma add_loop_spec bf key seeds bf' :
  BloomFilter.add_loop hash bf key seeds = Ok bf' →
  BloomFilter.size bf' = BloomFilter.size bf ∧
  BloomFilter.num_hashes bf' = BloomFilter.num_hashes bf ∧
  length (BloomFilter.bits bf') = length (BloomFilter.bits bf) ∧
  (∀ pos, bit_is_set (BloomFilter.bits bf) pos → bit_is_set (BloomFilter.bits bf') pos) ∧
  (∀ i, i ∈ seeds → ∃ pos, BloomFilter._hash hash bf key i = Ok pos ∧
                            bit_is_set (BloomFilter.bits bf') pos).
Proof.
  revert bf. induction seeds as [|i seeds IH]; intros bf H; simpl in H.
  - simplify_eq. repeat split; try done. intros i Hi. by apply elem_of_nil in Hi.
  - apply bind_Ok in H as (pos & Hpos & H). apply bind_Ok in H as (bs & Hbs & H).
    apply IH in H as (H1 & H2 & H3 & H4 & H5). simpl in *.
    repeat split; try done.
    + rewrite H3. by eapply set_bit_length.
    + intros pos' Hp. apply H4. by eapply set_bit_keeps.
    + intros j Hj. apply elem_of_cons in Hj as [->|Hj].
      * exists pos. split; [done|]. apply H4. by eapply set_bit_sets.
      * destruct (H5 j Hj) as (pos' & Hh & Hb). exists pos'. split; [|done].
        unfold BloomFilter._hash in *. simpl in Hh. done.
Qed.

Lemma hash_same_size bf bf' key i :
  BloomFilter.size bf' = BloomFilter.size bf →
  BloomFilter._hash hash bf' key i = BloomFilter._hash hash bf key i.
Proof. unfold BloomFilter._hash. by intros ->. Qed.

(** After [add(key)], every hash position of [key] is set, and the
    positions set before stay set. *)
Lemma add_covers bf key bf' :
  BloomFilter.add hash bf key = Ok bf' → covers hash bf' key.
Proof.
  unfold BloomFilter.add. intros H. apply add_loop_spec in H as (H1 & H2 & _ & _ & H5).
  intros i Hi. rewrite H2 in Hi. destruct (H5 i) as (pos & Hh & Hb).
  { apply elem_of_seq. lia. }
  exists pos. split; [|done]. by rewrite (hash_same_size bf bf').
Qed.

Lemma add_keeps bf key bf' k :
  BloomFilter.add hash bf key = Ok bf' → covers hash bf k → covers hash bf' k.
Proof.
  unfold BloomFilter.add. intros H Hc. apply add_loop_spec in H as (H1 & H2 & _ & H4 & _).
  intros i Hi. rewrite H2 in Hi. destruct (Hc i Hi) as (pos & Hh & Hb).
  exists pos. split; [by rewrite (hash_same_size bf bf')|]. by apply H4.
Qed.

Lemma might_contain_loop_true bf key seeds :
  (∀ i, i ∈ seeds → ∃ pos, BloomFilter._hash hash bf key i = Ok pos ∧
                           bit_is_set (BloomFilter.bits bf) pos) →
  BloomFilter.might_contain_loop hash bf key seeds = Ok true.
Proof.
  induction seeds as [|i seeds IH]; intros H; cbn [BloomFilter.might_contain_loop]; [done|].
  destruct (H i) as (pos & Hh & (w & Ht & Hw)); [by left|].
  rewrite Hh. cbn [mbind result_bind]. rewrite Ht. cbn [mbind result_bind].
  destruct (w =? 0) eqn:E; [apply Z.eqb_eq in E; done|].
  apply IH. intros j Hj. apply H. by right.
Qed.

Lemma covers_might_contain bf key :
  covers hash bf key → BloomFilter.might_contain hash bf key = Ok true.
Proof.
  intros Hc. apply might_contain_loop_true. intros i Hi.
  apply Hc. apply elem_of_seq in Hi. lia.
Qed.

(** A filter whose byte array has room for [size] bits accepts every
    key. *)
Lemma add_loop_is_Ok bf key seeds :
  0 < BloomFilter.size bf →
  BloomFilter.size bf <= 8 * Z.of_nat (length (BloomFilter.bits bf)) →
  ∃ bf', BloomFilter.add_loop hash bf key seeds = Ok bf'.
Proof.
  revert bf. induction seeds as [|i seeds IH]; intros bf Hs Hl; simpl; [eauto|].
  unfold BloomFilter._hash.
  replace (BloomFilter.size bf =? 0) with false by (symmetry; apply Z.eqb_neq; lia).
  simpl.
  pose proof (Z.mod_pos_bound (hash (key +:+ str_of_nat i)) (BloomFilter.size bf) Hs) as Hp.
  set (pos := hash (key +:+ str_of_nat i) mod BloomFilter.size bf) in *.
  destruct (set_bit_is_Ok (BloomFilter.bits bf) pos) as [bs Hbs]; [|lia|].
  { apply lookup_lt_is_Some.
    assert (pos / 8 < Z.of_nat (length (BloomFilter.bits bf))).
    { apply Z.div_lt_upper_bound; lia. }
    assert (0 <= pos / 8) by (apply Z.div_pos; lia). lia. }
  rewrite Hbs. simpl. apply IH; simpl; [done|].
  by rewrite (set_bit_length _ _ _ Hbs).
Qed.

Lemma add_is_Ok bf key :
  0 < BloomFilter.size bf →
  BloomFilter.size bf <= 8 * Z.of_nat (length (BloomFilter.bits bf)) →
  ∃ bf', BloomFilter.add hash bf key = Ok bf'.
Proof. apply add_loop_is_Ok. Qed.

End Bloom.

(** * Facts about [_build] *)

Lemma bind_Raise {A B} (r : result A) (k : A → result B) e :
  r ≫= k = Raise e ↔ r = Raise e ∨ ∃ a, r = Ok a ∧ k a = Raise e.
Proof.
  destruct r as [a|e']; simpl; split.
  - intros H. right. eauto.
  - intros [H|(a' & Ha & Hk)]; [discriminate|]. by simplify_eq.
  - intros H. left. by simplify_eq.
  - intros [H|(a' & Ha & Hk)]; [by simplify_eq|discriminate].
Qed.

Lemma encode_record_Ok key value rb :
  SSTable.encode_record key value = Ok rb ↔
  (blen (encode key) < 2 ^ 32 ∧ blen (encode value) < 2 ^ 32 ∧
   rb = le_encode 4 (blen (encode key)) ++ encode key ++
        le_encode 4 (blen (encode value)) ++ encode value).
Proof.
  unfold SSTable.encode_record. cbv zeta. rewrite bind_Ok. split.
  - intros (a & Ha & H). apply bind_Ok in H as (b & Hb & H).
    apply pack_I_Ok in Ha as [? ->]. apply pack_I_Ok in Hb as [? ->].
    simplify_eq. split_and!; try done; lia.
  - intros (H1 & H2 & ->). pose proof (blen_nonneg (encode key)).
    pose proof (blen_nonneg (encode value)).
    exists (le_encode 4 (blen (encode key))). split; [apply pack_I_Ok; split; [lia|done]|].
    apply bind_Ok. exists (le_encode 4 (blen (encode value))).
    split; [apply pack_I_Ok; split; [lia|done]|done].
Qed.

Lemma encode_record_Raise key value e :
  SSTable.encode_record key value = Raise e →
  e = StructError ∧ (2 ^ 32 <= blen (encode key) ∨ 2 ^ 32 <= blen (encode value)).
Proof.
  unfold SSTable.encode_record. cbv zeta. intros H.
  apply bind_Raise in H as [H|(a & Ha & H)].
  - apply pack_I_Raise in H as [H ->]. pose proof (blen_nonneg (encode key)).
    split; [done|]. left. lia.
  - apply bind_Raise in H as [H|(b & Hb & H)]; [|done].
    apply pack_I_Raise in H as [H ->]. pose proof (blen_nonneg (encode value)).
    split; [done|]. right. lia.
Qed.

Lemma encode_record_length key value rb :
  SSTable.encode_record key value = Ok rb →
  blen rb = 8 + blen (encode key) + blen (encode value).
Proof.
  intros H. apply encode_record_Ok in H as (_ & _ & ->).
  rewrite !blen_app, !blen_le_encode. lia.
Qed.

Section Build.
Variable hash : string → Z.

Lemma default_geometry_default : default_geometry BloomFilter.default.
Proof. by split_and!. Qed.

Lemma add_geometry bf key bf' :
  BloomFilter.add hash bf key = Ok bf' → default_geometry bf → default_geometry bf'.
Proof.
  unfold BloomFilter.add. intros H (G1 & G2 & G3).
  apply add_loop_spec in H as (H1 & H2 & H3 & _).
  split_and!; congruence.
Qed.

Lemma add_default_is_Ok bf key :
  default_geometry bf → ∃ bf', BloomFilter.add hash bf key = Ok bf'.
Proof.
  intros (G1 & G2 & G3). apply add_is_Ok; rewrite G1; [lia|]. rewrite G3. lia.
Qed.

(** The first loop of [_build] writes the records one after the other
    and notes where each one starts. *)
Lemma write_records_Ok bf written offsets recs bf' offsets' written' :
  SSTable.write_records hash bf written offsets recs = (Ok (bf', offsets'), written') →
  ∃ body,
    records_bytes recs = Ok body ∧
    written' = written ++ body ∧
    offsets' = offsets ++ records_offsets (blen written) recs ∧
    (default_geometry bf → default_geometry bf') ∧
    (∀ k, covers hash bf k → covers hash bf' k) ∧
    (∀ k, k ∈ map fst recs → covers hash bf' k).
Proof.
  revert bf written offsets. induction recs as [|[key value] recs IH];
    intros bf written offsets H; cbn [SSTable.write_records] in H.
  - simplify_eq. exists []. rewrite !app_nil_r. split_and!; try done.
    intros k Hk. by apply elem_of_nil in Hk.
  - destruct (BloomFilter.add hash bf key) as [bf1|] eqn:Eadd; [|done].
    destruct (SSTable.encode_record key value) as [rb|] eqn:Erec; [|done].
    apply IH in H as (body & Hb & -> & -> & Hg & Hk1 & Hk2).
    exists (rb ++ body). cbn [records_bytes records_offsets].
    rewrite Erec, Hb. cbn [mbind result_bind].
    rewrite blen_app, (encode_record_length _ _ _ Erec).
    rewrite <- !app_assoc. split_and!; try done.
    + intros G. eapply Hg, add_geometry; eauto.
    + intros k Hk. eapply Hk1, add_keeps; eauto.
    + intros k Hk. cbn [map fst] in Hk. apply elem_of_cons in Hk as [->|Hk].
      * eapply Hk1, add_covers; eauto.
      * by apply Hk2.
Qed.

Lemma write_records_is_Ok bf written offsets recs body :
  default_geometry bf → records_bytes recs = Ok body →
  ∃ bf' offsets',
    SSTable.write_records hash bf written offsets recs
    = (Ok (bf', offsets'), written ++ body).
Proof.
  revert bf written offsets body. induction recs as [|[key value] recs IH];
    intros bf written offsets body G H; cbn [records_bytes] in H;
    cbn [SSTable.write_records].
  - simplify_eq. rewrite app_nil_r. eauto.
  - apply bind_Ok in H as (rb & Hrb & H). apply bind_Ok in H as (rest & Hrest & H).
    simplify_eq. destruct (add_default_is_Ok bf key G) as [bf1 Hadd].
    rewrite Hadd, Hrb.
    destruct (IH bf1 (written ++ rb) (offsets ++ [blen written]) rest) as (bf' & offs' & ->).
    { eapply add_geometry; eauto. } { done. }
    rewrite <- app_assoc. eauto.
Qed.

(** An exception in the first loop is [struct.error] for an oversized
    key or value, when the filter has the default geometry. *)
Lemma write_records_Raise bf written offsets recs e written' :
  default_geometry bf →
  SSTable.write_records hash bf written offsets recs = (Raise e, written') →
  e = StructError ∧
  ∃ k v, (k, v) ∈ recs ∧ (2 ^ 32 <= blen (encode k) ∨ 2 ^ 32 <= blen (encode v)).
Proof.
  revert bf written offsets. induction recs as [|[key value] recs IH];
    intros bf written offsets G H; cbn [SSTable.write_records] in H; [done|].
  destruct (add_default_is_Ok bf key G) as [bf1 Hadd]. rewrite Hadd in H.
  destruct (SSTable.encode_record key value) as [rb|e'] eqn:Erec.
  - apply IH in H as (-> & k & v & Hin & Hbig); [|by eapply add_geometry].
    split; [done|]. exists k, v. split; [by right|done].
  - simplify_eq. apply encode_record_Raise in Erec as [-> Hbig].
    split; [done|]. exists key, value. split; [by left|done].
Qed.

Lemma serialize_default bf :
  default_geometry bf →
  BloomFilter.serialize bf
  = Ok (le_encode 4 8192 ++ le_encode 4 4 ++ BloomFilter.bits bf).
Proof. intros (G1 & G2 & G3). unfold BloomFilter.serialize. by rewrite G1, G2. Qed.

(** What a successful [_build] returns and writes. *)
Lemma build_Ok_inv fn data fs sst fs' :
  SSTable._build hash fn data fs = (Ok sst, fs') →
  ∃ idx pre bf,
    build_layout data = Ok (idx, pre) ∧
    sst = SSTable.mk fn idx (Some bf) ∧
    fs' = <[fn := pre ++ le_encode 4 8192 ++ le_encode 4 4 ++ BloomFilter.bits bf]> fs ∧
    default_geometry bf ∧
    (∀ k, k ∈ map fst data → covers hash bf k).
Proof.
  unfold SSTable._build. fold key_ltb.
  destruct (SSTable.write_records _ _ _ _ _) as [[[bf offsets]|e] written] eqn:Ew; [|done].
  apply write_records_Ok in Ew as (body & Hb & -> & -> & Hg & _ & Hk).
  specialize (Hg default_geometry_default). cbn [app] in *.
  destruct (SSTable.index_data _) as [idata|] eqn:Ei; [|done].
  destruct (pack_I (blen idata)) as [sz|] eqn:Es; [|done].
  rewrite (serialize_default bf Hg). intros H. simplify_eq.
  exists (zip (map fst (py_sorted key_ltb data)) (records_offsets 0 (py_sorted key_ltb data))),
    (body ++ idata ++ sz), bf.
  unfold build_layout. rewrite Hb. cbn [mbind result_bind].
  change (blen []) with 0 in Ei. rewrite Ei. cbn [mbind result_bind]. rewrite Es.
  cbn [mbind result_bind]. rewrite <- !app_assoc. split_and!; try done; try apply Hg.
  intros k Hin. apply Hk. by rewrite (py_sorted_perm key_ltb data).
Qed.

(** [_build] succeeds exactly on the record sets that fit the format. *)
Lemma build_is_Ok fn data fs :
  fits data = true →
  ∃ sst content,
    SSTable._build hash fn data fs = (Ok sst, <[fn := content]> fs) ∧
    SSTable.filename sst = fn.
Proof.
  unfold fits, build_layout. intros H.
  destruct (records_bytes (py_sorted key_ltb data)) as [body|] eqn:Hb; [|done].
  cbn [mbind result_bind] in H.
  destruct (SSTable.index_data _) as [idata|] eqn:Ei; [|done].
  cbn [mbind result_bind] in H.
  destruct (pack_I (blen idata)) as [sz|] eqn:Es; [|done].
  destruct (write_records_is_Ok BloomFilter.default [] [] _ body
              default_geometry_default Hb) as (bf & offs & Hw).
  pose proof Hw as Hw'.
  apply write_records_Ok in Hw' as (body' & Hb' & _ & -> & Hg & _).
  specialize (Hg default_geometry_default).
  unfold SSTable._build. fold key_ltb. rewrite Hw. cbn [app].
  change (blen []) with 0. rewrite Ei, Es, (serialize_default bf Hg).
  eauto.
Qed.

Lemma build_Raise fn data fs e fs' :
  SSTable._build hash fn data fs = (Raise e, fs') → e = StructError ∧ fits data = false.
Proof.
  unfold SSTable._build. fold key_ltb. unfold fits, build_layout.
  destruct (SSTable.write_records _ _ _ _ _) as [[[bf offsets]|e'] written] eqn:Ew.
  - apply write_records_Ok in Ew as (body & Hb & -> & -> & Hg & _ & Hk).
    specialize (Hg default_geometry_default). cbn [app].
    rewrite Hb. cbn [mbind result_bind]. change (blen []) with 0.
    destruct (SSTable.index_data _) as [idata|e1] eqn:Ei.
    + cbn [mbind result_bind].
      destruct (pack_I (blen idata)) as [sz|e2] eqn:Es.
      * rewrite (serialize_default bf Hg). done.
      * intros ?. simplify_eq. apply pack_I_Raise in Es as [_ ->]. done.
    + intros ?. simplify_eq. split; [|done].
      unfold SSTable.index_data in Ei.
      apply bind_Raise in Ei as [Ei|(c & Hc & Ei)].
      { by apply pack_I_Raise in Ei as [_ ->]. }
      apply bind_Raise in Ei as [Ei|(es & Hes & Ei)]; [|done].
      clear -Ei. revert e Ei.
      generalize (zip (map fst (py_sorted key_ltb data))
                    (records_offsets 0 (py_sorted key_ltb data))).
      intros l. induction l as [|[k o] l IH]; intros e Ei; cbn [SSTable.index_entries] in Ei;
        [done|].
      apply bind_Raise in Ei as [Ei|(a & Ha & Ei)].
      { by apply pack_I_Raise in Ei as [_ ->]. }
      apply bind_Raise in Ei as [Ei|(q & Hq & Ei)].
      { unfold pack_Q in Ei. by destruct ((0 <=? o) && (o <? 2 ^ 64)); simplify_eq. }
      apply bind_Raise in Ei as [Ei|(r & Hr & Ei)]; [|done].
      by apply IH.
  - intros ?. simplify_eq.
    pose proof Ew as Ew'.
    apply write_records_Raise in Ew as (-> & k & v & Hin & Hbig);
      [|apply default_geometry_default].
    split; [done|].
    destruct (records_bytes (py_sorted key_ltb data)) as [body|] eqn:Hb; [|done].
    exfalso.
    destruct (write_records_is_Ok BloomFilter.default [] [] _ body
                default_geometry_default Hb) as (bf & offs & Hw).
    rewrite Hw in Ew'. done.
Qed.

End Build.

(** * Reading back what [_build] wrote *)

Lemma records_offsets_length p recs :
  length (records_offsets p recs) = length recs.
Proof.
  revert p. induction recs as [|[k v] recs IH]; intros p; simpl; [done|]. by rewrite IH.
Qed.

(** The [i]-th record sits in the data region at the [i]-th offset. *)
Lemma records_lookup recs body p i k v :
  records_bytes recs = Ok body → recs !! i = Some (k, v) →
  ∃ pre rb rest,
    body = pre ++ rb ++ rest ∧
    SSTable.encode_record k v = Ok rb ∧
    records_offsets p recs !! i = Some (p + blen pre).
Proof.
  revert body p i. induction recs as [|[k' v'] recs IH]; intros body p i Hb Hi; [done|].
  cbn [records_bytes] in Hb. apply bind_Ok in Hb as (rb & Hrb & Hb).
  apply bind_Ok in Hb as (rest & Hrest & Hb). simplify_eq.
  destruct i as [|i]; simpl in Hi.
  - simplify_eq. exists [], rb, rest. split_and!; [done|done|]. simpl.
    f_equal. unfold blen. simpl. lia.
  - destruct (IH rest (p + (8 + blen (encode k') + blen (encode v'))) i Hrest Hi)
      as (pre & rb' & rest' & -> & Hrb' & Ho).
    exists (rb ++ pre), rb', rest'. split_and!; [by rewrite <- app_assoc|done|].
    cbn [records_offsets]. rewrite lookup_cons, Ho. f_equal.
    rewrite blen_app, (encode_record_length _ _ _ Hrb). lia.
Qed.

Lemma read_value_record pre rb rest k v :
  SSTable.encode_record k v = Ok rb →
  SSTable.read_value (pre ++ rb ++ rest) (blen pre) = Ok v.
Proof.
  intros H. apply encode_record_Ok in H as (Hk & Hv & ->).
  pose proof (blen_nonneg pre) as Hp. pose proof (blen_nonneg (encode k)) as Hk0.
  pose proof (blen_nonneg (encode v)) as Hv0.
  unfold SSTable.read_value.
  replace (blen pre <? 0) with false by (symmetry; apply Z.ltb_ge; lia).
  rewrite <- !app_assoc.
  rewrite (f_read_app pre (le_encode 4 (blen (encode k)))) by (by rewrite blen_le_encode).
  cbv beta iota zeta.
  rewrite unpack_I_encode by lia. cbn [mbind result_bind].
  set (a := le_encode 4 (blen (encode k))).
  set (b := le_encode 4 (blen (encode v))).
  replace (pre ++ a ++ encode k ++ b ++ encode v ++ rest)
    with ((pre ++ a ++ encode k) ++ b ++ encode v ++ rest) by (by rewrite <- !app_assoc).
  replace (blen pre + 4 + blen (encode k)) with (blen (pre ++ a ++ encode k)).
  2:{ rewrite !blen_app. unfold a. rewrite blen_le_encode. lia. }
  rewrite (f_read_app (pre ++ a ++ encode k) b) by (unfold b; by rewrite blen_le_encode).
  cbv beta iota zeta.
  assert (unpack_I b = Ok (blen (encode v))) as -> by (apply unpack_I_encode; lia). cbn [mbind result_bind].
  replace ((pre ++ a ++ encode k) ++ b ++ encode v ++ rest)
    with (((pre ++ a ++ encode k) ++ b) ++ encode v ++ rest) by (by rewrite <- !app_assoc).
  replace (blen (pre ++ a ++ encode k) + 4) with (blen ((pre ++ a ++ encode k) ++ b)).
  2:{ rewrite (blen_app _ b). unfold b. rewrite blen_le_encode. lia. }
  rewrite (f_read_app _ (encode v)) by done.
  simpl. by rewrite decode_encode.
Qed.

Lemma build_layout_Ok_inv data idx pre :
  build_layout data = Ok (idx, pre) →
  ∃ body idata sz,
    records_bytes (py_sorted key_ltb data) = Ok body ∧
    idx = zip (map fst (py_sorted key_ltb data))
              (records_offsets 0 (py_sorted key_ltb data)) ∧
    SSTable.index_data idx = Ok idata ∧
    pack_I (blen idata) = Ok sz ∧
    pre = body ++ idata ++ sz.
Proof.
  unfold build_layout. intros H.
  apply bind_Ok in H as (body & Hb & H). apply bind_Ok in H as (idata & Hi & H).
  apply bind_Ok in H as (sz & Hs & H). simplify_eq.
  exists body, idata, sz. done.
Qed.

Lemma build_layout_keys data idx pre :
  build_layout data = Ok (idx, pre) →
  map fst idx = map fst (py_sorted key_ltb data).
Proof.
  intros H. apply build_layout_Ok_inv in H as (body & idata & sz & _ & -> & _).
  change (map fst (zip ?a ?b)) with (fst <$> zip a b).
  apply fst_zip. rewrite length_map, records_offsets_length. done.
Qed.

(** * Facts about the position found by [bisect_left] *)

Lemma bisect_left_found a i k :
  strictly_ascending a → a !! i = Some k → bisect_left a k = i.
Proof.
  intros Hs Hi. pose proof (lookup_lt_Some _ _ _ Hi) as Hlt.
  assert (nth i a EmptyString = k) as Hn by (by apply nth_lookup_Some with (d := EmptyString) in Hi).
  destruct (bisect_left_spec a k (strictly_ascending_ascending a Hs)) as [Hle Hiff].
  destruct (Nat.lt_trichotomy (bisect_left a k) i) as [Hc|[Hc|Hc]]; [|done|].
  - exfalso. pose proof (strictly_ascending_nth a _ i Hs Hc Hlt) as Hl.
    rewrite Hn in Hl. apply Hiff in Hl; lia.
  - exfalso. apply Hiff in Hc; [|done]. rewrite Hn, ltb_irrefl in Hc. done.
Qed.

Lemma nth_elem_of (a : list string) i :
  (i < length a)%nat → nth i a EmptyString ∈ a.
Proof. intros H. apply list_elem_of_In, nth_In. done. Qed.

Section Read.
Variable hash : string → Z.

Lemma might_contain_loop_is_Ok bf key seeds :
  default_geometry bf →
  ∃ b, BloomFilter.might_contain_loop hash bf key seeds = Ok b.
Proof.
  intros (G1 & G2 & G3). induction seeds as [|i seeds IH];
    cbn [BloomFilter.might_contain_loop]; [eauto|].
  unfold BloomFilter._hash. rewrite G1. cbn [Z.eqb mbind result_bind].
  pose proof (Z.mod_pos_bound (hash (key +:+ str_of_nat i)) 8192 ltac:(lia)) as Hp.
  set (pos := hash (key +:+ str_of_nat i) mod 8192) in *.
  assert (0 <= pos / 8 < 1024) as Hd.
  { split; [apply Z.div_pos; lia|apply Z.div_lt_upper_bound; lia]. }
  destruct (lookup_lt_is_Some_2 (BloomFilter.bits bf) (Z.to_nat (pos / 8))) as [b Hb]; [lia|].
  assert (py_getitem (BloomFilter.bits bf) (pos / 8) = Ok b) as Hg.
  { apply py_getitem_Ok. unfold norm_index.
    replace (pos / 8 <? 0) with false by (symmetry; apply Z.ltb_ge; lia).
    rewrite G3. split; [lia|done]. }
  unfold BloomFilter.test_bit. rewrite Hg. cbn [mbind result_bind].
  destruct (_ =? 0); eauto.
Qed.

Lemma might_contain_is_Ok bf key :
  default_geometry bf → ∃ b, BloomFilter.might_contain hash bf key = Ok b.
Proof. apply might_contain_loop_is_Ok. Qed.

(** What [represents] says about the handle and its file. *)
Lemma represents_inv fs sst data :
  represents hash fs sst data →
  ∃ idx pre bf body idata sz,
    sst = SSTable.mk (SSTable.filename sst) idx (Some bf) ∧
    fs !! SSTable.filename sst
      = Some (pre ++ le_encode 4 8192 ++ le_encode 4 4 ++ BloomFilter.bits bf) ∧
    default_geometry bf ∧
    (∀ k, k ∈ map fst data → covers hash bf k) ∧
    records_bytes (py_sorted key_ltb data) = Ok body ∧
    idx = zip (map fst (py_sorted key_ltb data))
              (records_offsets 0 (py_sorted key_ltb data)) ∧
    pre = body ++ idata ++ sz ∧
    map fst idx = map fst (py_sorted key_ltb data) ∧
    strictly_ascending (map fst idx).
Proof.
  intros (Hnd & fs0 & fs1 & Hb & Hfs).
  apply build_Ok_inv in Hb as (idx & pre & bf & Hl & Hsst & -> & Hg & Hc).
  pose proof (build_layout_keys _ _ _ Hl) as Hkeys.
  apply build_layout_Ok_inv in Hl as (body & idata & sz & Hbody & Hidx & _ & _ & Hpre).
  exists idx, pre, bf, body, idata, sz. split_and!; try done.
  - rewrite Hfs. apply lookup_insert_eq.
  - rewrite Hkeys. apply ascending_NoDup_strict; [apply py_sorted_ascending|].
    by rewrite (Permutation_map fst (py_sorted_perm key_ltb data)).
Qed.

(** [get] on a table finds the value of every record it was built from. *)
Lemma get_represents_in fs sst data k v :
  represents hash fs sst data → (k, v) ∈ data →
  SSTable.get hash sst k fs = Ok (Some v).
Proof.
  intros Hr Hin.
  destruct (represents_inv _ _ _ Hr)
    as (idx & pre & bf & body & idata & sz & Hsst & Hfs & Hg & Hc & Hbody & Hidx & Hpre & Hkeys & Hsa).
  rewrite <- (py_sorted_perm key_ltb data) in Hin.
  apply list_elem_of_lookup in Hin as [i Hi].
  destruct (records_lookup _ _ 0 _ _ _ Hbody Hi) as (p0 & rb & rest & Hsplit & Hrb & Hoff).
  assert (map fst idx !! i = Some k) as Hki.
  { rewrite Hkeys, list_lookup_fmap, Hi. done. }
  assert (idx !! i = Some (k, 0 + blen p0)) as Hii.
  { rewrite Hidx. apply lookup_zip_with_Some. exists k, (0 + blen p0).
    split_and!; [done| |done]. by rewrite list_lookup_fmap, Hi. }
  unfold SSTable.get. rewrite Hsst. cbn [SSTable.bloom SSTable.index SSTable.filename].
  rewrite covers_might_contain.
  2:{ apply Hc. apply list_elem_of_fmap. exists (k, v). split; [done|].
      rewrite <- (py_sorted_perm key_ltb data). by eapply list_elem_of_lookup_2. }
  cbn [mbind result_bind negb].
  rewrite (bisect_left_found _ i k Hsa Hki).
  pose proof (lookup_lt_Some _ _ _ Hki) as Hlt.
  replace (length (map fst idx) <=? i)%nat with false
    by (symmetry; apply Nat.leb_gt; done).
  rewrite (nth_lookup_Some _ _ EmptyString _ Hki), String.eqb_refl.
  cbn [orb negb]. rewrite Hii, Hfs, Hpre, Hsplit.
  rewrite <- !app_assoc. rewrite Z.add_0_l.
  rewrite (read_value_record p0 rb _ k v Hrb). done.
Qed.

(** [get] on a table answers [None] for a key it was not built from. *)
Lemma get_represents_notin fs sst data k :
  represents hash fs sst data → k ∉ map fst data →
  SSTable.get hash sst k fs = Ok None.
Proof.
  intros Hr Hnin.
  destruct (represents_inv _ _ _ Hr)
    as (idx & pre & bf & body & idata & sz & Hsst & Hfs & Hg & Hc & Hbody & Hidx & Hpre & Hkeys & Hsa).
  unfold SSTable.get. rewrite Hsst. cbn [SSTable.bloom SSTable.index SSTable.filename].
  destruct (might_contain_is_Ok bf k Hg) as [b ->]. cbn [mbind result_bind].
  destruct b; cbn [negb]; [|done].
  set (pos := bisect_left (map fst idx) k).
  destruct (length (map fst idx) <=? pos)%nat eqn:E; [done|].
  apply Nat.leb_gt in E.
  destruct (String.eqb_spec (nth pos (map fst idx) EmptyString) k) as [Heq|Hne]; [|done].
  exfalso. apply Hnin. rewrite <- Heq.
  rewrite <- (py_sorted_perm key_ltb data), <- Hkeys. by apply nth_elem_of.
Qed.

Lemma range_loop_represents fs sst data l :
  represents hash fs sst data → (∀ kv, kv ∈ l → kv ∈ data) →
  SSTable.range_loop hash sst fs (map fst l) = Ok l.
Proof.
  intros Hr. induction l as [|[k v] l IH]; intros Hl; cbn [map fst SSTable.range_loop]; [done|].
  rewrite (get_represents_in fs sst data k v Hr) by (apply Hl; by left).
  cbn [mbind result_bind fst]. rewrite IH by (intros kv ?; apply Hl; by right). done.
Qed.

(** [range] on a table returns the records of the window, in key
    order. *)
Lemma range_represents fs sst data start stop :
  represents hash fs sst data →
  SSTable.range hash sst start stop fs
  = Ok (List.filter (in_window start stop) (py_sorted key_ltb data)).
Proof.
  intros Hr.
  destruct (represents_inv _ _ _ Hr)
    as (idx & pre & bf & body & idata & sz & Hsst & Hfs & Hg & Hc & Hbody & Hidx & Hpre & Hkeys & Hsa).
  unfold SSTable.range.
  assert (SSTable.index sst = idx) as -> by (rewrite Hsst; done).
  pose proof (strictly_ascending_ascending _ Hsa) as Ha.
  destruct (bisect_left_spec (map fst idx) start Ha) as [Hl1 Hl2].
  destruct (bisect_right_spec (map fst idx) stop Ha) as [Hr1 Hr2].
  rewrite (slice_filter (fun k => String.leb start k && String.leb k stop)); [|done|].
  2:{ intros i Hi. rewrite andb_true_iff, (Hr2 i Hi).
      specialize (Hl2 i Hi). rewrite ltb_leb in Hl2.
      destruct (String.leb start (nth i (map fst idx) EmptyString)); simpl in Hl2; split.
      - intros [_ ?]. split; [|done].
        destruct (Nat.le_gt_cases (bisect_left (map fst idx) start) i) as [?|Hc']; [done|].
        apply Hl2 in Hc'. done.
      - intros [_ ?]. done.
      - intros [? _]. done.
      - intros [Hc' _]. exfalso. assert (i < bisect_left (map fst idx) start)%nat as Hlt
          by (by apply Hl2). lia. }
  rewrite Hkeys.
  assert (List.filter (fun k => String.leb start k && String.leb k stop)
            (map fst (py_sorted key_ltb data))
          = map fst (List.filter (in_window start stop) (py_sorted key_ltb data))) as ->.
  { generalize (py_sorted key_ltb data). intros l.
    induction l as [|[k v] l IH]; [done|]. cbn [map List.filter fst].
    unfold in_window at 1. cbn [fst].
    destruct (String.leb start k && String.leb k stop); cbn [map fst]; by rewrite IH. }
  apply (range_loop_represents fs sst data); [done|].
  intros kv Hkv. apply list_elem_of_In, filter_In in Hkv as [Hkv _].
  apply list_elem_of_In in Hkv. by rewrite (py_sorted_perm key_ltb data) in Hkv.
Qed.

End Read.

(** * Every index of a reachable tree is ascending *)

Section Ascending.
Variable hash : string → Z.

Lemma build_index_ascending fn data fs sst fs' :
  SSTable._build hash fn data fs = (Ok sst, fs') →
  ascending (map fst (SSTable.index sst)).
Proof.
  intros H. apply build_Ok_inv in H as (idx & pre & bf & Hl & -> & _).
  cbn [SSTable.index]. rewrite (build_layout_keys _ _ _ Hl).
  apply py_sorted_ascending.
Qed.

Lemma compact_level_ascending level st :
  indexes_ascending (fst st) →
  indexes_ascending (fst (snd (LSMTree._compact_level hash level st))).
Proof.
  destruct st as [tr fs]. unfold indexes_ascending, LSMTree._compact_level.
  cbn [fst snd]. intros Ha.
  destruct (LSMTree.levels tr !! level) as [[|sst0 this_level]|] eqn:El; try done.
  destruct (LSMTree.gather hash [] _ fs) as [merged|]; [|done].
  destruct (match LSMTree.levels tr !! (level + 1)%nat with
            | Some next_level => LSMTree.gather hash merged next_level fs
            | None => Ok merged
            end) as [merged'|]; [|done].
  set (lvls1 := if (length (LSMTree.levels tr) <=? level + 1)%nat
                then LSMTree.levels tr ++ [[]] else LSMTree.levels tr).
  assert (Forall (Forall (fun sst => ascending (map fst (SSTable.index sst)))) lvls1)
    as Ha1.
  { unfold lvls1. destruct (_ <=? _)%nat; [|done].
    apply Forall_app. split; [done|]. by repeat constructor. }
  destruct (SSTable._build hash _ merged' _) as [[sst|e] fs2] eqn:Eb; cbn [fst snd LSMTree.levels].
  - apply Forall_insert; [|constructor].
    apply Forall_insert; [|by repeat constructor || eapply build_index_ascending].
    by apply Forall_insert.
  - by apply Forall_insert.
Qed.

Lemma flush_ascending st :
  indexes_ascending (fst st) →
  indexes_ascending (fst (snd (LSMTree._flush_memtable hash st))).
Proof.
  destruct st as [tr fs]. unfold LSMTree._flush_memtable. cbn [fst snd]. intros Ha.
  destruct (LSMTree.memtable tr) as [|kv mem] eqn:Em; [done|].
  set (lvls1 := match LSMTree.levels tr with [] => [[]] | _ :: _ => LSMTree.levels tr end).
  assert (indexes_ascending (LSMTree.mk (kv :: mem) (LSMTree.memtable_limit tr) lvls1)) as Ha1.
  { unfold indexes_ascending, lvls1 in *. cbn [LSMTree.levels].
    destruct (LSMTree.levels tr); [by repeat constructor|done]. }
  destruct (SSTable._build hash _ _ fs) as [[sst|e] fs1] eqn:Eb; cbn [fst snd]; [|done].
  set (st2 := (LSMTree.mk [] _ _, fs1)).
  assert (indexes_ascending (fst st2)) as Ha2.
  { unfold indexes_ascending in *. cbn [st2 fst LSMTree.levels] in *.
    apply Forall_insert; [done|]. apply Forall_app. split.
    - destruct (lvls1 !! 0%nat) as [l0|] eqn:E0; cbn [default]; [|constructor].
      eapply Forall_lookup_1 in Ha1; eauto.
    - repeat constructor. by eapply build_index_ascending. }
  destruct (2 <? _)%nat; [|done]. by apply compact_level_ascending.
Qed.

Lemma put_ascending key value st :
  indexes_ascending (fst st) →
  indexes_ascending (fst (snd (LSMTree.put hash key value st))).
Proof.
  destruct st as [tr fs]. unfold LSMTree.put. cbn [fst]. intros Ha.
  destruct (_ <=? _); [|done]. by apply flush_ascending.
Qed.

Lemma reachable_ascending st : reachable hash st → indexes_ascending (fst st).
Proof.
  induction 1 as [limit fs|key value st _ IH|tr fs fs' _ IH].
  - constructor.
  - by apply put_ascending.
  - done.
Qed.

(** An empty window: [start > stop]. *)
Lemma sstable_range_empty_window sst start stop fs :
  ascending (map fst (SSTable.index sst)) → String.ltb stop start = true →
  SSTable.range hash sst start stop fs = Ok [].
Proof.
  intros Ha Hlt. unfold SSTable.range.
  set (keys := map fst (SSTable.index sst)) in *.
  destruct (bisect_left_spec keys start Ha) as [Hl1 Hl2].
  destruct (bisect_right_spec keys stop Ha) as [Hr1 Hr2].
  assert (bisect_right keys stop <= bisect_left keys start)%nat as Hle.
  { destruct (Nat.le_gt_cases (bisect_right keys stop) (bisect_left keys start))
      as [?|Hc]; [done|]. exfalso.
    assert (bisect_left keys start < length keys)%nat as Hi by lia.
    pose proof (proj2 (Hr2 _ Hi) Hc) as H1.
    assert (String.ltb (nth (bisect_left keys start) keys EmptyString) start = false) as H2.
    { destruct (String.ltb (nth (bisect_left keys start) keys EmptyString) start) eqn:E;
        [|done]. apply Hl2 in E; [lia|done]. }
    rewrite ltb_leb in H2. apply negb_false_iff in H2.
    rewrite ltb_leb, (leb_trans _ _ _ H2 H1) in Hlt. done. }
  replace (bisect_right keys stop - bisect_left keys start)%nat with 0%nat by lia.
  done.
Qed.

Lemma range_level_empty_window res ssts start stop fs :
  Forall (fun sst => ascending (map fst (SSTable.index sst))) ssts →
  String.ltb stop start = true →
  LSMTree.range_level hash res ssts start stop fs = Ok res.
Proof.
  intros Ha Hlt. induction Ha as [|sst ssts Hs _ IH]; cbn [LSMTree.range_level]; [done|].
  rewrite (sstable_range_empty_window sst start stop fs Hs Hlt). exact IH.
Qed.

Lemma range_levels_empty_window res lvls start stop fs :
  Forall (Forall (fun sst => ascending (map fst (SSTable.index sst)))) lvls →
  String.ltb stop start = true →
  LSMTree.range_levels hash res lvls start stop fs = Ok res.
Proof.
  intros Ha Hlt. induction Ha as [|lvl lvls Hs _ IH]; cbn [LSMTree.range_levels]; [done|].
  rewrite (range_level_empty_window res lvl start stop fs Hs Hlt). exact IH.
Qed.

Lemma filter_empty_window start stop (d : dict) :
  String.ltb stop start = true →
  List.filter (fun kv => String.leb start (fst kv) && String.leb (fst kv) stop) d = [].
Proof.
  intros Hlt. induction d as [|[k v] d IH]; [done|]. cbn [List.filter fst].
  destruct (String.leb start k) eqn:E1; destruct (String.leb k stop) eqn:E2;
    cbn [andb]; try exact IH.
  rewrite ltb_leb, (leb_trans _ _ _ E1 E2) in Hlt. done.
Qed.

End Ascending.

(** * Facts about dictionaries *)

Lemma dict_set_keys d k v :
  map fst (dict_set d k v) = if decide (k ∈ map fst d) then map fst d else map fst d ++ [k].
Proof.
  induction d as [|[k' v'] d IH]; cbn [dict_set map fst].
  - rewrite decide_False; [done|]. apply not_elem_of_nil.
  - destruct (String.eqb_spec k' k) as [->|Hne]; cbn [map fst].
    + rewrite decide_True; [done|]. by left.
    + rewrite IH. destruct (decide (k ∈ map fst d)) as [Hin|Hnin].
      * rewrite decide_True; [done|]. by right.
      * rewrite decide_False; [done|]. intros Hc. apply elem_of_cons in Hc as [?|?]; done.
Qed.

Lemma dict_set_NoDup d k v : NoDup (map fst d) → NoDup (map fst (dict_set d k v)).
Proof.
  intros Hn. rewrite dict_set_keys. destruct (decide (k ∈ map fst d)); [done|].
  apply NoDup_app. split_and!; [done| |apply NoDup_singleton].
  intros x Hx Hx'. apply list_elem_of_singleton in Hx'. by subst.
Qed.

Lemma dict_update_NoDup d items : NoDup (map fst d) → NoDup (map fst (dict_update d items)).
Proof.
  unfold dict_update. revert d. induction items as [|[k v] items IH]; intros d Hn; [done|].
  cbn [fold_left]. apply IH. by apply dict_set_NoDup.
Qed.

Lemma dict_get_None d k : dict_get d k = None ↔ k ∉ map fst d.
Proof.
  induction d as [|[k' v'] d IH]; cbn [dict_get map fst].
  - split; [intros _; apply not_elem_of_nil|done].
  - destruct (String.eqb_spec k' k) as [->|Hne].
    + split; [done|]. intros Hc. exfalso. apply Hc. by left.
    + rewrite IH, not_elem_of_cons. split; [intros ?; split; [congruence|done]|tauto].
Qed.

Lemma dict_get_Some d k v : dict_get d k = Some v → (k, v) ∈ d.
Proof.
  induction d as [|[k' v'] d IH]; cbn [dict_get]; [done|].
  destruct (String.eqb_spec k' k) as [->|Hne].
  - intros ?. simplify_eq. by left.
  - intros H. right. by apply IH.
Qed.

(** * Facts about file names *)

Lemma string_length_append a b :
  String.length (a +:+ b) = (String.length a + String.length b)%nat.
Proof. induction a as [|c a IH]; simpl; [done|]. by rewrite IH. Qed.

Lemma append_inj_r a b c : a +:+ c = b +:+ c → a = b.
Proof.
  revert b. induction a as [|x a IH]; intros [|y b] H.
  - done.
  - apply (f_equal String.length) in H.
    rewrite !string_length_append in H. simpl in H. lia.
  - apply (f_equal String.length) in H.
    rewrite !string_length_append in H. simpl in H. lia.
  - simpl in H. injection H as -> H. f_equal. by apply IH.
Qed.

Lemma to_uint_nonnil n : Nat.to_uint n ≠ Decimal.Nil.
Proof.
  intros H. pose proof (Unsigned.to_of (Nat.to_uint n)) as Hu.
  rewrite Unsigned.of_to, H in Hu. done.
Qed.

Lemma str_of_nat_inj i j : str_of_nat i = str_of_nat j → i = j.
Proof.
  unfold str_of_nat. intros H. apply Unsigned.to_uint_inj.
  pose proof (NilZero.usu _ (to_uint_nonnil i)) as Hi.
  pose proof (NilZero.usu _ (to_uint_nonnil j)) as Hj.
  rewrite H in Hi. congruence.
Qed.

Lemma l0_name_inj i j :
  "l0_" +:+ str_of_nat i +:+ ".sst" = "l0_" +:+ str_of_nat j +:+ ".sst" → i = j.
Proof.
  intros H. apply String.app_inj in H. apply append_inj_r in H. by apply str_of_nat_inj.
Qed.

Lemma l0_name_ne_l1 s : "l0_" +:+ s ≠ "l1_0.sst".
Proof. intros H. simpl in H. discriminate H. Qed.

(** * Handles keep representing their record set when other files change *)

Section Refine.
Variable hash : string → Z.

Lemma represents_other_files fs fs' sst data :
  represents hash fs sst data →
  fs' !! SSTable.filename sst = fs !! SSTable.filename sst →
  represents hash fs' sst data.
Proof.
  intros (Hn & fs0 & fs1 & Hb & Hl) Hfs. split; [done|].
  exists fs0, fs1. split; [done|]. by rewrite Hfs.
Qed.

Lemma represents_build fn data fs sst fs' :
  NoDup (map fst data) →
  SSTable._build hash fn data fs = (Ok sst, fs') →
  represents hash fs' sst data ∧ SSTable.filename sst = fn.
Proof.
  intros Hn Hb. pose proof Hb as Hb'.
  apply build_Ok_inv in Hb' as (idx & pre & bf & _ & -> & _).
  cbn [SSTable.filename]. split; [|done]. split; [done|].
  exists fs, fs'. cbn [SSTable.filename]. done.
Qed.

Lemma cleanup_all_lookup ssts fs fn :
  LSMTree.cleanup_all ssts fs !! fn
  = if decide (fn ∈ map SSTable.filename ssts) then None else fs !! fn.
Proof.
  unfold LSMTree.cleanup_all. revert fs.
  induction ssts as [|sst ssts IH]; intros fs; cbn [fold_left map].
  - rewrite decide_False; [done|]. apply not_elem_of_nil.
  - rewrite IH. unfold SSTable.cleanup.
    destruct (decide (fn ∈ map SSTable.filename ssts)) as [Hin|Hnin].
    + rewrite decide_True; [done|]. by right.
    + destruct (decide (fn = SSTable.filename sst)) as [->|Hne].
      * rewrite decide_True by (by left). apply lookup_delete_eq.
      * rewrite decide_False.
        2:{ intros Hc. apply elem_of_cons in Hc as [?|?]; done. }
        by apply lookup_delete_ne.
Qed.

(** * Reads of a tree that stores given record sets *)

Lemma get_represents fs sst data k :
  represents hash fs sst data → SSTable.get hash sst k fs = Ok (dict_get data k).
Proof.
  intros Hr. destruct (dict_get data k) as [v|] eqn:E.
  - apply dict_get_Some in E. by apply (get_represents_in hash fs sst data).
  - apply dict_get_None in E. by apply (get_represents_notin hash fs sst data).
Qed.

Lemma get_level_represents fs ssts tbls k :
  Forall2 (represents hash fs) ssts tbls →
  LSMTree.get_level hash ssts k fs = Ok (a_get_level tbls k).
Proof.
  induction 1 as [|sst d ssts tbls Hr _ IH]; cbn [LSMTree.get_level a_get_level]; [done|].
  rewrite (get_represents fs sst d k Hr). cbn [mbind result_bind].
  by destruct (dict_get d k).
Qed.

Lemma get_levels_represents fs lvls albls k :
  Forall2 (Forall2 (represents hash fs)) lvls albls →
  LSMTree.get_levels hash lvls k fs = Ok (a_get_levels albls k).
Proof.
  induction 1 as [|lvl al lvls albls Hr _ IH]; cbn [LSMTree.get_levels a_get_levels]; [done|].
  rewrite (get_level_represents fs lvl al k Hr). cbn [mbind result_bind].
  by destruct (a_get_level al k).
Qed.

Lemma range_level_represents fs ssts tbls res start stop :
  Forall2 (represents hash fs) ssts tbls →
  LSMTree.range_level hash res ssts start stop fs = Ok (a_gather start stop res tbls).
Proof.
  intros H. revert res. induction H as [|sst d ssts tbls Hr _ IH]; intros res;
    cbn [LSMTree.range_level a_gather fold_left]; [done|].
  rewrite (range_represents hash fs sst d start stop Hr). cbn [mbind result_bind].
  apply IH.
Qed.

Lemma gather_represents fs ssts tbls merged :
  Forall2 (represents hash fs) ssts tbls →
  LSMTree.gather hash merged ssts fs = Ok (a_gather "" "~" merged tbls).
Proof.
  intros H. revert merged. induction H as [|sst d ssts tbls Hr _ IH]; intros merged;
    cbn [LSMTree.gather a_gather fold_left]; [done|].
  rewrite (range_represents hash fs sst d "" "~" Hr). cbn [mbind result_bind].
  apply IH.
Qed.

Lemma range_levels_represents fs lvls albls res start stop :
  Forall2 (Forall2 (represents hash fs)) lvls albls →
  LSMTree.range_levels hash res lvls start stop fs
  = Ok (fold_left (a_gather start stop) albls res).
Proof.
  intros H. revert res. induction H as [|lvl al lvls albls Hr _ IH]; intros res;
    cbn [LSMTree.range_levels fold_left]; [done|].
  rewrite (range_level_represents fs lvl al res start stop Hr). cbn [mbind result_bind].
  apply IH.
Qed.

Lemma a_gather_NoDup start stop merged tbls :
  NoDup (map fst merged) → NoDup (map fst (a_gather start stop merged tbls)).
Proof.
  unfold a_gather. revert merged. induction tbls as [|d tbls IH]; intros merged Hn; [done|].
  cbn [fold_left]. apply IH. by apply dict_update_NoDup.
Qed.

(** [get] and [range] of the tree are those of its record sets. *)
Lemma refines_get st t k :
  refines hash st t → LSMTree.get hash k st = Ok (a_get k t).
Proof.
  destruct st as [tr fs]. intros (Hm & _ & _ & Hl & _). unfold LSMTree.get, a_get.
  rewrite Hm. destruct (dict_get (amem t) k); [done|].
  apply get_levels_represents. by apply Forall2_reverse.
Qed.

Lemma refines_range st t start stop :
  refines hash st t → LSMTree.range hash start stop st = Ok (a_range start stop t).
Proof.
  destruct st as [tr fs]. intros (Hm & _ & _ & Hl & _). unfold LSMTree.range, a_range.
  rewrite Hm. fold (in_window start stop).
  rewrite (range_levels_represents fs _ (reverse (alevels t)));
    [done|by apply Forall2_reverse].
Qed.

Lemma refines_init limit fs : refines hash (LSMTree.init limit, fs) (a_init limit).
Proof.
  unfold refines, LSMTree.init, a_init. cbn.
  split_and!; try done; try constructor; try lia.
Qed.

End Refine.

(** * Writes of a tree that stores given record sets *)

Section RefinePut.
Variable hash : string → Z.

(** The last steps of [_compact_level(0)]: build the merged table, then
    remove the files of level 0. *)
Lemma compact0_finish (l0 : list SSTable.t) merged fs1 :
  (∀ j h, l0 !! j = Some h →
     SSTable.filename h = "l0_" +:+ str_of_nat j +:+ ".sst") →
  NoDup (map fst merged) → fits merged = true →
  ∃ sst fs2,
    SSTable._build hash "l1_0.sst" merged fs1 = (Ok sst, fs2) ∧
    represents hash (LSMTree.cleanup_all l0 fs2) sst merged ∧
    SSTable.filename sst = "l1_0.sst".
Proof.
  intros Hnames Hnd Hfits.
  destruct (build_is_Ok hash "l1_0.sst" merged fs1 Hfits) as (sst & content & Hb & Hfn).
  exists sst, (<["l1_0.sst" := content]> fs1). split; [done|].
  destruct (represents_build hash _ _ _ _ _ Hnd Hb) as [Hr _].
  split; [|done].
  eapply represents_other_files; [exact Hr|].
  rewrite cleanup_all_lookup, Hfn. rewrite decide_False; [done|].
  intros Hin. apply list_elem_of_fmap in Hin as (h & Hh & Hin).
  apply list_elem_of_lookup in Hin as [j Hj].
  rewrite (Hnames j h Hj) in Hh. symmetry in Hh. by apply l0_name_ne_l1 in Hh.
Qed.

Lemma refines_compact0 st t t' :
  refines hash st t → a_compact 0 t = Some t' →
  ∃ st', LSMTree._compact_level hash 0 st = (Ok tt, st') ∧ refines hash st' t'.
Proof.
  destruct st as [[mem limit lvls] fs]. destruct t as [am alim alvls].
  intros (Hm & Hlim & Hnd & Hl & Hlen & Hn0 & Hn1) Ha.
  cbn [LSMTree.memtable LSMTree.memtable_limit LSMTree.levels amem alimit alevels] in *.
  subst am alim.
  unfold a_compact in Ha. unfold LSMTree._compact_level.
  cbn [LSMTree.memtable LSMTree.memtable_limit LSMTree.levels amem alimit alevels] in *.
  destruct Hl as [|l0 al0 rest arest H0 Hrest].
  { cbn in Ha |- *. simplify_eq. eexists. split; [done|].
    by split_and!. }
  cbn [lookup list_lookup] in Ha |- *.
  change ((l0 :: rest) !! 0%nat) with (Some l0).
  change ((al0 :: arest) !! 0%nat) with (Some al0) in Ha.
  destruct H0 as [|h d l0' al0' Hh Hl0'].
  { simplify_eq. eexists. split; [done|].
    split_and!; try done. cbn. by constructor. }
  assert (Forall2 (represents hash fs) (h :: l0') (d :: al0')) as H0 by (by constructor).
  rewrite (gather_represents hash fs _ _ [] H0). cbv beta iota.
  set (m0 := a_gather "" "~" [] (d :: al0')) in *.
  assert (NoDup (map fst m0)) as Hnd0 by (apply a_gather_NoDup; constructor).
  clearbody m0.
  specialize (Hn0 (h :: l0') ). 
  assert (∀ j h', (h :: l0') !! j = Some h' →
             SSTable.filename h' = "l0_" +:+ str_of_nat j +:+ ".sst") as Hnames
    by (intros j h' Hj; by apply (Hn0 j h')).
  destruct Hrest as [|l1 al1 rest' arest' H1 Hrest'].
  - (* no level 1 yet *)
    change ((h :: l0') :: []) with [h :: l0'] in *.
    change ([h :: l0'] !! (0 + 1)%nat) with (@None (list SSTable.t)).
    change ([d :: al0'] !! (0 + 1)%nat) with (@None (list dict)) in Ha.
    destruct (fits m0) eqn:Hfits; [|done].
    cbn in Ha. simplify_eq. cbn.
    change (LSMTree.cleanup_all (id []) fs) with fs.
    change (SSTable._build hash _ m0 fs) with (SSTable._build hash "l1_0.sst" m0 fs).
    destruct (compact0_finish (h :: l0') m0 fs Hnames Hnd0 Hfits)
      as (sst & fs2 & -> & Hr & Hfn).
    eexists. split; [done|].
    cbn. split_and!; try done.
    + constructor; [constructor|]. constructor; [|constructor].
      constructor; [exact Hr|constructor].
    + intros l0x j hx Hx. simplify_eq. done.
    + intros l1x hx Hx Hin. simplify_eq. apply list_elem_of_singleton in Hin as ->. done.
  - (* level 1 exists *)
    destruct Hrest' as [|? ? ? ? ? ?]; [|cbn in Hlen; lia].
    change (((h :: l0') :: [l1]) !! (0 + 1)%nat) with (Some l1).
    change (((d :: al0') :: [al1]) !! (0 + 1)%nat) with (Some al1) in Ha.
    cbv beta iota. rewrite (gather_represents hash fs _ _ m0 H1). cbv beta iota.
    set (m1 := a_gather "" "~" m0 al1) in *.
    assert (NoDup (map fst m1)) as Hnd1 by (by apply a_gather_NoDup).
    clearbody m1.
    destruct (fits m1) eqn:Hfits; [|done].
    cbn in Ha. simplify_eq. cbn.
    change (SSTable._build hash _ m1 ?f)
      with (SSTable._build hash "l1_0.sst" m1 (LSMTree.cleanup_all l1 fs)).
    destruct (compact0_finish (h :: l0') m1 (LSMTree.cleanup_all l1 fs) Hnames Hnd1 Hfits)
      as (sst & fs2 & -> & Hr & Hfn).
    eexists. split; [done|].
    cbn. split_and!; try done.
    + constructor; [constructor|]. constructor; [|constructor].
      constructor; [exact Hr|constructor].
    + intros l0x j hx Hx. simplify_eq. done.
    + intros l1x hx Hx Hin. simplify_eq. apply list_elem_of_singleton in Hin as ->. done.
Qed.

(** The handles of a tree keep representing their record sets when a
    new level-0 file is written. *)
Lemma refines_levels_new_l0 lvls alvls fs content n :
  Forall2 (Forall2 (represents hash fs)) lvls alvls →
  (length lvls <= 2)%nat →
  (∀ l0 j h, lvls !! 0%nat = Some l0 → l0 !! j = Some h →
     SSTable.filename h = "l0_" +:+ str_of_nat j +:+ ".sst" ∧ (j < n)%nat) →
  (∀ l1 h, lvls !! 1%nat = Some l1 → h ∈ l1 →
     l1 = [h] ∧ SSTable.filename h = "l1_0.sst") →
  Forall2 (Forall2 (represents hash
    (<["l0_" +:+ str_of_nat n +:+ ".sst" := content]> fs))) lvls alvls.
Proof.
  intros Hl Hlen Hn0 Hn1.
  apply Forall2_same_length_lookup. split; [by eapply Forall2_length|].
  intros i l al Hi Hai.
  pose proof (Forall2_lookup_lr _ _ _ _ _ _ Hl Hi Hai) as Hlal.
  apply Forall2_same_length_lookup. split; [by eapply Forall2_length|].
  intros j h d Hj Hdj.
  pose proof (Forall2_lookup_lr _ _ _ _ _ _ Hlal Hj Hdj) as Hr.
  eapply represents_other_files; [exact Hr|].
  apply lookup_insert_ne.
  destruct i as [|[|i]].
  - destruct (Hn0 l j h Hi Hj) as [-> Hlt]. intros Hc. apply l0_name_inj in Hc. lia.
  - destruct (Hn1 l h Hi) as [_ ->]; [by eapply list_elem_of_lookup_2|].
    apply l0_name_ne_l1.
  - apply lookup_lt_Some in Hi. lia.
Qed.

Lemma refines_flush st t t' :
  refines hash st t → a_flush t = Some t' →
  ∃ st', LSMTree._flush_memtable hash st = (Ok tt, st') ∧ refines hash st' t'.
Proof.
  destruct st as [[mem limit lvls] fs]. destruct t as [am alim alvls].
  intros (Hm & Hlim & Hnd & Hl & Hlen & Hn0 & Hn1) Ha.
  cbn [LSMTree.memtable LSMTree.memtable_limit LSMTree.levels amem alimit alevels] in *.
  subst am alim.
  unfold a_flush in Ha. unfold LSMTree._flush_memtable.
  cbn [LSMTree.memtable LSMTree.memtable_limit LSMTree.levels amem alimit alevels] in *.
  destruct mem as [|kv mem].
  { simplify_eq. eexists. split; [done|]. by split_and!. }
  destruct (fits (kv :: mem)) eqn:Hfits; [|done].
  set (lvls1 := match lvls with [] => [[]] | _ :: _ => lvls end) in *.
  set (alvls1 := match alvls with [] => [[]] | _ :: _ => alvls end) in *.
  set (l0 := default [] (lvls1 !! 0%nat)) in *.
  set (al0 := default [] (alvls1 !! 0%nat)) in *.
  assert (∃ rest arest, lvls1 = l0 :: rest ∧ alvls1 = al0 :: arest ∧
            Forall2 (represents hash fs) l0 al0 ∧
            Forall2 (Forall2 (represents hash fs)) rest arest ∧
            (length rest <= 1)%nat ∧
            (∀ j h, l0 !! j = Some h →
               SSTable.filename h = "l0_" +:+ str_of_nat j +:+ ".sst") ∧
            (∀ l1 h, rest !! 0%nat = Some l1 → h ∈ l1 →
               l1 = [h] ∧ SSTable.filename h = "l1_0.sst"))
    as (rest & arest & E1 & E2 & Hl0 & Hrest & Hlr & Hnm0 & Hnm1).
  { unfold l0, al0, lvls1, alvls1. destruct Hl as [|x ax r ar Hx Hr].
    - exists [], []. cbn. split_and!; try done; try constructor; try lia.
    - exists r, ar. cbn. cbn in Hlen. split_and!; try done; try lia;
        try (intros j h Hj; by apply (Hn0 x j h));
        try (intros l1 h Hl1 Hin; by apply (Hn1 l1 h)). }
  clearbody l0 al0 lvls1 alvls1. subst lvls1 alvls1.
  set (fn := "l0_" +:+ str_of_nat (length l0) +:+ ".sst").
  destruct (build_is_Ok hash fn (kv :: mem) fs Hfits) as (sst & content & Hb & Hfn).
  rewrite Hb.
  destruct (represents_build hash _ _ _ _ _ Hnd Hb) as [Hrs _].
  cbn [insert list_insert] in Ha |- *.
  assert (refines hash
            (LSMTree.mk [] limit ((l0 ++ [sst]) :: rest), <[fn := content]> fs)
            (mk_atree [] limit ((al0 ++ [kv :: mem]) :: arest))) as Hrf.
  { assert (Forall2 (Forall2 (represents hash (<[fn := content]> fs)))
              (l0 :: rest) (al0 :: arest)) as Hall.
    { apply refines_levels_new_l0.
      - by constructor.
      - cbn. lia.
      - intros x j h Hx Hj. cbn in Hx. simplify_eq. split; [by apply Hnm0|].
        by eapply lookup_lt_Some.
      - intros l1 h Hl1 Hin. cbn in Hl1. by apply (Hnm1 l1 h). }
    apply Forall2_cons in Hall as [Hall0 Hallr].
    cbn. split_and!; try done.
    - constructor.
    - constructor; [|done]. apply Forall2_app; [done|]. constructor; [done|constructor].
    - cbn. lia.
    - intros x j h Hx Hj. simplify_eq.
      destruct (decide (j < length l0)%nat) as [Hlt|Hge].
      + rewrite lookup_app_l in Hj by done. by apply Hnm0.
      + rewrite lookup_app_r in Hj by lia.
        destruct (j - length l0)%nat as [|n] eqn:En; [|done].
        cbn in Hj. simplify_eq. rewrite Hfn.
        replace j with (length l0) by lia. done. }
  unfold dict in *.
  assert (length (al0 ++ [kv :: mem]) = length (l0 ++ [sst])) as Hlen'.
  { rewrite !length_app. by rewrite (Forall2_length _ _ _ Hl0). }
  rewrite Hlen' in Ha.
  destruct (2 <? length (l0 ++ [sst]))%nat.
  - by eapply refines_compact0.
  - simplify_eq. eexists. split; [done|]. exact Hrf.
Qed.

Lemma refines_put st t t' key value :
  refines hash st t → a_put key value t = Some t' →
  ∃ st', LSMTree.put hash key value st = (Ok tt, st') ∧ refines hash st' t'.
Proof.
  destruct st as [[mem limit lvls] fs]. destruct t as [am alim alvls].
  intros (Hm & Hlim & Hnd & Hl & Hlen & Hn0 & Hn1) Ha.
  cbn [LSMTree.memtable LSMTree.memtable_limit LSMTree.levels amem alimit alevels] in *.
  subst am alim.
  unfold a_put in Ha. unfold LSMTree.put.
  cbn [LSMTree.memtable LSMTree.memtable_limit LSMTree.levels amem alimit alevels] in *.
  assert (refines hash (LSMTree.mk (dict_set mem key value) limit lvls, fs)
            (mk_atree (dict_set mem key value) limit alvls)) as Hrf.
  { cbn. split_and!; try done. by apply dict_set_NoDup. }
  destruct (limit <=? _).
  - by eapply refines_flush.
  - simplify_eq. eexists. split; [done|]. exact Hrf.
Qed.

(** A run of [put]s that succeeds on the record sets succeeds on the
    tree, and the tree stores the resulting record sets. *)
Lemma refines_run ops st t t' :
  refines hash st t → a_run ops t = Some t' → refines hash (run hash ops st) t'.
Proof.
  revert st t. induction ops as [|[k v] ops IH]; intros st t Hr Ha; cbn [a_run run] in *.
  - by simplify_eq.
  - destruct (a_put k v t) as [t1|] eqn:Ep; [|done].
    destruct (refines_put st t t1 k v Hr Ep) as (st1 & -> & Hr1).
    cbn [snd]. by eapply IH.
Qed.

End RefinePut.

(** * The properties of the specification *)

(** ** Filter soundness *)

(** C9. For every key stored in an SSTable, that is every key added to its
    filter during construction, [might_contain] returns true: the filter
    built by [_build] has no false negative. *)
Theorem filter_soundness (hash : string → Z) fn data fs sst fs' k :
  SSTable._build hash fn data fs = (Ok sst, fs') →
  k ∈ map fst data →
  ∃ bf, SSTable.bloom sst = Some bf ∧
        BloomFilter.might_contain hash bf k = Ok true.
Proof.
  intros Hb Hk. apply build_Ok_inv in Hb as (idx & pre & bf & _ & -> & _ & _ & Hc).
  exists bf. split; [done|]. apply covers_might_contain. by apply Hc.
Qed.

Lemma filter_soundness_witness :
  ∃ sst fs',
    example_build = (Ok sst, fs') ∧
    "a" ∈ map fst example_data ∧
    ∃ bf, SSTable.bloom sst = Some bf ∧
          BloomFilter.might_contain sample_hash bf "a" = Ok true.
Proof.
  unfold example_build.
  destruct (SSTable._build sample_hash "t.sst" example_data ∅) as [[sst|e] fs'] eqn:E.
  - exists sst, fs'. split; [reflexivity|]. split.
    + right. left.
    + exact (filter_soundness sample_hash "t.sst" example_data ∅ sst fs' "a" E
               (list_elem_of_further _ _ _ (list_elem_of_here _ _))).
  - vm_compute in E. discriminate E.
Defined.

(** ** Range scans with an empty window *)

(** C10. In every state the tree can reach, [range(start, end)] with
    [start > end] returns the empty sequence and raises nothing. *)
Theorem range_empty_window (hash : string → Z) st start stop :
  reachable hash st → String.ltb stop start = true →
  LSMTree.range hash start stop st = Ok [].
Proof.
  intros Hr Hlt. apply reachable_ascending in Hr. destruct st as [tr fs].
  unfold LSMTree.range. rewrite (filter_empty_window start stop _ Hlt).
  cbn [dict_update fold_left].
  rewrite (range_levels_empty_window hash [] _ start stop fs); [done| |done].
  unfold indexes_ascending in Hr. cbn [fst] in Hr.
  rewrite reverse_Permutation. exact Hr.
Qed.

Lemma range_empty_window_witness :
  let st := snd (LSMTree.put sample_hash "b" "2"
                   (snd (LSMTree.put sample_hash "a" "1" (LSMTree.init 1, ∅)))) in
  reachable sample_hash st ∧
  String.ltb "a" "b" = true ∧
  LSMTree.range sample_hash "b" "a" st = Ok [].
Proof.
  cbv zeta. split; [|split].
  - apply reach_put, reach_put, reach_init.
  - reflexivity.
  - apply range_empty_window; [|reflexivity].
    apply reach_put, reach_put, reach_init.
Defined.

(** ** Reads after [cleanup] *)

Section AfterCleanup.
Variable hash : string → Z.

(** A key of the index passes the filter and the binary search, so [get]
    goes on to open the file. *)
Lemma get_opens_file fs sst data k v fs2 :
  represents hash fs sst data → (k, v) ∈ data →
  fs2 !! SSTable.filename sst = None →
  SSTable.get hash sst k fs2 = Raise FileNotFoundError.
Proof.
  intros Hr Hin Hnone.
  destruct (represents_inv _ _ _ _ Hr)
    as (idx & pre & bf & body & idata & sz & Hsst & Hfs & Hg & Hc & Hbody & Hidx & Hpre & Hkeys & Hsa).
  assert (k ∈ map fst data) as Hk.
  { apply list_elem_of_fmap. by exists (k, v). }
  rewrite <- (py_sorted_perm key_ltb data) in Hin.
  apply list_elem_of_lookup in Hin as [i Hi].
  destruct (records_lookup _ _ 0 _ _ _ Hbody Hi) as (p0 & rb & rest & Hsplit & Hrb & Hoff).
  assert (map fst idx !! i = Some k) as Hki.
  { rewrite Hkeys, list_lookup_fmap, Hi. done. }
  assert (idx !! i = Some (k, 0 + blen p0)) as Hii.
  { rewrite Hidx. apply lookup_zip_with_Some. exists k, (0 + blen p0).
    split_and!; [done| |done]. by rewrite list_lookup_fmap, Hi. }
  unfold SSTable.get. rewrite Hsst. cbn [SSTable.bloom SSTable.index SSTable.filename].
  rewrite (covers_might_contain hash bf k (Hc k Hk)).
  cbn [mbind result_bind negb].
  rewrite (bisect_left_found _ i k Hsa Hki).
  pose proof (lookup_lt_Some _ _ _ Hki) as Hlt.
  replace (length (map fst idx) <=? i)%nat with false
    by (symmetry; apply Nat.leb_gt; done).
  rewrite (nth_lookup_Some _ _ EmptyString _ Hki), String.eqb_refl.
  cbn [orb negb]. rewrite Hii, Hnone. done.
Qed.
End AfterCleanup.

(** C6. After [cleanup] has deleted the file of a table, [size_bytes]
    answers 0, but [get] of a key the table was built with does not answer
    absent: it raises [FileNotFoundError]. *)
Theorem get_after_cleanup (hash : string → Z) fn data fs sst fs' k v :
  SSTable._build hash fn data fs = (Ok sst, fs') →
  NoDup (map fst data) → (k, v) ∈ data →
  let fs_after := SSTable.cleanup sst fs' in
  SSTable.size_bytes sst fs_after = 0 ∧
  SSTable.get hash sst k fs' = Ok (Some v) ∧
  SSTable.get hash sst k fs_after = Raise FileNotFoundError.
Proof.
  intros Hb Hnd Hin. cbv zeta.
  destruct (represents_build hash _ _ _ _ _ Hnd Hb) as [Hr _].
  assert (SSTable.cleanup sst fs' !! SSTable.filename sst = None) as Hnone
    by apply lookup_delete_eq.
  split_and!.
  - unfold SSTable.size_bytes. by rewrite Hnone.
  - by apply (get_represents_in hash fs' sst data).
  - by apply (get_opens_file hash fs' sst data k v).
Qed.

Lemma get_after_cleanup_witness :
  ∃ sst fs',
    example_build = (Ok sst, fs') ∧
    NoDup (map fst example_data) ∧ ("a", "1") ∈ example_data ∧
    SSTable.size_bytes sst (SSTable.cleanup sst fs') = 0 ∧
    SSTable.get sample_hash sst "a" fs' = Ok (Some "1") ∧
    SSTable.get sample_hash sst "a" (SSTable.cleanup sst fs') = Raise FileNotFoundError.
Proof.
  unfold example_build.
  destruct (SSTable._build sample_hash "t.sst" example_data ∅) as [[sst|e] fs'] eqn:E.
  - exists sst, fs'. split; [reflexivity|].
    assert (NoDup (map fst example_data)) as Hnd.
    { unfold example_data. cbn [map fst]. apply NoDup_cons. split; [|apply NoDup_singleton].
      intros Hc. apply list_elem_of_singleton in Hc. discriminate Hc. }
    assert (("a", "1") ∈ example_data) as Hin by (right; left).
    split; [exact Hnd|]. split; [exact Hin|].
    exact (get_after_cleanup sample_hash "t.sst" example_data ∅ sst fs' "a" "1" E Hnd Hin).
  - vm_compute in E. discriminate E.
Defined.

(** ** Reopening a table *)

Section Reopen.
Variable hash : string → Z.

Lemma set_bit_other bs pos bs' j :
  BloomFilter.set_bit bs pos = Ok bs' → 0 <= pos →
  j ≠ Z.to_nat (pos / 8) → bs' !! j = bs !! j.
Proof.
  intros H Hpos Hj. apply set_bit_Ok in H as (b & b' & Hg & _ & Hs).
  apply py_setitem_Ok in Hs as [Hr ->]. unfold norm_index in *.
  assert (0 <= pos / 8) as Hd by (apply Z.div_pos; lia).
  replace (pos / 8 <? 0) with false in * by (symmetry; apply Z.ltb_ge; lia).
  by apply list_lookup_insert_ne.
Qed.

Lemma add_loop_other bf key seeds bf' j :
  BloomFilter.add_loop hash bf key seeds = Ok bf' →
  0 < BloomFilter.size bf →
  (∀ i, i ∈ seeds →
     j ≠ Z.to_nat ((hash (key +:+ str_of_nat i) mod BloomFilter.size bf) / 8)) →
  BloomFilter.bits bf' !! j = BloomFilter.bits bf !! j.
Proof.
  revert bf. induction seeds as [|i seeds IH]; intros bf H Hs Hj;
    cbn [BloomFilter.add_loop] in H; [by simplify_eq|].
  apply bind_Ok in H as (pos & Hpos & H). apply bind_Ok in H as (bs & Hbs & H).
  unfold BloomFilter._hash in Hpos.
  replace (BloomFilter.size bf =? 0) with false in Hpos
    by (symmetry; apply Z.eqb_neq; lia).
  simplify_eq.
  apply IH in H; cbn [BloomFilter.size BloomFilter.bits] in *; [|done|].
  - rewrite H. eapply set_bit_other; [exact Hbs| |].
    + apply Z.mod_pos_bound. lia.
    + apply Hj. by left.
  - intros i' Hi'. apply Hj. by right.
Qed.

(** Keys whose hash positions all lie below bit 8160 leave the last four
    bytes of the filter untouched. *)
Lemma write_records_tail bf written offsets recs bf' offsets' written' j :
  SSTable.write_records hash bf written offsets recs = (Ok (bf', offsets'), written') →
  default_geometry bf →
  (∀ k i, k ∈ map fst recs → (i < 4)%nat →
     hash (k +:+ str_of_nat i) mod 8192 < 8160) →
  (1020 <= j)%nat →
  BloomFilter.bits bf' !! j = BloomFilter.bits bf !! j.
Proof.
  revert bf written offsets. induction recs as [|[key value] recs IH];
    intros bf written offsets H G Hlow Hj; cbn [SSTable.write_records] in H.
  - by simplify_eq.
  - destruct (BloomFilter.add hash bf key) as [bf1|] eqn:Eadd; [|done].
    destruct (SSTable.encode_record key value) as [rb|] eqn:Erec; [|done].
    apply IH in H; [|by eapply add_geometry| |done].
    2:{ intros k i Hk Hi. apply Hlow; [by right|done]. }
    rewrite H. destruct G as (G1 & G2 & G3).
    unfold BloomFilter.add in Eadd. rewrite G2 in Eadd.
    eapply add_loop_other; [exact Eadd|lia|].
    intros i Hi. apply elem_of_seq in Hi. rewrite G1.
    assert (hash (key +:+ str_of_nat i) mod 8192 < 8160) as Hlt.
    { apply Hlow; [by left|]. change (Z.to_nat 4) with 4%nat in Hi. lia. }
    pose proof (Z.mod_pos_bound (hash (key +:+ str_of_nat i)) 8192 ltac:(lia)) as Hp.
    assert (hash (key +:+ str_of_nat i) mod 8192 / 8 < 1020)
      by (apply Z.div_lt_upper_bound; lia).
    assert (0 <= hash (key +:+ str_of_nat i) mod 8192 / 8) by (apply Z.div_pos; lia).
    lia.
Qed.

Lemma build_bits_tail fn data fs sst fs' :
  SSTable._build hash fn data fs = (Ok sst, fs') →
  (∀ k i, k ∈ map fst data → (i < 4)%nat →
     hash (k +:+ str_of_nat i) mod 8192 < 8160) →
  ∃ bf, SSTable.bloom sst = Some bf ∧
        ∀ j, (1020 <= j < 1024)%nat → BloomFilter.bits bf !! j = Some x00.
Proof.
  unfold SSTable._build. fold key_ltb. intros H Hlow.
  destruct (SSTable.write_records _ _ _ _ _) as [[[bf offsets]|e] written] eqn:Ew; [|done].
  destruct (SSTable.index_data _) as [idata|]; [|done].
  destruct (pack_I (blen idata)) as [sz|]; [|done].
  destruct (BloomFilter.serialize bf) as [ser|]; [|done].
  simplify_eq. exists bf. split; [done|]. intros j Hj.
  rewrite (write_records_tail _ _ _ _ _ _ _ j Ew default_geometry_default); [| |lia].
  - apply lookup_replicate. split; [done|]. change (Z.to_nat ((8192 + 7) / 8)) with 1024%nat. lia.
  - intros k i Hk Hi. apply Hlow; [|done].
    by rewrite <- (Permutation_map fst (py_sorted_perm key_ltb data)).
Qed.

(** [_load] reads the index size from the last four bytes of the file;
    when they are zero it finds no index entry and no filter. *)
Lemma load_zero_tail fn fs pre :
  fs !! fn = Some (pre ++ [x00; x00; x00; x00]) →
  SSTable._load fn fs = Ok (SSTable.mk fn [] None).
Proof.
  intros Hfs. unfold SSTable._load. rewrite Hfs.
  set (zeros := [x00; x00; x00; x00]).
  assert (blen (pre ++ zeros) = blen pre + 4) as Hlen by (by rewrite blen_app).
  pose proof (blen_nonneg pre) as Hp.
  assert (f_read (pre ++ zeros) (blen pre) 4 = (zeros, blen pre + 4)) as Hread.
  { rewrite <- (app_nil_r zeros) at 1. by apply f_read_app. }
  unfold f_seek_end. rewrite Hlen.
  replace (blen pre + 4 + -4) with (blen pre) by lia.
  replace (blen pre <? 0) with false by (symmetry; apply Z.ltb_ge; lia).
  cbn [mbind result_bind]. rewrite Hread. cbn [fst].
  change (unpack_I zeros) with (Ok 0 : result Z). cbn [mbind result_bind].
  replace (blen pre + 4 + (-4 - 0)) with (blen pre) by lia.
  replace (blen pre <? 0) with false by (symmetry; apply Z.ltb_ge; lia).
  cbn [mbind result_bind]. rewrite Hread.
  change (unpack_I zeros) with (Ok 0 : result Z).
  cbn [mbind result_bind]. change (Z.to_nat 0) with 0%nat.
  cbn [mbind result_bind SSTable.load_entries].
  unfold f_read_all. rewrite drop_ge.
  2:{ unfold blen in *. lia. }
  done.
Qed.
End Reopen.

(** C8. Reopening a table does not give back its records.  [_build] puts
    the serialized filter after the index size, and [_load] takes the last
    four bytes of the file for the index size: when no key of the table
    hashes into the last 32 bits of the filter, the reopened handle has an
    empty index and no filter, and every range scan on it is empty. *)
Theorem reopen_loses_records (hash : string → Z) fn data fs sst fs' :
  SSTable._build hash fn data fs = (Ok sst, fs') →
  (∀ k i, k ∈ map fst data → (i < 4)%nat →
     hash (k +:+ str_of_nat i) mod 8192 < 8160) →
  SSTable._load fn fs' = Ok (SSTable.mk fn [] None) ∧
  (∀ start stop,
     SSTable.range hash (SSTable.mk fn [] None) start stop fs' = Ok []) ∧
  (∀ k, SSTable.get hash (SSTable.mk fn [] None) k fs' = Ok None).
Proof.
  intros Hb Hlow. split; [|by split].
  destruct (build_bits_tail hash _ _ _ _ _ Hb Hlow) as (bf & Hbf & Htail).
  apply build_Ok_inv in Hb as (idx & pre & bf' & _ & -> & -> & (_ & _ & G3) & _).
  cbn [SSTable.bloom] in Hbf. simplify_eq.
  set (bits := BloomFilter.bits bf) in *.
  assert (bits = take 1020 bits ++ [x00; x00; x00; x00]) as Hbits.
  { rewrite <- (take_drop 1020 bits) at 1. f_equal.
    assert (length (drop 1020 bits) = 4%nat) as Hl by (rewrite length_drop; lia).
    assert (∀ j, (j < 4)%nat → drop 1020 bits !! j = Some x00) as Hd.
    { intros j Hj. rewrite lookup_drop. apply Htail. lia. }
    destruct (drop 1020 bits) as [|b0 [|b1 [|b2 [|b3 [|]]]]]; try done.
    pose proof (Hd 0%nat ltac:(lia)) as H0. pose proof (Hd 1%nat ltac:(lia)) as H1.
    pose proof (Hd 2%nat ltac:(lia)) as H2. pose proof (Hd 3%nat ltac:(lia)) as H3.
    cbn in H0, H1, H2, H3. by simplify_eq. }
  apply (load_zero_tail fn _ (pre ++ le_encode 4 8192 ++ le_encode 4 4 ++ take 1020 bits)).
  rewrite lookup_insert_eq. f_equal. rewrite Hbits at 1. by rewrite <- !app_assoc.
Qed.

Lemma reopen_loses_records_witness :
  ∃ sst fs',
    example_build = (Ok sst, fs') ∧
    (∀ k i, k ∈ map fst example_data → (i < 4)%nat →
       sample_hash (k +:+ str_of_nat i) mod 8192 < 8160) ∧
    SSTable._load "t.sst" fs' = Ok (SSTable.mk "t.sst" [] None) ∧
    (∀ start stop,
       SSTable.range sample_hash (SSTable.mk "t.sst" [] None) start stop fs' = Ok []) ∧
    (∀ k, SSTable.get sample_hash (SSTable.mk "t.sst" [] None) k fs' = Ok None).
Proof.
  assert (∀ k i, k ∈ map fst example_data → (i < 4)%nat →
            sample_hash (k +:+ str_of_nat i) mod 8192 < 8160) as Hlow.
  { intros k i Hk Hi. unfold example_data in Hk. cbn [map fst] in Hk.
    apply elem_of_cons in Hk as [->|Hk];
      [|apply list_elem_of_singleton in Hk as ->];
      destruct i as [|[|[|[|i]]]]; try lia; vm_compute; reflexivity. }
  unfold example_build.
  destruct (SSTable._build sample_hash "t.sst" example_data ∅) as [[sst|e] fs'] eqn:E.
  - exists sst, fs'. split; [reflexivity|]. split; [exact Hlow|].
    exact (reopen_loses_records sample_hash "t.sst" example_data ∅ sst fs' E Hlow).
  - vm_compute in E. discriminate E.
Defined.

(** ** The length limit of keys and values *)

Lemma str_double_length n s :
  Z.of_nat (String.length (str_double n s)) = 2 ^ Z.of_nat n * Z.of_nat (String.length s).
Proof.
  revert s. induction n as [|n IH]; intros s.
  - cbn [str_double]. change (Z.of_nat 0) with 0. lia.
  - cbn [str_double]. rewrite IH, string_length_append.
    rewrite Nat2Z.inj_succ, Z.pow_succ_r by lia. lia.
Qed.

Lemma big_key_length : blen (encode big_key) = 2 ^ 32.
Proof.
  unfold blen. rewrite length_encode. unfold big_key.
  rewrite str_double_length. change (Z.of_nat 32) with 32.
  change (Z.of_nat (String.length "a")) with 1. lia.
Qed.

Section Limit.
Variable hash : string → Z.

(** A [put] that leaves the memtable below its limit only stores the
    record. *)
Lemma put_no_flush key value tr fs :
  Z.of_nat (length (dict_set (LSMTree.memtable tr) key value)) < LSMTree.memtable_limit tr →
  LSMTree.put hash key value (tr, fs)
  = (Ok tt, (LSMTree.mk (dict_set (LSMTree.memtable tr) key value)
               (LSMTree.memtable_limit tr) (LSMTree.levels tr), fs)).
Proof.
  intros H. unfold LSMTree.put. cbn [LSMTree.memtable].
  replace (_ <=? _) with false by (symmetry; apply Z.leb_gt; exact H). done.
Qed.

(** [_build] refuses a record set with an oversized key or value. *)
Lemma build_oversized fn data fs k v :
  (k, v) ∈ data →
  2 ^ 32 <= blen (encode k) ∨ 2 ^ 32 <= blen (encode v) →
  ∃ fs', SSTable._build hash fn data fs = (Raise StructError, fs').
Proof.
  intros Hin Hbig.
  destruct (SSTable._build hash fn data fs) as [[sst|e] fs'] eqn:Eb.
  - exfalso. apply build_Ok_inv in Eb as (idx & pre & bf & Hl & _).
    apply build_layout_Ok_inv in Hl as (body & idata & sz & Hbody & _).
    rewrite <- (py_sorted_perm key_ltb data) in Hin.
    apply list_elem_of_lookup in Hin as [i Hi].
    destruct (records_lookup _ _ 0 _ _ _ Hbody Hi) as (p0 & rb & rest & _ & Hrb & _).
    apply encode_record_Ok in Hrb as (H1 & H2 & _). lia.
  - apply build_Raise in Eb as [-> _]. eauto.
Qed.

Lemma dict_set_in d k v : (k, v) ∈ dict_set d k v.
Proof.
  induction d as [|[k' v'] d IH]; cbn [dict_set]; [by left|].
  destruct (String.eqb k' k); [by left|by right].
Qed.

Lemma dict_set_nonempty d k v : dict_set d k v ≠ [].
Proof. destruct d as [|[k' v'] d]; cbn [dict_set]; [done|]. by destruct (String.eqb k' k). Qed.
End Limit.

(** C7, as the code has it.  [put] checks no length.  A key or value of
    more than [2 ^ 32 - 1] bytes is stored in the memtable and [put]
    returns normally as long as the memtable stays below its limit; when the
    [put] triggers a flush, [_build] raises [struct.error] before a table is
    added to any level, and the record stays in the memtable.  A record
    whose key and value are within the limit is always encoded. *)
Theorem put_length_limit (hash : string → Z) key value tr fs :
  let mem' := dict_set (LSMTree.memtable tr) key value in
  (Z.of_nat (length mem') < LSMTree.memtable_limit tr →
     LSMTree.put hash key value (tr, fs)
     = (Ok tt, (LSMTree.mk mem' (LSMTree.memtable_limit tr) (LSMTree.levels tr), fs))) ∧
  (LSMTree.memtable_limit tr <= Z.of_nat (length mem') →
   2 ^ 32 <= blen (encode key) ∨ 2 ^ 32 <= blen (encode value) →
     ∃ fs',
       LSMTree.put hash key value (tr, fs)
       = (Raise StructError,
          (LSMTree.mk mem' (LSMTree.memtable_limit tr)
             (match LSMTree.levels tr with [] => [[]] | _ :: _ => LSMTree.levels tr end),
           fs'))) ∧
  (blen (encode key) < 2 ^ 32 → blen (encode value) < 2 ^ 32 →
     is_ok (SSTable.encode_record key value) = true).
Proof.
  cbv zeta. split_and!.
  - apply put_no_flush.
  - intros Hlim Hbig. unfold LSMTree.put. cbn [LSMTree.memtable LSMTree.memtable_limit LSMTree.levels].
    replace (_ <=? _) with true by (symmetry; apply Z.leb_le; exact Hlim).
    unfold LSMTree._flush_memtable.
    cbn [LSMTree.memtable LSMTree.memtable_limit LSMTree.levels].
    pose proof (dict_set_nonempty (LSMTree.memtable tr) key value) as Hne.
    pose proof (dict_set_in (LSMTree.memtable tr) key value) as Hin.
    destruct (dict_set (LSMTree.memtable tr) key value) as [|kv mem] eqn:Em; [done|].
    match goal with |- context [SSTable._build hash ?fn _ fs] =>
      destruct (build_oversized hash fn (kv :: mem) fs key value Hin Hbig) as [fs' ->] end.
    by exists fs'.
  - intros Hk Hv.
    destruct (SSTable.encode_record key value) as [rb|e] eqn:E; [done|].
    apply encode_record_Raise in E as [_ ?]. lia.
Qed.

(** An oversized key, put into a tree whose memtable limit is 1: the flush
    raises [struct.error]. *)
Lemma put_length_limit_witness :
  1 <= Z.of_nat (length (dict_set [] big_key "v")) ∧
  (2 ^ 32 <= blen (encode big_key) ∨ 2 ^ 32 <= blen (encode "v")) ∧
  ∃ fs',
    LSMTree.put sample_hash big_key "v" (LSMTree.init 1, ∅)
    = (Raise StructError, (LSMTree.mk [(big_key, "v")] 1 [[]], fs')).
Proof.
  assert (1 <= Z.of_nat (length (dict_set [] big_key "v"))) as H1
    by (cbn [dict_set length]; lia).
  assert (2 ^ 32 <= blen (encode big_key) ∨ 2 ^ 32 <= blen (encode "v")) as H2
    by (left; rewrite big_key_length; lia).
  split; [exact H1|]. split; [exact H2|].
  exact (proj1 (proj2 (put_length_limit sample_hash big_key "v" (LSMTree.init 1) ∅)) H1 H2).
Defined.

(** C7, as stated, fails: [put] accepts a key of [2 ^ 32] bytes and returns
    normally. *)
Lemma put_accepts_oversized_key :
  2 ^ 32 - 1 < blen (encode big_key) ∧
  LSMTree.put sample_hash big_key "v" (LSMTree.init 100, ∅)
  = (Ok tt, (LSMTree.mk [(big_key, "v")] 100 [], ∅)).
Proof.
  split.
  - rewrite big_key_length. lia.
  - apply (put_no_flush sample_hash big_key "v" (LSMTree.init 100) ∅).
    cbn [LSMTree.init LSMTree.memtable LSMTree.memtable_limit dict_set length]. lia.
Qed.

(** ** Runs of the tree *)

(** [run_refines hash fs limit ops t Hr]: evaluates the run [ops] on record
    sets and transfers the result to the tree started in the directory
    [fs]. *)
Ltac run_refines hash fs limit ops t Hr :=
  let E := fresh "E" in
  destruct (a_run ops (a_init limit)) as [t|] eqn:E;
  [|vm_compute in E; discriminate E];
  pose proof (refines_run hash ops (LSMTree.init limit, fs) (a_init limit) t
                (refines_init hash limit fs) E) as Hr;
  vm_compute in E; injection E as E; subst t.

(** The levels of a tree that stores the record sets [alvls]. *)
Ltac levels_of Hr :=
  let Hl := fresh "Hl" in
  destruct Hr as (_ & _ & _ & Hl & _); cbn [alevels] in Hl;
  repeat match goal with
  | H : Forall2 _ _ (_ :: _) |- _ =>
      let x := fresh "sst" in let l := fresh "l" in
      let Hx := fresh "Hx" in let Hr' := fresh "Hrest" in let El := fresh "El" in
      apply Forall2_cons_inv_r in H as (x & l & Hx & Hr' & El)
  | H : Forall2 _ _ [] |- _ => apply Forall2_nil_inv_r in H
  end.

(** C2. Overwrite semantics fail on the tree.  In the scenario of the
    specification (limit 2: a=1, b=2, c=3, a=4, d=5) [get("a")] answers the
    first value: level 0 is searched oldest table first.  After a=1, b=2,
    a=4 with limit 2, [range("a", "a")] answers the first value as well:
    the records of the tables overwrite those of the memtable. *)
Theorem overwrite_returns_old_value (hash : string → Z) (fs : files) :
  LSMTree.get hash "a" (run hash scenario_b (LSMTree.init 2, fs)) = Ok (Some "1") ∧
  LSMTree.get hash "a" (run hash overwrite_in_memtable (LSMTree.init 2, fs))
    = Ok (Some "4") ∧
  LSMTree.range hash "a" "a" (run hash overwrite_in_memtable (LSMTree.init 2, fs))
    = Ok [("a", "1")].
Proof.
  split_and!.
  - run_refines hash fs 2 scenario_b t Hr.
    rewrite (refines_get hash _ _ "a" Hr). vm_compute. reflexivity.
  - run_refines hash fs 2 overwrite_in_memtable t Hr.
    rewrite (refines_get hash _ _ "a" Hr). vm_compute. reflexivity.
  - run_refines hash fs 2 overwrite_in_memtable t Hr.
    rewrite (refines_range hash _ _ "a" "a" Hr). vm_compute. reflexivity.
Qed.

(** C4. [get] scans level 0 in insertion order.  After x=old, x=new with a
    memtable limit of 1, level 0 holds two tables, the first with x=old and
    the second with x=new, and [get("x")] answers old. *)
Theorem get_scans_level0_oldest_first (hash : string → Z) (fs : files) :
  let st := run hash overwrite_twice (LSMTree.init 1, fs) in
  ∃ t0 t1,
    LSMTree.levels (fst st) = [[t0; t1]] ∧
    SSTable.get hash t0 "x" (snd st) = Ok (Some "old") ∧
    SSTable.get hash t1 "x" (snd st) = Ok (Some "new") ∧
    LSMTree.get hash "x" st = Ok (Some "old").
Proof.
  cbv zeta. run_refines hash fs 1 overwrite_twice t Hr.
  pose proof (refines_get hash _ _ "x" Hr) as Hget.
  destruct (run hash overwrite_twice (LSMTree.init 1, fs)) as [tr fs'].
  cbn [fst snd]. levels_of Hr. subst. eexists _, _. split; [eassumption|].
  split_and!.
  - erewrite get_represents by eassumption. reflexivity.
  - erewrite get_represents by eassumption. reflexivity.
  - rewrite Hget. vm_compute. reflexivity.
Qed.

(** C1. Compaction lets the older level win.  With a memtable limit of 1,
    after x=old, y=1, z=2, x=new, a=1 level 0 holds x=new and level 1 holds
    x=old; the next [put] compacts level 0 into level 1, and the table it
    writes holds x=old. *)
Theorem compaction_keeps_older_level (hash : string → Z) (fs : files) :
  let st := run hash overwrite_across_levels (LSMTree.init 1, fs) in
  let st' := snd (LSMTree.put hash "b" "2" st) in
  (∃ t0 t1 u,
     LSMTree.levels (fst st) = [[t0; t1]; [u]] ∧
     SSTable.get hash t0 "x" (snd st) = Ok (Some "new") ∧
     SSTable.get hash u "x" (snd st) = Ok (Some "old")) ∧
  (∃ sst,
     LSMTree.levels (fst st') = [[]; [sst]] ∧
     SSTable.range hash sst "" "~" (snd st')
     = Ok [("a", "1"); ("b", "2"); ("x", "old"); ("y", "1"); ("z", "2")]).
Proof.
  cbv zeta. run_refines hash fs 1 overwrite_across_levels t Hr.
  destruct (a_put "b" "2"
              (mk_atree [] 1 [[[("x", "new")]; [("a", "1")]];
                              [[("x", "old"); ("y", "1"); ("z", "2")]]]))
    as [t'|] eqn:Ep; [|vm_compute in Ep; discriminate Ep].
  destruct (refines_put hash _ _ t' "b" "2" Hr Ep) as (st' & Hput & Hr').
  rewrite Hput. cbn [snd]. vm_compute in Ep. injection Ep as Ep. subst t'.
  destruct (run hash overwrite_across_levels (LSMTree.init 1, fs)) as [tr fs1].
  destruct st' as [tr' fs2]. cbn [fst snd]. split.
  - levels_of Hr. subst. eexists _, _, _. split; [eassumption|]. split.
    + erewrite get_represents by eassumption. reflexivity.
    + erewrite get_represents by eassumption. reflexivity.
  - levels_of Hr'. subst. eexists. split; [eassumption|].
    erewrite range_represents by eassumption. vm_compute. reflexivity.
Qed.

(** C3. A key put once can be lost.  With a memtable limit of 1, the key
    [~~] is readable after its [put] and after the next one; the third
    [put] compacts level 0, which gathers the records with
    [range("", "~")], and [get] then answers absent. *)
Theorem key_put_once_is_lost (hash : string → Z) (fs : files) :
  LSMTree.get hash "~~" (run hash high_key_two (LSMTree.init 1, fs)) = Ok (Some "v") ∧
  LSMTree.get hash "~~" (run hash high_key_three (LSMTree.init 1, fs)) = Ok None.
Proof.
  split.
  - run_refines hash fs 1 high_key_two t Hr.
    rewrite (refines_get hash _ _ "~~" Hr). vm_compute. reflexivity.
  - run_refines hash fs 1 high_key_three t Hr.
    rewrite (refines_get hash _ _ "~~" Hr). vm_compute. reflexivity.
Qed.

(** C5. Compaction does not conserve the keys.  Before the compaction the
    key [~~] is in a table of level 0; the table written at level 1 does
    not hold it, and no table of level 0 is left. *)
Theorem compaction_drops_high_keys (hash : string → Z) (fs : files) :
  let st := run hash high_key_two (LSMTree.init 1, fs) in
  let st' := run hash high_key_three (LSMTree.init 1, fs) in
  (∃ t0 t1,
     LSMTree.levels (fst st) = [[t0; t1]] ∧
     SSTable.get hash t0 "~~" (snd st) = Ok (Some "v")) ∧
  (∃ sst,
     LSMTree.levels (fst st') = [[]; [sst]] ∧
     SSTable.get hash sst "~~" (snd st') = Ok None ∧
     SSTable.range hash sst "" "~~~" (snd st') = Ok [("y", "1"); ("z", "2")]).
Proof.
  cbv zeta. split.
  - run_refines hash fs 1 high_key_two t Hr.
    destruct (run hash high_key_two (LSMTree.init 1, fs)) as [tr fs1].
    cbn [fst snd]. levels_of Hr. subst. eexists _, _. split; [eassumption|].
    erewrite get_represents by eassumption. reflexivity.
  - run_refines hash fs 1 high_key_three t Hr.
    destruct (run hash high_key_three (LSMTree.init 1, fs)) as [tr fs1].
    cbn [fst snd]. levels_of Hr. subst. eexists. split; [eassumption|]. split.
    + erewrite get_represents by eassumption. reflexivity.
    + erewrite range_represents by eassumption. vm_compute. reflexivity.
Qed.

(** * Further properties of the Bloom filter *)

Section FilterMore.
Variable hash : string → Z.

Lemma might_contain_loop_true_inv bf key seeds :
BloomFilter.might_contain_loop hash bf key seeds = Ok true →
∀ i, i ∈ seeds →
  ∃ pos, BloomFilter._hash hash bf key i = Ok pos ∧
         bit_is_set (BloomFilter.bits bf) pos.
Proof.
induction seeds as [|s seeds IH]; intros H i Hi.
- by apply elem_of_nil in Hi.
- cbn [BloomFilter.might_contain_loop] in H.
  apply bind_Ok in H as (pos & Hpos & H).
  apply bind_Ok in H as (w & Hw & H).
  destruct (w =? 0) eqn:Ew; [discriminate H|].
  apply elem_of_cons in Hi as [->|Hi].
  + exists pos. split; [done|]. exists w. split; [done|]. by apply Z.eqb_neq.
  + by apply IH.
Qed.

Lemma might_contain_covers bf key :
BloomFilter.might_contain hash bf key = Ok true → covers hash bf key.
Proof.
intros H i Hi. apply (might_contain_loop_true_inv _ _ _ H).
apply elem_of_seq. lia.
Qed.

End FilterMore.

(** X1. A filter that was serialized is read back as it was: [deserialize]
    undoes [serialize], and the serialized form is 8 bytes longer than the
    bit array. *)
Theorem serialize_deserialize bf ser :
  BloomFilter.serialize bf = Ok ser →
  BloomFilter.deserialize ser = Ok bf ∧
  blen ser = 8 + blen (BloomFilter.bits bf).
Proof.
  intros H. unfold BloomFilter.serialize in H.
  apply bind_Ok in H as (a & Ha & H). apply bind_Ok in H as (b & Hb & H).
  apply pack_I_Ok in Ha as [Hs ->]. apply pack_I_Ok in Hb as [Hn ->].
  assert (ser = le_encode 4 (BloomFilter.size bf)
                ++ le_encode 4 (BloomFilter.num_hashes bf) ++ BloomFilter.bits bf) as ->
    by (injection H as H; symmetry; exact H).
  clear H. split.
  - unfold BloomFilter.deserialize.
    rewrite (app_assoc (le_encode 4 _)).
    rewrite !take_app_length' by (rewrite ?length_app, !length_le_encode; done).
    rewrite !drop_app_length' by (rewrite ?length_app, !length_le_encode; done).
    rewrite length_app, !length_le_encode. cbn [Nat.add Nat.eqb].
    rewrite ?take_app_length' by (by rewrite length_le_encode).
    rewrite ?drop_app_length' by (by rewrite length_le_encode).
    rewrite !le_decode_encode.
    change (256 ^ Z.of_nat 4) with (2 ^ 32).
    rewrite !Z.mod_small by done. by destruct bf.
  - rewrite !blen_app, !blen_le_encode. lia.
Qed.

Lemma serialize_deserialize_witness :
  BloomFilter.serialize BloomFilter.default
    = Ok (le_encode 4 8192 ++ le_encode 4 4 ++ BloomFilter.bits BloomFilter.default) ∧
  BloomFilter.deserialize
    (le_encode 4 8192 ++ le_encode 4 4 ++ BloomFilter.bits BloomFilter.default)
    = Ok BloomFilter.default ∧
  blen (le_encode 4 8192 ++ le_encode 4 4 ++ BloomFilter.bits BloomFilter.default)
    = 8 + blen (BloomFilter.bits BloomFilter.default).
Proof.
  assert (BloomFilter.serialize BloomFilter.default
          = Ok (le_encode 4 8192 ++ le_encode 4 4 ++ BloomFilter.bits BloomFilter.default))
    as H by reflexivity.
  split; [exact H|]. exact (serialize_deserialize _ _ H).
Defined.

(** X2. A new filter holds no key: [might_contain] answers [False] for
    every key, whatever the hash function. *)
Theorem new_filter_is_empty (hash : string → Z) size num_hashes key :
  0 < size → 0 < num_hashes →
  BloomFilter.might_contain hash (BloomFilter.init size num_hashes) key = Ok false.
Proof.
  intros Hs Hn. unfold BloomFilter.might_contain, BloomFilter.init.
  cbn [BloomFilter.num_hashes].
  destruct (Z.to_nat num_hashes) as [|n] eqn:En; [lia|].
  cbn [seq BloomFilter.might_contain_loop].
  unfold BloomFilter._hash. cbn [BloomFilter.size BloomFilter.bits].
  replace (size =? 0) with false by (symmetry; apply Z.eqb_neq; lia).
  cbn [mbind result_bind].
  set (pos := hash (key +:+ str_of_nat 0) mod size).
  assert (0 <= pos < size) as Hpos by (apply Z.mod_pos_bound; lia).
  unfold BloomFilter.test_bit.
  assert (0 <= pos / 8 < (size + 7) / 8) as Hq.
  { split; [apply Z.div_pos; lia|].
    apply Z.div_lt_upper_bound; [lia|].
    pose proof (Z.mul_div_le (size + 7) 8 ltac:(lia)).
    pose proof (Z.mod_pos_bound (size + 7) 8 ltac:(lia)).
    pose proof (Z.div_mod (size + 7) 8 ltac:(lia)). lia. }
  assert (py_getitem (replicate (Z.to_nat ((size + 7) / 8)) x00) (pos / 8) = Ok x00) as ->.
  { apply py_getitem_Ok. rewrite length_replicate. unfold norm_index.
    replace (pos / 8 <? 0) with false by (symmetry; apply Z.ltb_ge; lia).
    split; [lia|]. apply lookup_replicate. split; [done|]. lia. }
  cbn [mbind result_bind]. reflexivity.
Qed.

Lemma new_filter_is_empty_witness :
  0 < 8192 ∧ 0 < 4 ∧
  BloomFilter.might_contain sample_hash (BloomFilter.init 8192 4) "a" = Ok false.
Proof.
  split; [lia|]. split; [lia|].
  apply (new_filter_is_empty sample_hash 8192 4 "a"); lia.
Defined.

(** X3. [add] only sets bits: after [add(key)] the filter answers [True]
    for [key], and every key it answered [True] for before is still
    answered [True]. *)
Theorem add_keeps_positive (hash : string → Z) bf key bf' :
  BloomFilter.add hash bf key = Ok bf' →
  BloomFilter.might_contain hash bf' key = Ok true ∧
  ∀ k, BloomFilter.might_contain hash bf k = Ok true →
       BloomFilter.might_contain hash bf' k = Ok true.
Proof.
  intros Ha. split.
  - apply covers_might_contain. by eapply add_covers.
  - intros k Hk. apply covers_might_contain.
    eapply add_keeps; [exact Ha|]. by apply might_contain_covers.
Qed.

Lemma add_keeps_positive_witness :
  ∃ bf',
    BloomFilter.add sample_hash BloomFilter.default "a" = Ok bf' ∧
    BloomFilter.might_contain sample_hash bf' "a" = Ok true ∧
    ∀ k, BloomFilter.might_contain sample_hash BloomFilter.default k = Ok true →
         BloomFilter.might_contain sample_hash bf' k = Ok true.
Proof.
  destruct (BloomFilter.add sample_hash BloomFilter.default "a") as [bf'|e] eqn:E.
  - exists bf'. split; [reflexivity|].
    exact (add_keeps_positive sample_hash BloomFilter.default "a" bf' E).
  - vm_compute in E. discriminate E.
Defined.

(** X4. [add] stays within the bit array: on a filter whose size is positive
    and no more than the bits its array holds, [add] raises nothing and
    changes neither the size, the number of hashes nor the length of the
    array, whatever value [hash] returns. *)
Theorem add_in_bounds (hash : string → Z) bf key :
  0 < BloomFilter.size bf →
  BloomFilter.size bf <= 8 * Z.of_nat (length (BloomFilter.bits bf)) →
  ∃ bf',
    BloomFilter.add hash bf key = Ok bf' ∧
    BloomFilter.size bf' = BloomFilter.size bf ∧
    BloomFilter.num_hashes bf' = BloomFilter.num_hashes bf ∧
    length (BloomFilter.bits bf') = length (BloomFilter.bits bf).
Proof.
  intros Hs Hl. destruct (add_is_Ok hash bf key Hs Hl) as [bf' Hbf'].
  exists bf'. split; [done|].
  unfold BloomFilter.add in Hbf'. apply add_loop_spec in Hbf' as (? & ? & ? & _).
  done.
Qed.

Lemma add_in_bounds_witness :
  0 < BloomFilter.size BloomFilter.default ∧
  BloomFilter.size BloomFilter.default
    <= 8 * Z.of_nat (length (BloomFilter.bits BloomFilter.default)) ∧
  ∃ bf',
    BloomFilter.add sample_hash BloomFilter.default "a" = Ok bf' ∧
    BloomFilter.size bf' = BloomFilter.size BloomFilter.default ∧
    BloomFilter.num_hashes bf' = BloomFilter.num_hashes BloomFilter.default ∧
    length (BloomFilter.bits bf') = length (BloomFilter.bits BloomFilter.default).
Proof.
  assert (0 < BloomFilter.size BloomFilter.default) as H1 by (vm_compute; reflexivity).
  assert (BloomFilter.size BloomFilter.default
          <= 8 * Z.of_nat (length (BloomFilter.bits BloomFilter.default))) as H2
    by (vm_compute; discriminate).
  split; [exact H1|]. split; [exact H2|].
  exact (add_in_bounds sample_hash BloomFilter.default "a" H1 H2).
Defined.

(** * Further properties of a table and its file *)

Lemma sorted_map_filter {A} (R : string → string → Prop) (f : A → string)
    (q : A → bool) (l : list A) :
  StronglySorted R (map f l) → StronglySorted R (map f (List.filter q l)).
Proof.
  induction l as [|x l IH]; intros H; cbn [List.filter map] in *; [constructor|].
  apply StronglySorted_inv in H as [Hs Hf].
  destruct (q x); cbn [map]; [|by apply IH].
  constructor; [by apply IH|].
  apply List.Forall_forall. intros y Hy.
  apply in_map_iff in Hy as (z & <- & Hz). apply filter_In in Hz as [Hz _].
  eapply List.Forall_forall in Hf; [exact Hf|]. apply in_map_iff. by exists z.
Qed.

Lemma sorted_keys_strict data :
  NoDup (map fst data) → strictly_ascending (map fst (py_sorted key_ltb data)).
Proof.
  intros Hnd. apply ascending_NoDup_strict; [apply py_sorted_ascending|].
  by rewrite (Permutation_map fst (py_sorted_perm key_ltb data)).
Qed.

(** X5. Reading a table that was just built: [get] answers the value of a
    key of the record set, and [None] for every other key, also for one
    the filter lets through. *)
Theorem get_of_built_table (hash : string → Z) fn data fs sst fs' :
  SSTable._build hash fn data fs = (Ok sst, fs') →
  NoDup (map fst data) →
  (∀ k v, (k, v) ∈ data → SSTable.get hash sst k fs' = Ok (Some v)) ∧
  (∀ k, k ∉ map fst data → SSTable.get hash sst k fs' = Ok None).
Proof.
  intros Hb Hnd. destruct (represents_build hash _ _ _ _ _ Hnd Hb) as [Hr _].
  split.
  - intros k v Hin. by eapply get_represents_in.
  - intros k Hk. by eapply get_represents_notin.
Qed.

Lemma get_of_built_table_witness :
  ∃ sst fs',
    SSTable._build sample_hash "t.sst" example_data ∅ = (Ok sst, fs') ∧
    NoDup (map fst example_data) ∧
    (∀ k v, (k, v) ∈ example_data → SSTable.get sample_hash sst k fs' = Ok (Some v)) ∧
    (∀ k, k ∉ map fst example_data → SSTable.get sample_hash sst k fs' = Ok None).
Proof.
  destruct (SSTable._build sample_hash "t.sst" example_data ∅) as [[sst|e] fs'] eqn:E.
  - exists sst, fs'. split; [reflexivity|].
    assert (NoDup (map fst example_data)) as Hnd.
    { unfold example_data. cbn [map fst]. apply NoDup_cons. split; [|apply NoDup_singleton].
      intros Hc. apply list_elem_of_singleton in Hc. discriminate Hc. }
    split; [exact Hnd|].
    exact (get_of_built_table sample_hash "t.sst" example_data ∅ sst fs' E Hnd).
  - vm_compute in E. discriminate E.
Defined.

(** X6. A range scan of a table that was just built returns the records
    whose key lies in the window, each once, in strictly ascending key
    order. *)
Theorem range_of_built_table (hash : string → Z) fn data fs sst fs' start stop :
  SSTable._build hash fn data fs = (Ok sst, fs') →
  NoDup (map fst data) →
  ∃ out,
    SSTable.range hash sst start stop fs' = Ok out ∧
    (∀ k v, (k, v) ∈ out ↔
            (k, v) ∈ data ∧ String.leb start k = true ∧ String.leb k stop = true) ∧
    strictly_ascending (map fst out).
Proof.
  intros Hb Hnd. destruct (represents_build hash _ _ _ _ _ Hnd Hb) as [Hr _].
  eexists. split; [by eapply range_represents|]. split.
  - intros k v. rewrite list_elem_of_In, filter_In, <- list_elem_of_In.
    rewrite (py_sorted_perm key_ltb data). unfold in_window. cbn [fst].
    rewrite andb_true_iff. done.
  - apply sorted_map_filter. by apply sorted_keys_strict.
Qed.

Lemma range_of_built_table_witness :
  ∃ sst fs',
    SSTable._build sample_hash "t.sst" example_data ∅ = (Ok sst, fs') ∧
    NoDup (map fst example_data) ∧
    ∃ out,
      SSTable.range sample_hash sst "a" "b" fs' = Ok out ∧
      (∀ k v, (k, v) ∈ out ↔
              (k, v) ∈ example_data ∧ String.leb "a" k = true ∧ String.leb k "b" = true) ∧
      strictly_ascending (map fst out).
Proof.
  destruct (SSTable._build sample_hash "t.sst" example_data ∅) as [[sst|e] fs'] eqn:E.
  - exists sst, fs'. split; [reflexivity|].
    assert (NoDup (map fst example_data)) as Hnd.
    { unfold example_data. cbn [map fst]. apply NoDup_cons. split; [|apply NoDup_singleton].
      intros Hc. apply list_elem_of_singleton in Hc. discriminate Hc. }
    split; [exact Hnd|].
    exact (range_of_built_table sample_hash "t.sst" example_data ∅ sst fs' "a" "b" E Hnd).
  - vm_compute in E. discriminate E.
Defined.

(** ** The size of the file *)



Lemma table_size_perm a b : Permutation a b → table_size a = table_size b.
Proof. induction 1; cbn [table_size]; lia. Qed.

Lemma table_size_sorted data : table_size (py_sorted key_ltb data) = table_size data.
Proof. apply table_size_perm, py_sorted_perm. Qed.

(** The data region and the index entries of [recs] take [table_size]
    bytes but 1040. *)
Lemma layout_length recs offs body es :
  records_bytes recs = Ok body →
  SSTable.index_entries (zip (map fst recs) offs) = Ok es →
  length offs = length recs →
  blen body + blen es + 1040 = table_size recs.
Proof.
  revert offs body es. induction recs as [|[k v] recs IH]; intros offs body es Hb He Hl.
  - cbn in Hb, He. destruct offs; [|done]. cbn in He. by simplify_eq.
  - destruct offs as [|o offs]; [done|].
    cbn [records_bytes] in Hb.
    apply bind_Ok in Hb as (rb & Hrb & Hb). apply bind_Ok in Hb as (rest & Hrest & Hb).
    injection Hb as <-.
    cbn [map fst zip zip_with SSTable.index_entries] in He.
    apply bind_Ok in He as (a & Ha & He). apply bind_Ok in He as (q & Hq & He).
    apply bind_Ok in He as (es' & Hes' & He).
    assert (es = a ++ encode k ++ q ++ es') as -> by (injection He as He; symmetry; exact He).
    apply pack_I_Ok in Ha as [_ ->]. apply pack_Q_Ok in Hq as [_ ->].
    cbn [length] in Hl.
    specialize (IH offs rest es' Hrest Hes' ltac:(lia)).
    apply encode_record_length in Hrb.
    rewrite !blen_app, !blen_le_encode. cbn [table_size]. unfold record_cost. cbn [fst snd].
    lia.
Qed.





(** X7. The size of the file of a table: 20 bytes per record, twice the key
    and once the value, and 1040 bytes for the index count, the index size
    and the filter; a table without records takes 1040 bytes. *)
Theorem size_of_built_table (hash : string → Z) fn data fs sst fs' :
  SSTable._build hash fn data fs = (Ok sst, fs') →
  SSTable.size_bytes sst fs' = table_size data.
Proof.
  intros Hb.
  apply build_Ok_inv in Hb as (idx & pre & bf & Hl & -> & -> & (_ & _ & Hbits) & _).
  apply build_layout_Ok_inv in Hl as (body & idata & sz & Hbody & Hidx & Hid & Hsz & ->).
  unfold SSTable.size_bytes. cbn [SSTable.filename]. rewrite lookup_insert_eq.
  unfold SSTable.index_data in Hid.
  apply bind_Ok in Hid as (c & Hc & Hid). apply bind_Ok in Hid as (es & Hes & Hid).
  assert (idata = c ++ es) as -> by (injection Hid as Hid; symmetry; exact Hid).
  apply pack_I_Ok in Hc as [_ ->]. apply pack_I_Ok in Hsz as [_ ->].
  rewrite Hidx in Hes.
  pose proof (layout_length _ _ body es Hbody Hes (records_offsets_length 0 _)) as Hlen.
  rewrite table_size_sorted in Hlen.
  rewrite !blen_app, !blen_le_encode. unfold blen at 3. rewrite Hbits. lia.
Qed.

Lemma size_of_built_table_witness :
  ∃ sst fs',
    SSTable._build sample_hash "t.sst" example_data ∅ = (Ok sst, fs') ∧
    SSTable.size_bytes sst fs' = table_size example_data.
Proof.
  destruct (SSTable._build sample_hash "t.sst" example_data ∅) as [[sst|e] fs'] eqn:E.
  - exists sst, fs'. split; [reflexivity|].
    exact (size_of_built_table sample_hash "t.sst" example_data ∅ sst fs' E).
  - vm_compute in E. discriminate E.
Defined.




(** * Further properties of the tree *)

(** ** Dictionaries *)

Lemma dict_set_length d k v :
  (length (dict_set d k v) <= S (length d))%nat.
Proof.
  induction d as [|[k' v'] d IH]; cbn [dict_set length]; [lia|].
  destruct (String.eqb k' k); cbn [length]; lia.
Qed.

Lemma dict_get_set d k' v k :
  dict_get (dict_set d k' v) k = if String.eqb k' k then Some v else dict_get d k.
Proof.
  induction d as [|[k0 v0] d IH]; cbn [dict_set dict_get]; [done|].
  destruct (String.eqb k0 k') eqn:E0; cbn [dict_get].
  - apply String.eqb_eq in E0. subst k0. by destruct (String.eqb k' k).
  - rewrite IH. destruct (String.eqb k0 k) eqn:E1; [|done].
    apply String.eqb_eq in E1. subst k0. rewrite String.eqb_sym in E0. by rewrite E0.
Qed.

Lemma dict_get_update d ops k :
  dict_get (dict_update d ops) k
  = match last_put ops k with Some v => Some v | None => dict_get d k end.
Proof.
  revert d. induction ops as [|[k' v] ops IH]; intros d; [done|].
  unfold dict_update in *. cbn [fold_left fst snd last_put].
  rewrite IH. destruct (last_put ops k); [done|].
  rewrite dict_get_set. by destruct (String.eqb k' k).
Qed.

Lemma dict_get_in d k v :
  NoDup (map fst d) → (k, v) ∈ d → dict_get d k = Some v.
Proof.
  induction d as [|[k' v'] d IH]; intros Hnd Hin; [by apply elem_of_nil in Hin|].
  cbn [map fst] in Hnd. apply NoDup_cons in Hnd as [Hk' Hnd].
  cbn [dict_get]. apply elem_of_cons in Hin as [Heq|Hin].
  - injection Heq as -> ->. by rewrite String.eqb_refl.
  - destruct (String.eqb k' k) eqn:E; [|by apply IH].
    apply String.eqb_eq in E as ->. exfalso. apply Hk'.
    apply list_elem_of_fmap. by exists (k, v).
Qed.

Lemma dict_set_elem d k v kv :
  kv ∈ dict_set d k v → kv ∈ d ∨ kv = (k, v).
Proof.
  induction d as [|[k' v'] d IH]; cbn [dict_set]; intros H.
  - apply list_elem_of_singleton in H. by right.
  - destruct (String.eqb k' k).
    + apply elem_of_cons in H as [->|H]; [by right|]. left. by right.
    + apply elem_of_cons in H as [->|H]; [left; by left|].
      destruct (IH H) as [?|?]; [left; by right|by right].
Qed.

Lemma dict_update_elem d items kv :
  kv ∈ dict_update d items → kv ∈ d ∨ kv ∈ items.
Proof.
  revert d. induction items as [|[k v] items IH]; intros d H; [by left|].
  unfold dict_update in *. cbn [fold_left fst snd] in H.
  destruct (IH _ H) as [H1|H1]; [|right; by right].
  destruct (dict_set_elem _ _ _ _ H1) as [?| ->]; [by left|right; by left].
Qed.

Lemma dict_update_fresh d items :
  NoDup (map fst (d ++ items)) → dict_update d items = d ++ items.
Proof.
  revert d. induction items as [|[k v] items IH]; intros d Hnd.
  - by rewrite app_nil_r.
  - unfold dict_update in *. cbn [fold_left fst snd].
    assert (dict_set d k v = d ++ [(k, v)]) as ->.
    { rewrite map_app in Hnd. apply NoDup_app in Hnd as (_ & Hd & _).
      assert (k ∉ map fst d) as Hk.
      { intros Hk. apply (Hd k Hk). cbn [map fst]. by left. }
      clear -Hk. induction d as [|[k' v'] d IH]; [done|].
      cbn [dict_set]. cbn [map fst] in Hk. apply not_elem_of_cons in Hk as [Hne Hk].
      destruct (String.eqb k' k) eqn:E; [by apply String.eqb_eq in E|].
      cbn [app]. by rewrite IH. }
    rewrite IH; [by rewrite <- app_assoc|].
    by rewrite <- app_assoc.
Qed.

(** ** [sorted] on pairs *)

Lemma pair_ltb_true y x : pair_ltb y x = true → String.leb (fst y) (fst x) = true.
Proof.
  unfold pair_ltb. destruct (String.eqb (fst y) (fst x)) eqn:E.
  - apply String.eqb_eq in E as ->. intros _. apply leb_refl.
  - apply ltb_leb_weak.
Qed.

Lemma pair_ltb_false y x : pair_ltb y x = false → String.leb (fst x) (fst y) = true.
Proof.
  unfold pair_ltb. destruct (String.eqb (fst y) (fst x)) eqn:E.
  - apply String.eqb_eq in E as ->. intros _. apply leb_refl.
  - rewrite ltb_leb. by destruct (String.leb (fst x) (fst y)).
Qed.

Lemma sort_insert_pairs_ascending x l :
  ascending (map fst l) → ascending (map fst (sort_insert pair_ltb x l)).
Proof.
  unfold ascending. induction l as [|y l IH]; cbn [sort_insert map]; intros Hs.
  - repeat constructor.
  - destruct (pair_ltb y x) eqn:E; cbn [map].
    + apply StronglySorted_inv in Hs as [Hs Hy]. constructor; [by apply IH|].
      apply Forall_forall. intros k Hk.
      rewrite (sort_insert_perm pair_ltb x l) in Hk.
      cbn [map] in Hk. apply elem_of_cons in Hk as [->|Hk]; [by apply pair_ltb_true|].
      rewrite Forall_forall in Hy. by apply Hy.
    + pose proof (pair_ltb_false _ _ E) as Hxy.
      constructor; [done|]. constructor; [done|].
      apply StronglySorted_inv in Hs as [_ Hy].
      eapply Forall_impl; [exact Hy|]. intros k Hk. cbn beta in Hk.
      by eapply leb_trans.
Qed.

Lemma sorted_pairs_strict l :
  NoDup (map fst l) → strictly_ascending (map fst (py_sorted pair_ltb l)).
Proof.
  intros Hnd. apply ascending_NoDup_strict.
  - induction l as [|x l IH]; cbn [py_sorted map]; [constructor|].
    apply sort_insert_pairs_ascending. apply IH.
    cbn [map] in Hnd. by apply NoDup_cons in Hnd as [_ ?].
  - by rewrite (Permutation_map fst (py_sorted_perm pair_ltb l)).
Qed.

(** ** [range] returns a sorted result *)

Section RangeSorted.
Variable hash : string → Z.

Lemma range_level_NoDup res ssts start stop fs res' :
LSMTree.range_level hash res ssts start stop fs = Ok res' →
NoDup (map fst res) → NoDup (map fst res').
Proof.
revert res. induction ssts as [|sst ssts IH]; intros res H Hnd;
  cbn [LSMTree.range_level] in H; [by simplify_eq|].
apply bind_Ok in H as (items & _ & H).
eapply IH; [exact H|]. by apply dict_update_NoDup.
Qed.

Lemma range_levels_NoDup res lvls start stop fs res' :
LSMTree.range_levels hash res lvls start stop fs = Ok res' →
NoDup (map fst res) → NoDup (map fst res').
Proof.
revert res. induction lvls as [|lvl lvls IH]; intros res H Hnd;
  cbn [LSMTree.range_levels] in H; [by simplify_eq|].
apply bind_Ok in H as (res1 & H1 & H).
eapply IH; [exact H|]. by eapply range_level_NoDup.
Qed.

End RangeSorted.

(** X10. Whatever the state of the tree, a [range] that returns gives its
    pairs in strictly ascending key order: no key comes twice. *)
Theorem range_is_sorted (hash : string → Z) start stop st out :
  LSMTree.range hash start stop st = Ok out →
  strictly_ascending (map fst out).
Proof.
  destruct st as [tr fs]. unfold LSMTree.range. intros H.
  apply bind_Ok in H as (res' & Hres & H). injection H as <-.
  apply sorted_pairs_strict.
  eapply range_levels_NoDup; [exact Hres|].
  apply dict_update_NoDup. constructor.
Qed.

Lemma range_is_sorted_witness :
  ∃ out,
    LSMTree.range sample_hash "a" "z"
      (snd (LSMTree.put sample_hash "b" "2"
              (snd (LSMTree.put sample_hash "a" "1" (LSMTree.init 2, ∅))))) = Ok out ∧
    strictly_ascending (map fst out).
Proof.
  destruct (LSMTree.range sample_hash "a" "z"
      (snd (LSMTree.put sample_hash "b" "2"
              (snd (LSMTree.put sample_hash "a" "1" (LSMTree.init 2, ∅))))))
    as [out|e] eqn:E.
  - exists out. split; [reflexivity|].
    exact (range_is_sorted sample_hash "a" "z" _ out E).
  - vm_compute in E. discriminate E.
Defined.

Lemma NoDup_map_filter {A B} (f : A → B) (q : A → bool) (l : list A) :
  NoDup (map f l) → NoDup (map f (List.filter q l)).
Proof.
  induction l as [|x l IH]; cbn [map List.filter]; intros Hnd; [constructor|].
  apply NoDup_cons in Hnd as [Hx Hnd].
  destruct (q x); cbn [map]; [|by apply IH].
  apply NoDup_cons. split; [|by apply IH].
  intros Hc. apply Hx. apply list_elem_of_fmap in Hc as (y & -> & Hy).
  apply list_elem_of_In, filter_In in Hy as [Hy _].
  apply list_elem_of_fmap. exists y. split; [done|]. by apply list_elem_of_In.
Qed.

(** ** A tree that has not flushed yet *)

Section Unflushed.
Variable hash : string → Z.

Lemma puts_in_memtable ops mem limit lvls fs :
Z.of_nat (length mem + length ops) < limit →
puts hash ops (LSMTree.mk mem limit lvls, fs)
= (Ok tt, (LSMTree.mk (dict_update mem ops) limit lvls, fs)).
Proof.
revert mem. induction ops as [|[k v] ops IH]; intros mem Hlen; [done|].
cbn [puts length] in *.
pose proof (dict_set_length mem k v) as Hl.
rewrite (put_no_flush hash k v (LSMTree.mk mem limit lvls) fs)
  by (cbn [LSMTree.memtable LSMTree.memtable_limit]; lia).
cbn [LSMTree.memtable LSMTree.memtable_limit LSMTree.levels].
rewrite IH by lia. done.
Qed.

Lemma get_no_levels mem limit fs k :
LSMTree.get hash k (LSMTree.mk mem limit [], fs) = Ok (dict_get mem k).
Proof. unfold LSMTree.get. cbn. by destruct (dict_get mem k). Qed.

End Unflushed.

(** X11. Fewer [put]s than the memtable limit, on a new tree: no [put]
    raises, no file is written and no level is created, and [get] answers
    the value of the last [put] of the key, [None] for a key that was never
    put.  The program's own test [test_correctness] is such a run. *)
Theorem few_puts_get (hash : string → Z) ops limit fs :
  Z.of_nat (length ops) < limit →
  ∃ tr,
    puts hash ops (LSMTree.init limit, fs) = (Ok tt, (tr, fs)) ∧
    LSMTree.levels tr = [] ∧
    ∀ k, LSMTree.get hash k (tr, fs) = Ok (last_put ops k).
Proof.
  intros Hlen. eexists. split; [|split].
  - apply puts_in_memtable. cbn [length]. lia.
  - done.
  - intros k. rewrite get_no_levels, dict_get_update. cbn [dict_get].
    by destruct (last_put ops k).
Qed.

Lemma few_puts_get_witness :
  Z.of_nat (length [("apple", "red"); ("banana", "yellow"); ("cherry", "red");
                    ("banana", "green")]) < 10 ∧
  ∃ tr,
    puts sample_hash [("apple", "red"); ("banana", "yellow"); ("cherry", "red");
                      ("banana", "green")] (LSMTree.init 10, ∅) = (Ok tt, (tr, ∅)) ∧
    LSMTree.levels tr = [] ∧
    ∀ k, LSMTree.get sample_hash k (tr, ∅)
         = Ok (last_put [("apple", "red"); ("banana", "yellow"); ("cherry", "red");
                         ("banana", "green")] k).
Proof.
  assert (Z.of_nat (length [("apple", "red"); ("banana", "yellow"); ("cherry", "red");
                            ("banana", "green")]) < 10) as H by (cbn [length]; lia).
  split; [exact H|].
  exact (few_puts_get sample_hash _ 10 ∅ H).
Defined.

(** X12. Fewer [put]s than the memtable limit, on a new tree: [range]
    returns, for every key of the window that was put, the value of its
    last [put], each key once and in strictly ascending order. *)
Theorem few_puts_range (hash : string → Z) ops limit fs start stop :
  Z.of_nat (length ops) < limit →
  ∃ tr out,
    puts hash ops (LSMTree.init limit, fs) = (Ok tt, (tr, fs)) ∧
    LSMTree.range hash start stop (tr, fs) = Ok out ∧
    (∀ k v, (k, v) ∈ out ↔
            last_put ops k = Some v ∧
            String.leb start k = true ∧ String.leb k stop = true) ∧
    strictly_ascending (map fst out).
Proof.
  intros Hlen. eexists. eexists. split; [|split; [|split]].
  - apply puts_in_memtable. cbn [length]. lia.
  - unfold LSMTree.range.
    cbn [LSMTree.memtable LSMTree.levels reverse LSMTree.range_levels mbind result_bind].
    reflexivity.
  - intros k v. rewrite (py_sorted_perm pair_ltb).
    assert (NoDup (map fst (dict_update [] ops))) as Hnd
      by (apply dict_update_NoDup; constructor).
    rewrite dict_update_fresh by (by apply NoDup_map_filter).
    cbn [app]. rewrite list_elem_of_In, filter_In, <- list_elem_of_In.
    unfold in_window. cbn [fst]. rewrite andb_true_iff.
    assert ((k, v) ∈ dict_update [] ops ↔ last_put ops k = Some v) as ->; [|done].
    split.
    + intros Hin. apply (dict_get_in _ _ _ Hnd) in Hin.
      rewrite dict_get_update in Hin. cbn [dict_get] in Hin.
      by destruct (last_put ops k).
    + intros Hl. apply dict_get_Some. rewrite dict_get_update, Hl. done.
  - apply sorted_pairs_strict. apply dict_update_NoDup. constructor.
Qed.

Lemma few_puts_range_witness :
  Z.of_nat (length [("apple", "red"); ("banana", "yellow"); ("cherry", "red")]) < 10 ∧
  ∃ tr out,
    puts sample_hash [("apple", "red"); ("banana", "yellow"); ("cherry", "red")]
      (LSMTree.init 10, ∅) = (Ok tt, (tr, ∅)) ∧
    LSMTree.range sample_hash "b" "d" (tr, ∅) = Ok out ∧
    (∀ k v, (k, v) ∈ out ↔
            last_put [("apple", "red"); ("banana", "yellow"); ("cherry", "red")] k = Some v ∧
            String.leb "b" k = true ∧ String.leb k "d" = true) ∧
    strictly_ascending (map fst out).
Proof.
  assert (Z.of_nat (length [("apple", "red"); ("banana", "yellow"); ("cherry", "red")]) < 10)
    as H by (cbn [length]; lia).
  split; [exact H|].
  exact (few_puts_range sample_hash _ 10 ∅ "b" "d" H).
Defined.

(** ** The shape of the tree *)

Section Shape.
Variable hash : string → Z.

(** A compaction of level 0 that returns leaves level 0 empty and one
  table at level 1; the memtable and its limit are untouched. *)
Lemma compact0_Ok_levels mem limit h l0 rest fs tr' fs' :
LSMTree._compact_level hash 0 (LSMTree.mk mem limit ((h :: l0) :: rest), fs)
= (Ok tt, (tr', fs')) →
∃ sst,
  tr' = LSMTree.mk mem limit
          ([] :: [sst] :: match rest with [] => [] | _ :: rest' => rest' end).
Proof.
unfold LSMTree._compact_level.
cbn [LSMTree.levels LSMTree.memtable LSMTree.memtable_limit lookup list_lookup].
change (((h :: l0) :: rest) !! 0%nat) with (Some (h :: l0)).
destruct (LSMTree.gather hash [] (h :: l0) fs) as [merged|]; [|done].
change (((h :: l0) :: rest) !! (0 + 1)%nat) with (rest !! 0%nat).
destruct (match rest !! 0%nat with
          | Some next_level => LSMTree.gather hash merged next_level fs
          | None => Ok merged
          end) as [merged'|]; [|done].
destruct rest as [|l1 rest'].
- cbn. destruct (SSTable._build hash _ merged' _) as [[sst|e] fs2]; [|done].
  intros H. simplify_eq. by eexists.
- cbn. destruct (SSTable._build hash _ merged' _) as [[sst|e] fs2]; [|done].
  intros H. simplify_eq. by eexists.
Qed.

(** What a [put] that returns has done. *)
Lemma put_Ok_inv key value tr fs tr' fs' :
LSMTree.put hash key value (tr, fs) = (Ok tt, (tr', fs')) →
LSMTree.memtable_limit tr' = LSMTree.memtable_limit tr ∧
((Z.of_nat (length (dict_set (LSMTree.memtable tr) key value)) < LSMTree.memtable_limit tr ∧
  LSMTree.memtable tr' = dict_set (LSMTree.memtable tr) key value ∧
  LSMTree.levels tr' = LSMTree.levels tr ∧ fs' = fs) ∨
 (LSMTree.memtable tr' = [] ∧
  ∃ sst,
    let l0 := match LSMTree.levels tr with [] => [] | l0 :: _ => l0 end in
    let rest := match LSMTree.levels tr with [] => [] | _ :: rest => rest end in
    ((length l0 < 2)%nat ∧ LSMTree.levels tr' = (l0 ++ [sst]) :: rest) ∨
    ((2 <= length l0)%nat ∧
     LSMTree.levels tr'
     = [] :: [sst] :: match rest with [] => [] | _ :: rest' => rest' end))).
Proof.
destruct tr as [mem limit lvls]. unfold LSMTree.put.
cbn [LSMTree.memtable LSMTree.memtable_limit LSMTree.levels].
destruct (limit <=? _) eqn:El.
2:{ intros H. simplify_eq. cbn. split; [done|]. left. apply Z.leb_gt in El. done. }
unfold LSMTree._flush_memtable.
cbn [LSMTree.memtable LSMTree.memtable_limit LSMTree.levels].
pose proof (dict_set_nonempty mem key value) as Hne.
destruct (dict_set mem key value) as [|kv mem1] eqn:Em; [done|].
set (l0 := match lvls with [] => [] | l0 :: _ => l0 end).
set (rest := match lvls with [] => [] | _ :: rest => rest end).
assert (match lvls with [] => [[]] | _ :: _ => lvls end = l0 :: rest) as ->.
{ unfold l0, rest. by destruct lvls. }
change (default [] ((l0 :: rest) !! 0%nat)) with l0.
destruct (SSTable._build hash _ (kv :: mem1) fs) as [[sst|e] fs1]; [|done].
cbn [insert list_insert].
change (<[0%nat := l0 ++ [sst]]> (l0 :: rest)) with ((l0 ++ [sst]) :: rest).
destruct (2 <? length (l0 ++ [sst]))%nat eqn:E2.
- apply Nat.ltb_lt in E2. rewrite length_app in E2. cbn [length] in E2.
  destruct (l0 ++ [sst]) as [|h l0'] eqn:El0; [by destruct l0|].
  intros H. apply compact0_Ok_levels in H as [sst' ->].
  cbn. split; [done|]. right. split; [done|]. exists sst'. right. split; [lia|done].
- apply Nat.ltb_ge in E2. rewrite length_app in E2. cbn [length] in E2.
  intros H. simplify_eq. cbn. split; [done|]. right. split; [done|].
  exists sst. left. split; [lia|done].
Qed.

Lemma put_two_levels key value tr fs tr' fs' :
LSMTree.put hash key value (tr, fs) = (Ok tt, (tr', fs')) →
two_levels tr → two_levels tr'.
Proof.
intros H (Hlen & H0 & H1). apply put_Ok_inv in H as (_ & [(_ & _ & Hl & _)|(_ & sst & H)]).
{ unfold two_levels. rewrite Hl. done. }
cbv zeta in H. unfold two_levels.
destruct (LSMTree.levels tr) as [|l0 rest] eqn:El.
- destruct H as [[_ ->]|[? _]]; [|cbn in *; lia].
  cbn. split_and!; [lia| |done].
  intros l Hl. cbn in Hl. simplify_eq. cbn. lia.
- destruct H as [[Hlt ->]|[_ ->]].
  + cbn [length] in *. split_and!; [lia| |].
    * intros l Hl. cbn in Hl. simplify_eq. rewrite length_app. cbn. lia.
    * intros l Hl. apply (H1 l). done.
  + cbn [length] in Hlen. destruct rest as [|l1 [|]]; cbn [length] in *; try lia.
    * split_and!; [cbn; lia| |]; intros l Hl; cbn in Hl; simplify_eq; cbn; lia.
    * split_and!; [cbn; lia| |]; intros l Hl; cbn in Hl; simplify_eq; cbn; lia.
Qed.

Lemma put_memtable_bound key value tr fs tr' fs' :
LSMTree.put hash key value (tr, fs) = (Ok tt, (tr', fs')) →
1 <= LSMTree.memtable_limit tr →
Z.of_nat (length (LSMTree.memtable tr')) < LSMTree.memtable_limit tr'.
Proof.
intros H Hlim. apply put_Ok_inv in H as (-> & [(? & -> & _)|(-> & _)]); [done|].
cbn [length]. lia.
Qed.

Lemma put_limit key value st :
LSMTree.memtable_limit (fst (snd (LSMTree.put hash key value st)))
= LSMTree.memtable_limit (fst st).
Proof.
destruct st as [tr fs]. destruct (LSMTree.put hash key value (tr, fs)) as [[[]|e] [tr' fs']] eqn:E.
- by apply put_Ok_inv in E as [? _].
- unfold LSMTree.put, LSMTree._flush_memtable in E.
  cbn [LSMTree.memtable LSMTree.memtable_limit LSMTree.levels] in E.
  destruct (_ <=? _) in E; [|done].
  destruct (dict_set _ _ _) in E; [done|].
  destruct (SSTable._build _ _ _ _) as [[sst|e'] fs1] in E; [|by simplify_eq].
  destruct (_ <? _)%nat in E; [|done].
  unfold LSMTree._compact_level in E.
  cbn [LSMTree.memtable LSMTree.memtable_limit LSMTree.levels] in E.
  repeat (match type of E with context [match ?x with _ => _ end] => destruct x end;
          try done; try (by simplify_eq)).
Qed.

Lemma puts_invariant (P : LSMTree.t → Prop) ops st st' :
(∀ key value tr fs tr' fs',
   LSMTree.put hash key value (tr, fs) = (Ok tt, (tr', fs')) → P tr → P tr') →
puts hash ops st = (Ok tt, st') → P (fst st) → P (fst st').
Proof.
intros Hstep. revert st. induction ops as [|[k v] ops IH]; intros st H HP;
  cbn [puts] in H; [by simplify_eq|].
destruct (LSMTree.put hash k v st) as [[[]|e] [tr1 fs1]] eqn:E; [|done].
apply (IH _ H). destruct st as [tr fs]. cbn [fst] in *. by eapply Hstep.
Qed.

End Shape.

(** X13. The shape of the tree.  After any run of [put]s on a new tree in
    which no [put] raised, the tree has at most two levels, level 0 holds at
    most two tables and level 1 at most one: only level 0 is ever
    compacted. *)
Theorem puts_keep_two_levels (hash : string → Z) ops limit fs st :
  puts hash ops (LSMTree.init limit, fs) = (Ok tt, st) →
  two_levels (fst st).
Proof.
  intros H. apply (puts_invariant hash two_levels ops _ _ (put_two_levels hash) H).
  unfold two_levels. cbn. split_and!; [lia| |]; intros l Hl; done.
Qed.

Lemma puts_keep_two_levels_witness :
  ∃ st,
    puts sample_hash overwrite_across_levels (LSMTree.init 1, ∅) = (Ok tt, st) ∧
    two_levels (fst st).
Proof.
  destruct (puts sample_hash overwrite_across_levels (LSMTree.init 1, ∅))
    as [[[]|e] st] eqn:E.
  - exists st. split; [reflexivity|].
    exact (puts_keep_two_levels sample_hash overwrite_across_levels 1 ∅ st E).
  - vm_compute in E. discriminate E.
Defined.

(** X14. The memtable stays below its limit.  After any run of [put]s on a
    new tree with a limit of at least 1 in which no [put] raised, the
    memtable holds fewer keys than the limit. *)
Theorem puts_keep_memtable_below_limit (hash : string → Z) ops limit fs st :
  1 <= limit →
  puts hash ops (LSMTree.init limit, fs) = (Ok tt, st) →
  LSMTree.memtable_limit (fst st) = limit ∧
  Z.of_nat (length (LSMTree.memtable (fst st))) < limit.
Proof.
  intros Hlim H.
  apply (puts_invariant hash
           (fun tr => LSMTree.memtable_limit tr = limit ∧
                      Z.of_nat (length (LSMTree.memtable tr)) < limit) ops _ _) in H.
  - exact H.
  - intros key value tr fs0 tr' fs' Hput [Hl _].
    pose proof (put_limit hash key value (tr, fs0)) as Hl'. rewrite Hput in Hl'.
    cbn [fst snd] in Hl'. split; [congruence|].
    rewrite <- Hl, <- Hl'. eapply put_memtable_bound; [exact Hput|lia].
  - cbn. split; [done|lia].
Qed.

Lemma puts_keep_memtable_below_limit_witness :
  1 <= 2 ∧
  ∃ st,
    puts sample_hash scenario_b (LSMTree.init 2, ∅) = (Ok tt, st) ∧
    LSMTree.memtable_limit (fst st) = 2 ∧
    Z.of_nat (length (LSMTree.memtable (fst st))) < 2.
Proof.
  split; [lia|].
  destruct (puts sample_hash scenario_b (LSMTree.init 2, ∅)) as [[[]|e] st] eqn:E.
  - exists st. split; [reflexivity|].
    exact (puts_keep_memtable_below_limit sample_hash scenario_b 2 ∅ st ltac:(lia) E).
  - vm_compute in E. discriminate E.
Defined.

(** ** [range] stays within its window *)

Section RangeWindow.
Variable hash : string → Z.

Lemma range_loop_keys sst fs keys out :
SSTable.range_loop hash sst fs keys = Ok out →
∀ kv, kv ∈ out → fst kv ∈ keys.
Proof.
revert out. induction keys as [|key keys IH]; intros out H kv Hin;
  cbn [SSTable.range_loop] in H.
- simplify_eq. by apply elem_of_nil in Hin.
- apply bind_Ok in H as (value & _ & H). apply bind_Ok in H as (rest & Hrest & H).
  injection H as <-. destruct value as [v|].
  + apply elem_of_cons in Hin as [->|Hin]; [by left|].
    right. by eapply IH.
  + right. by eapply IH.
Qed.

Lemma sstable_range_window sst start stop fs out :
ascending (map fst (SSTable.index sst)) →
SSTable.range hash sst start stop fs = Ok out →
∀ kv, kv ∈ out → in_window start stop kv = true.
Proof.
intros Ha H kv Hin. unfold SSTable.range in H.
set (keys := map fst (SSTable.index sst)) in *.
pose proof (range_loop_keys _ _ _ _ H kv Hin) as Hk.
apply list_elem_of_fmap in Hk as (i & Hi & Hseq).
apply elem_of_seq in Hseq as [Hl Hr].
destruct (bisect_left_spec keys start Ha) as [_ Hleft].
destruct (bisect_right_spec keys stop Ha) as [Hrlen Hright].
assert (i < length keys)%nat as Hlen by lia.
unfold in_window. rewrite Hi. apply andb_true_iff. split.
- destruct (String.ltb (nth i keys EmptyString) start) eqn:E.
  + apply (Hleft i Hlen) in E. lia.
  + rewrite ltb_leb in E. by destruct (String.leb start (nth i keys EmptyString)).
- apply (Hright i Hlen). lia.
Qed.

Lemma range_level_window res ssts start stop fs res' :
Forall (fun sst => ascending (map fst (SSTable.index sst))) ssts →
LSMTree.range_level hash res ssts start stop fs = Ok res' →
Forall (fun kv => in_window start stop kv = true) res →
Forall (fun kv => in_window start stop kv = true) res'.
Proof.
intros Ha. revert res. induction Ha as [|sst ssts Hs _ IH]; intros res H Hres;
  cbn [LSMTree.range_level] in H; [by simplify_eq|].
apply bind_Ok in H as (items & Hitems & H).
apply (IH _ H). apply Forall_forall. intros kv Hkv.
apply dict_update_elem in Hkv as [Hkv|Hkv].
- rewrite Forall_forall in Hres. by apply Hres.
- by eapply sstable_range_window.
Qed.

Lemma range_levels_window res lvls start stop fs res' :
Forall (Forall (fun sst => ascending (map fst (SSTable.index sst)))) lvls →
LSMTree.range_levels hash res lvls start stop fs = Ok res' →
Forall (fun kv => in_window start stop kv = true) res →
Forall (fun kv => in_window start stop kv = true) res'.
Proof.
intros Ha. revert res. induction Ha as [|lvl lvls Hs _ IH]; intros res H Hres;
  cbn [LSMTree.range_levels] in H; [by simplify_eq|].
apply bind_Ok in H as (res1 & H1 & H).
apply (IH _ H). by eapply range_level_window.
Qed.

End RangeWindow.

(** X15. In every state the tree can reach, the pairs a [range] returns
    have their keys within the window: [start <= key <= end]. *)
Theorem range_within_window (hash : string → Z) st start stop out :
  reachable hash st →
  LSMTree.range hash start stop st = Ok out →
  ∀ k v, (k, v) ∈ out → String.leb start k = true ∧ String.leb k stop = true.
Proof.
  intros Hr H k v Hin. apply reachable_ascending in Hr. destruct st as [tr fs].
  unfold LSMTree.range in H. apply bind_Ok in H as (res' & Hres & H).
  injection H as <-. rewrite (py_sorted_perm pair_ltb) in Hin.
  eapply range_levels_window in Hres.
  - rewrite Forall_forall in Hres. apply Hres in Hin.
    unfold in_window in Hin. cbn [fst] in Hin. by apply andb_true_iff in Hin.
  - unfold indexes_ascending in Hr. cbn [fst] in Hr.
    rewrite reverse_Permutation. exact Hr.
  - apply Forall_forall. intros kv Hkv.
    apply dict_update_elem in Hkv as [Hkv|Hkv]; [by apply elem_of_nil in Hkv|].
    apply list_elem_of_In, filter_In in Hkv as [_ Hkv]. exact Hkv.
Qed.

Lemma range_within_window_witness :
  ∃ out,
    reachable sample_hash
      (snd (LSMTree.put sample_hash "b" "2"
              (snd (LSMTree.put sample_hash "a" "1" (LSMTree.init 1, ∅))))) ∧
    LSMTree.range sample_hash "b" "c"
      (snd (LSMTree.put sample_hash "b" "2"
              (snd (LSMTree.put sample_hash "a" "1" (LSMTree.init 1, ∅))))) = Ok out ∧
    ∀ k v, (k, v) ∈ out → String.leb "b" k = true ∧ String.leb k "c" = true.
Proof.
  destruct (LSMTree.range sample_hash "b" "c"
      (snd (LSMTree.put sample_hash "b" "2"
              (snd (LSMTree.put sample_hash "a" "1" (LSMTree.init 1, ∅))))))
    as [out|e] eqn:E.
  - exists out.
    assert (reachable sample_hash
      (snd (LSMTree.put sample_hash "b" "2"
              (snd (LSMTree.put sample_hash "a" "1" (LSMTree.init 1, ∅)))))) as Hr
      by apply reach_put, reach_put, reach_init.
    split; [exact Hr|]. split; [reflexivity|].
    exact (range_within_window sample_hash _ "b" "c" out Hr E).
  - vm_compute in E. discriminate E.
Defined.

(** * The records of a tree *)

(** ** Nothing is invented *)

Lemma a_range_tbl_elem start stop d kv :
  kv ∈ a_range_tbl start stop d ↔ kv ∈ d ∧ in_window start stop kv = true.
Proof.
  unfold a_range_tbl. rewrite list_elem_of_In, filter_In, <- list_elem_of_In.
  by rewrite (py_sorted_perm key_ltb d).
Qed.

Lemma a_gather_elem start stop merged tbls kv :
  kv ∈ a_gather start stop merged tbls → kv ∈ merged ∨ kv ∈ concat tbls.
Proof.
  revert merged. induction tbls as [|d tbls IH]; intros merged H; [by left|].
  unfold a_gather in *. cbn [fold_left] in H. cbn [concat].
  destruct (IH _ H) as [H1|H1]; [|right; apply elem_of_app; by right].
  apply dict_update_elem in H1 as [H1|H1]; [by left|].
  right. apply elem_of_app. left. by apply a_range_tbl_elem in H1 as [? _].
Qed.

Lemma a_compact0_sub t t' kv :
  a_compact 0 t = Some t' → kv ∈ a_records t' → kv ∈ a_records t.
Proof.
  destruct t as [mem limit lvls]. unfold a_compact, a_records.
  cbn [amem alimit alevels].
  destruct lvls as [|l0 rest]; [cbn; intros; by simplify_eq|].
  change ((l0 :: rest) !! 0%nat) with (Some l0).
  destruct l0 as [|d l0]; [intros; by simplify_eq|].
  change (((d :: l0) :: rest) !! (0 + 1)%nat) with (rest !! 0%nat).
  set (m0 := a_gather "" "~" [] (d :: l0)).
  assert (∀ x, x ∈ m0 → x ∈ concat (d :: l0)) as Hm0.
  { intros x Hx. apply a_gather_elem in Hx as [Hx|Hx]; [by apply elem_of_nil in Hx|done]. }
  clearbody m0.
  destruct rest as [|l1 rest]; cbn [lookup list_lookup].
  - destruct (fits m0); [|done]. intros H. simplify_eq. cbn [amem alevels].
    cbn [length Nat.leb Nat.add insert list_insert concat app].
    rewrite ?app_nil_r, !elem_of_app. intros [?|Hx]; [by left|].
    right. apply Hm0 in Hx. cbn [concat] in Hx. by apply elem_of_app in Hx.
  - set (m1 := a_gather "" "~" m0 l1).
    assert (∀ x, x ∈ m1 → x ∈ concat (d :: l0) ∨ x ∈ concat l1) as Hm1.
    { intros x Hx. apply a_gather_elem in Hx as [Hx|Hx]; [left; by apply Hm0|by right]. }
    clearbody m1.
    destruct (fits m1); [|done]. intros H. simplify_eq. cbn [amem alevels].
    cbn [length Nat.leb Nat.add insert list_insert concat app].
    rewrite ?app_nil_r, ?concat_app, !elem_of_app.
    intros [?|[Hx|?]]; [by left| |by auto].
    apply Hm1 in Hx as [Hx|Hx]; cbn [concat] in Hx; rewrite ?elem_of_app in Hx; tauto.
Qed.

Lemma a_flush_sub t t' kv :
  a_flush t = Some t' → kv ∈ a_records t' → kv ∈ a_records t.
Proof.
  destruct t as [mem limit lvls]. unfold a_flush. cbn [amem alimit alevels].
  destruct mem as [|kv0 mem]; [intros; by simplify_eq|].
  destruct (fits (kv0 :: mem)); [|done].
  set (t2 := mk_atree [] limit _).
  assert (∀ x, x ∈ a_records t2 → x ∈ a_records (mk_atree (kv0 :: mem) limit lvls)) as H2.
  { intros x. unfold t2, a_records. cbn [amem alevels app].
    destruct lvls as [|l0 rest]; cbn [lookup list_lookup default insert list_insert concat app].
    - unfold id. cbn [app concat]. by rewrite !app_nil_r.
    - unfold id. rewrite !concat_app. cbn [concat]. rewrite app_nil_r.
      rewrite !elem_of_app, !elem_of_cons, !elem_of_app. tauto. }
  destruct (2 <? _)%nat.
  - intros Hc Hin. apply H2. by eapply a_compact0_sub.
  - intros Hc Hin. simplify_eq. by apply H2.
Qed.

Lemma a_put_sub k v t t' kv :
  a_put k v t = Some t' → kv ∈ a_records t' → kv ∈ a_records t ∨ kv = (k, v).
Proof.
  unfold a_put. set (t1 := mk_atree _ _ _).
  assert (∀ x, x ∈ a_records t1 → x ∈ a_records t ∨ x = (k, v)) as H1.
  { intros x. unfold t1, a_records. cbn [amem alevels]. rewrite !elem_of_app.
    intros [Hx|Hx]; [|by auto]. apply dict_set_elem in Hx as [?|?]; by auto. }
  destruct (_ <=? _).
  - intros Hf Hin. apply H1. by eapply a_flush_sub.
  - intros Hf Hin. simplify_eq. by apply H1.
Qed.

Lemma a_run_sub ops t t' kv :
  a_run ops t = Some t' → kv ∈ a_records t' → kv ∈ a_records t ∨ kv ∈ ops.
Proof.
  revert t. induction ops as [|[k v] ops IH]; intros t H Hin; cbn [a_run] in H.
  - simplify_eq. by left.
  - destruct (a_put k v t) as [t1|] eqn:Ep; [|done].
    destruct (IH _ H Hin) as [H1|H1]; [|right; by right].
    apply (a_put_sub _ _ _ _ _ Ep) in H1 as [?| ->]; [by left|right; by left].
Qed.

Lemma a_get_level_elem tbls k v :
  a_get_level tbls k = Some v → (k, v) ∈ concat tbls.
Proof.
  induction tbls as [|d tbls IH]; cbn [a_get_level concat]; [done|].
  destruct (dict_get d k) as [v'|] eqn:E.
  - intros H. simplify_eq. apply elem_of_app. left. by apply dict_get_Some.
  - intros H. apply elem_of_app. right. by apply IH.
Qed.

Lemma a_get_levels_elem lvls k v :
  a_get_levels lvls k = Some v → (k, v) ∈ concat (concat lvls).
Proof.
  induction lvls as [|lvl lvls IH]; cbn [a_get_levels concat]; [done|].
  rewrite concat_app.
  destruct (a_get_level lvl k) as [v'|] eqn:E.
  - intros H. simplify_eq. apply elem_of_app. left. by apply a_get_level_elem.
  - intros H. apply elem_of_app. right. by apply IH.
Qed.

Lemma concat_reverse_perm {A} (lvls : list (list (list A))) :
  concat (concat (reverse lvls)) ≡ₚ concat (concat lvls).
Proof. by rewrite reverse_Permutation. Qed.

Lemma a_get_elem k v t : a_get k t = Some v → (k, v) ∈ a_records t.
Proof.
  unfold a_get, a_records. destruct (dict_get (amem t) k) as [v'|] eqn:E.
  - intros H. simplify_eq. apply elem_of_app. left. by apply dict_get_Some.
  - intros H. apply elem_of_app. right. apply a_get_levels_elem in H.
    by rewrite concat_reverse_perm in H.
Qed.

(** ** Record sets with distinct keys *)

Lemma submseteq_NoDup_keys (l1 l2 : list (string * string)) :
  l1 ⊆+ l2 → NoDup (map fst l2) → NoDup (map fst l1).
Proof.
  intros Hs Hnd. apply (fmap_submseteq fst) in Hs.
  apply submseteq_Permutation in Hs as [k Hk].
  change (map fst l2) with (fst <$> l2) in Hnd. rewrite Hk in Hnd.
  by apply NoDup_app in Hnd as [? _].
Qed.

Lemma filter_submseteq {A} (q : A → bool) (l : list A) : List.filter q l ⊆+ l.
Proof.
  induction l as [|x l IH]; cbn [List.filter]; [done|].
  destruct (q x); [by apply submseteq_skip|by apply submseteq_cons].
Qed.

Lemma filter_all {A} (q : A → bool) (l : list A) :
  (∀ x, x ∈ l → q x = true) → List.filter q l = l.
Proof.
  induction l as [|x l IH]; intros H; cbn [List.filter]; [done|].
  rewrite (H x) by (by left). f_equal. apply IH. intros y Hy. apply H. by right.
Qed.

Lemma a_range_tbl_submseteq start stop d : a_range_tbl start stop d ⊆+ d.
Proof.
  unfold a_range_tbl. etrans; [apply filter_submseteq|].
  apply Permutation_submseteq, py_sorted_perm.
Qed.

Lemma a_range_tbl_all start stop d :
  (∀ kv, kv ∈ d → in_window start stop kv = true) → a_range_tbl start stop d ≡ₚ d.
Proof.
  intros H. unfold a_range_tbl. rewrite filter_all; [apply py_sorted_perm|].
  intros kv Hkv. apply H. by rewrite (py_sorted_perm key_ltb d) in Hkv.
Qed.

Lemma concat_range_submseteq start stop tbls :
  concat (map (a_range_tbl start stop) tbls) ⊆+ concat tbls.
Proof.
  induction tbls as [|d tbls IH]; cbn [map concat]; [done|].
  apply submseteq_app; [apply a_range_tbl_submseteq|done].
Qed.

Lemma concat_range_all start stop tbls :
  (∀ kv, kv ∈ concat tbls → in_window start stop kv = true) →
  concat (map (a_range_tbl start stop) tbls) ≡ₚ concat tbls.
Proof.
  induction tbls as [|d tbls IH]; cbn [map concat]; intros H; [done|].
  rewrite a_range_tbl_all, IH; [done| |].
  - intros kv Hkv. apply H, elem_of_app. by right.
  - intros kv Hkv. apply H, elem_of_app. by left.
Qed.

Lemma concat_range_elem start stop tbls kv :
  kv ∈ concat (map (a_range_tbl start stop) tbls)
  ↔ kv ∈ concat tbls ∧ in_window start stop kv = true.
Proof.
  induction tbls as [|d tbls IH]; cbn [map concat].
  - split; [intros H; by apply elem_of_nil in H|intros [H _]; by apply elem_of_nil in H].
  - rewrite !elem_of_app, IH, a_range_tbl_elem. tauto.
Qed.

Lemma dict_set_fresh d k v : k ∉ map fst d → dict_set d k v = d ++ [(k, v)].
Proof.
  induction d as [|[k' v'] d IH]; intros Hk; [done|].
  cbn [dict_set]. cbn [map fst] in Hk. apply not_elem_of_cons in Hk as [Hne Hk].
  destruct (String.eqb k' k) eqn:E; [by apply String.eqb_eq in E|].
  cbn [app]. by rewrite IH.
Qed.

Lemma a_gather_disjoint start stop merged tbls :
  NoDup (map fst (merged ++ concat tbls)) →
  a_gather start stop merged tbls
  = merged ++ concat (map (a_range_tbl start stop) tbls).
Proof.
  revert merged. induction tbls as [|d tbls IH]; intros merged Hnd.
  - cbn. by rewrite app_nil_r.
  - unfold a_gather in *. cbn [fold_left map concat] in *.
    pose proof (a_range_tbl_submseteq start stop d) as Hsub.
    rewrite dict_update_fresh.
    + rewrite IH; [by rewrite <- app_assoc|].
      eapply submseteq_NoDup_keys; [|exact Hnd].
      rewrite <- app_assoc. apply submseteq_skips_l. by apply submseteq_skips_r.
    + eapply submseteq_NoDup_keys; [|exact Hnd].
      apply submseteq_skips_l. by apply submseteq_inserts_r.
Qed.

Lemma fold_gather_disjoint start stop lvls res :
  NoDup (map fst (res ++ concat (concat lvls))) →
  fold_left (a_gather start stop) lvls res
  = res ++ concat (map (a_range_tbl start stop) (concat lvls)).
Proof.
  revert res. induction lvls as [|lvl lvls IH]; intros res Hnd.
  - cbn. by rewrite app_nil_r.
  - cbn [fold_left concat] in *. rewrite concat_app in Hnd.
    pose proof (concat_range_submseteq start stop lvl) as Hsub.
    rewrite a_gather_disjoint.
    + rewrite IH; [by rewrite map_app, concat_app, <- app_assoc|].
      eapply submseteq_NoDup_keys; [|exact Hnd].
      rewrite <- app_assoc. apply submseteq_skips_l. by apply submseteq_skips_r.
    + eapply submseteq_NoDup_keys; [|exact Hnd].
      apply submseteq_skips_l. by apply submseteq_inserts_r.
Qed.

(** ** Reads of record sets with distinct keys *)

Lemma a_get_level_None tbls k :
  k ∉ map fst (concat tbls) → a_get_level tbls k = None.
Proof.
  induction tbls as [|d tbls IH]; cbn [a_get_level concat]; intros Hk; [done|].
  rewrite map_app in Hk. apply not_elem_of_app in Hk as [Hd Ht].
  apply dict_get_None in Hd. rewrite Hd. by apply IH.
Qed.

Lemma a_get_level_found tbls k v :
  NoDup (map fst (concat tbls)) → (k, v) ∈ concat tbls → a_get_level tbls k = Some v.
Proof.
  induction tbls as [|d tbls IH]; cbn [a_get_level concat]; intros Hnd Hin.
  - by apply elem_of_nil in Hin.
  - rewrite map_app in Hnd. apply NoDup_app in Hnd as (Hd & Hdis & Ht).
    apply elem_of_app in Hin as [Hin|Hin].
    + by rewrite (dict_get_in _ _ _ Hd Hin).
    + assert (k ∉ map fst d) as Hk.
      { intros Hk. apply (Hdis k Hk). apply list_elem_of_fmap. by exists (k, v). }
      apply dict_get_None in Hk. rewrite Hk. by apply IH.
Qed.

Lemma a_get_levels_found lvls k v :
  NoDup (map fst (concat (concat lvls))) → (k, v) ∈ concat (concat lvls) →
  a_get_levels lvls k = Some v.
Proof.
  induction lvls as [|lvl lvls IH]; cbn [a_get_levels concat]; intros Hnd Hin.
  - by apply elem_of_nil in Hin.
  - rewrite concat_app in Hnd, Hin. rewrite map_app in Hnd.
    apply NoDup_app in Hnd as (Hd & Hdis & Ht).
    apply elem_of_app in Hin as [Hin|Hin].
    + by rewrite (a_get_level_found _ _ _ Hd Hin).
    + assert (k ∉ map fst (concat lvl)) as Hk.
      { intros Hk. apply (Hdis k Hk). apply list_elem_of_fmap. by exists (k, v). }
      rewrite (a_get_level_None _ _ Hk). by apply IH.
Qed.

Lemma a_get_found k v t :
  NoDup (map fst (a_records t)) → (k, v) ∈ a_records t → a_get k t = Some v.
Proof.
  unfold a_records, a_get. intros Hnd Hin.
  rewrite map_app in Hnd. apply NoDup_app in Hnd as (Hm & Hdis & Hl).
  apply elem_of_app in Hin as [Hin|Hin].
  - by rewrite (dict_get_in _ _ _ Hm Hin).
  - assert (k ∉ map fst (amem t)) as Hk.
    { intros Hk. apply (Hdis k Hk). apply list_elem_of_fmap. by exists (k, v). }
    apply dict_get_None in Hk. rewrite Hk.
    apply a_get_levels_found.
    + change (map fst ?l) with (fst <$> l) in *. by rewrite concat_reverse_perm.
    + by rewrite concat_reverse_perm.
Qed.

Lemma a_range_elem start stop t k v :
  NoDup (map fst (a_records t)) →
  (k, v) ∈ a_range start stop t
  ↔ (k, v) ∈ a_records t ∧ in_window start stop (k, v) = true.
Proof.
  unfold a_records, a_range. intros Hnd.
  rewrite (py_sorted_perm pair_ltb).
  assert (NoDup (map fst (amem t))) as Hm.
  { rewrite map_app in Hnd. by apply NoDup_app in Hnd as [? _]. }
  rewrite (dict_update_fresh []) by (by apply NoDup_map_filter).
  cbn [app]. rewrite fold_gather_disjoint.
  - rewrite !elem_of_app, concat_range_elem.
    rewrite list_elem_of_In, filter_In, <- list_elem_of_In.
    rewrite (reverse_Permutation (alevels t)). tauto.
  - eapply submseteq_NoDup_keys; [|exact Hnd].
    apply submseteq_app; [apply filter_submseteq|].
    apply Permutation_submseteq, concat_reverse_perm.
Qed.

(** ** Writes keep the records when the keys are distinct *)

Lemma a_compact0_perm t t' :
  a_compact 0 t = Some t' →
  NoDup (map fst (a_records t)) →
  (∀ kv, kv ∈ a_records t → in_window "" "~" kv = true) →
  a_records t' ≡ₚ a_records t.
Proof.
  destruct t as [mem limit lvls]. unfold a_compact, a_records.
  cbn [amem alimit alevels].
  destruct lvls as [|l0 rest]; [cbn; intros; by simplify_eq|].
  change ((l0 :: rest) !! 0%nat) with (Some l0).
  destruct l0 as [|d l0]; [intros; by simplify_eq|].
  change (((d :: l0) :: rest) !! (0 + 1)%nat) with (rest !! 0%nat).
  intros H Hnd Hw.
  assert (NoDup (map fst (concat (concat ((d :: l0) :: rest))))) as Hnd'.
  { rewrite map_app in Hnd. by apply NoDup_app in Hnd as (_ & _ & ?). }
  assert (∀ kv, kv ∈ concat (concat ((d :: l0) :: rest)) →
                in_window "" "~" kv = true) as Hw'.
  { intros kv Hkv. apply Hw, elem_of_app. by right. }
  cbn [concat] in Hnd', Hw'. rewrite concat_app in Hnd', Hw'.
  change (d ++ concat l0) with (concat (d :: l0)) in Hnd', Hw'.
  rewrite (a_gather_disjoint "" "~" [] (d :: l0)) in H.
  2:{ cbn [app]. eapply submseteq_NoDup_keys; [|exact Hnd']. by apply submseteq_inserts_r. }
  cbn [app] in H.
  assert (concat (map (a_range_tbl "" "~") (d :: l0)) ≡ₚ concat (d :: l0)) as Hm0.
  { apply concat_range_all. intros kv Hkv. apply Hw', elem_of_app. by left. }
  destruct rest as [|l1 rest]; cbn [lookup list_lookup] in H.
  - destruct (fits _); [|done]. simplify_eq. cbn [amem alevels].
    apply Permutation_app_head.
    cbn [length Nat.leb Nat.add insert list_insert concat app].
    rewrite !app_nil_r. exact Hm0.
  - cbn [concat] in Hnd', Hw'. rewrite concat_app in Hnd', Hw'.
    rewrite a_gather_disjoint in H.
    2:{ eapply submseteq_NoDup_keys; [|exact Hnd'].
        rewrite app_assoc. apply submseteq_inserts_r.
        apply submseteq_skips_r, concat_range_submseteq. }
    destruct (fits _); [|done]. simplify_eq. cbn [amem alevels].
    apply Permutation_app_head.
    cbn [length Nat.leb Nat.add insert list_insert concat app].
    rewrite Hm0. cbn [concat]. rewrite !concat_app, <- !app_assoc.
    do 2 apply Permutation_app_head. apply Permutation_app_tail.
    apply concat_range_all. intros kv Hkv. apply Hw'.
    rewrite !elem_of_app. right. by left.
Qed.

Lemma a_flush_perm t t' :
  a_flush t = Some t' →
  NoDup (map fst (a_records t)) →
  (∀ kv, kv ∈ a_records t → in_window "" "~" kv = true) →
  a_records t' ≡ₚ a_records t.
Proof.
  destruct t as [mem limit lvls]. unfold a_flush. cbn [amem alimit alevels].
  destruct mem as [|kv0 mem]; [intros; by simplify_eq|].
  destruct (fits (kv0 :: mem)); [|done].
  set (t2 := mk_atree [] limit _).
  assert (a_records t2 ≡ₚ a_records (mk_atree (kv0 :: mem) limit lvls)) as H2.
  { unfold t2, a_records. cbn [amem alevels].
    destruct lvls as [|l0 rest]; cbn [lookup list_lookup default insert list_insert concat].
    - unfold id. cbn [app concat]. by rewrite !app_nil_r.
    - unfold id. rewrite !concat_app. cbn [concat app]. rewrite app_nil_r.
      change (kv0 :: mem ++ concat l0 ++ concat (concat rest))
        with ((kv0 :: mem) ++ concat l0 ++ concat (concat rest)).
      rewrite <- app_assoc. rewrite !app_assoc.
      apply Permutation_app_tail. apply Permutation_app_comm. }
  intros H Hnd Hw. destruct (2 <? _)%nat.
  - rewrite <- H2. apply a_compact0_perm; [done| |].
    + change (map fst ?l) with (fst <$> l) in *. by rewrite H2.
    + intros kv Hkv. apply Hw. by rewrite <- H2.
  - by simplify_eq.
Qed.

Lemma a_put_perm k v t t' :
  a_put k v t = Some t' →
  NoDup (map fst (a_records t ++ [(k, v)])) →
  (∀ kv, kv ∈ a_records t ++ [(k, v)] → in_window "" "~" kv = true) →
  a_records t' ≡ₚ a_records t ++ [(k, v)].
Proof.
  unfold a_put. set (t1 := mk_atree _ _ _). intros H Hnd Hw.
  assert (a_records t1 ≡ₚ a_records t ++ [(k, v)]) as H1.
  { unfold t1, a_records in *. cbn [amem alevels].
    rewrite dict_set_fresh.
    - rewrite <- !app_assoc. apply Permutation_app_head, Permutation_app_comm.
    - rewrite !map_app in Hnd. apply NoDup_app in Hnd as (_ & Hdis & _).
      intros Hk. apply (Hdis k); [|by left].
      apply elem_of_app. by left. }
  destruct (_ <=? _).
  - rewrite <- H1. apply a_flush_perm; [done| |].
    + change (map fst ?l) with (fst <$> l) in *. by rewrite H1.
    + intros kv Hkv. apply Hw. by rewrite <- H1.
  - by simplify_eq.
Qed.

Lemma a_run_perm ops t t' :
  a_run ops t = Some t' →
  NoDup (map fst (a_records t ++ ops)) →
  (∀ kv, kv ∈ a_records t ++ ops → in_window "" "~" kv = true) →
  a_records t' ≡ₚ a_records t ++ ops.
Proof.
  revert t. induction ops as [|[k v] ops IH]; intros t H Hnd Hw; cbn [a_run] in H.
  - simplify_eq. by rewrite app_nil_r.
  - destruct (a_put k v t) as [t1|] eqn:Ep; [|done].
    change ((k, v) :: ops) with ([(k, v)] ++ ops) in *.
    rewrite app_assoc in Hnd, Hw |- *.
    assert (a_records t1 ≡ₚ a_records t ++ [(k, v)]) as H1.
    { apply a_put_perm; [done| |].
      - eapply submseteq_NoDup_keys; [|exact Hnd]. by apply submseteq_inserts_r.
      - intros kv Hkv. apply Hw, elem_of_app. by left. }
    rewrite <- H1. apply IH; [done| |].
    + change (map fst ?l) with (fst <$> l) in *. by rewrite H1.
    + intros kv Hkv. apply Hw. by rewrite <- H1.
Qed.

(** ** Reads of any record sets *)

Lemma fold_gather_elem start stop lvls res kv :
  kv ∈ fold_left (a_gather start stop) lvls res →
  kv ∈ res ∨ kv ∈ concat (concat lvls).
Proof.
  revert res. induction lvls as [|lvl lvls IH]; intros res H; [by left|].
  cbn [fold_left concat] in *. rewrite concat_app, elem_of_app.
  destruct (IH _ H) as [H1|H1]; [|by auto].
  apply a_gather_elem in H1 as [?|?]; by auto.
Qed.

Lemma a_range_sub start stop t kv :
  kv ∈ a_range start stop t → kv ∈ a_records t.
Proof.
  unfold a_range, a_records. rewrite (py_sorted_perm pair_ltb). intros H.
  apply fold_gather_elem in H as [H|H]; apply elem_of_app.
  - left. apply dict_update_elem in H as [H|H]; [by apply elem_of_nil in H|].
    by apply list_elem_of_In, filter_In in H as [H%list_elem_of_In _].
  - right. by rewrite concat_reverse_perm in H.
Qed.

Lemma List_filter_perm {A} (q : A → bool) (l l' : list A) :
  l ≡ₚ l' → List.filter q l ≡ₚ List.filter q l'.
Proof.
  induction 1 as [|x l l' _ IH|x y l|l l' l'' _ IH1 _ IH2]; cbn [List.filter].
  - done.
  - destruct (q x); [by constructor|done].
  - destruct (q x), (q y); try done. apply perm_swap.
  - by etrans.
Qed.

Lemma concat_range_filter start stop tbls :
  concat (map (a_range_tbl start stop) tbls)
  ≡ₚ List.filter (in_window start stop) (concat tbls).
Proof.
  induction tbls as [|d tbls IH]; cbn [map concat]; [done|].
  rewrite List.filter_app, IH. apply Permutation_app_tail.
  unfold a_range_tbl. apply List_filter_perm, py_sorted_perm.
Qed.

Lemma a_range_perm start stop t :
  NoDup (map fst (a_records t)) →
  a_range start stop t ≡ₚ List.filter (in_window start stop) (a_records t).
Proof.
  unfold a_records, a_range. intros Hnd.
  rewrite (py_sorted_perm pair_ltb).
  assert (NoDup (map fst (amem t))) as Hm.
  { rewrite map_app in Hnd. by apply NoDup_app in Hnd as [? _]. }
  rewrite (dict_update_fresh []) by (by apply NoDup_map_filter).
  cbn [app]. rewrite fold_gather_disjoint.
  - rewrite List.filter_app. apply Permutation_app_head.
    rewrite concat_range_filter. apply List_filter_perm, concat_reverse_perm.
  - eapply submseteq_NoDup_keys; [|exact Hnd].
    apply submseteq_app; [apply filter_submseteq|].
    apply Permutation_submseteq, concat_reverse_perm.
Qed.

(** ** Small record sets fit *)






(** * Runs of [put]s on a new tree *)

Section Runs.
Variable hash : string → Z.

(** [_build] raises on a record set that does not fit the format. *)
Lemma build_unfit fn data fs :
fits data = false →
∃ fs', SSTable._build hash fn data fs = (Raise StructError, fs').
Proof.
intros Hfits. destruct (SSTable._build hash fn data fs) as [[sst|e] fs'] eqn:Eb.
- apply build_Ok_inv in Eb as (idx & pre & bf & Hl & _).
  unfold fits in Hfits. by rewrite Hl in Hfits.
- apply build_Raise in Eb as [-> _]. by eexists.
Qed.

Lemma refines_compact0_None st t :
refines hash st t → a_compact 0 t = None →
∃ st', LSMTree._compact_level hash 0 st = (Raise StructError, st').
Proof.
destruct st as [[mem limit lvls] fs]. destruct t as [am alim alvls].
intros (Hm & Hlim & Hnd & Hl & Hlen & Hn0 & Hn1) Ha.
cbn [LSMTree.memtable LSMTree.memtable_limit LSMTree.levels amem alimit alevels] in *.
subst am alim.
unfold a_compact in Ha. unfold LSMTree._compact_level.
cbn [LSMTree.memtable LSMTree.memtable_limit LSMTree.levels amem alimit alevels] in *.
destruct Hl as [|l0 al0 rest arest H0 Hrest]; [done|].
cbn [lookup list_lookup] in Ha |- *.
change ((l0 :: rest) !! 0%nat) with (Some l0).
change ((al0 :: arest) !! 0%nat) with (Some al0) in Ha.
destruct H0 as [|h d l0' al0' Hh Hl0']; [done|].
assert (Forall2 (represents hash fs) (h :: l0') (d :: al0')) as H0 by (by constructor).
rewrite (gather_represents hash fs _ _ [] H0). cbv beta iota.
set (m0 := a_gather "" "~" [] (d :: al0')) in *. clearbody m0.
destruct Hrest as [|l1 al1 rest' arest' H1 Hrest'].
- change ((h :: l0') :: []) with [h :: l0'] in *.
  change ([h :: l0'] !! (0 + 1)%nat) with (@None (list SSTable.t)).
  change ([d :: al0'] !! (0 + 1)%nat) with (@None (list dict)) in Ha.
  destruct (fits m0) eqn:Hfits; [done|]. cbn.
  match goal with |- context [SSTable._build hash ?fn m0 ?f] =>
    destruct (build_unfit fn m0 f Hfits) as [fs2 ->] end.
  by eexists.
- change (((h :: l0') :: l1 :: rest') !! (0 + 1)%nat) with (Some l1).
  change (((d :: al0') :: al1 :: arest') !! (0 + 1)%nat) with (Some al1) in Ha.
  cbv beta iota. rewrite (gather_represents hash fs _ _ m0 H1). cbv beta iota.
  set (m1 := a_gather "" "~" m0 al1) in *. clearbody m1.
  destruct (fits m1) eqn:Hfits; [done|]. cbn.
  match goal with |- context [SSTable._build hash ?fn m1 ?f] =>
    destruct (build_unfit fn m1 f Hfits) as [fs2 ->] end.
  by eexists.
Qed.

Lemma refines_flush_None st t :
refines hash st t → a_flush t = None →
∃ st', LSMTree._flush_memtable hash st = (Raise StructError, st').
Proof.
destruct st as [[mem limit lvls] fs]. destruct t as [am alim alvls].
intros (Hm & Hlim & Hnd & Hl & Hlen & Hn0 & Hn1) Ha.
cbn [LSMTree.memtable LSMTree.memtable_limit LSMTree.levels amem alimit alevels] in *.
subst am alim.
unfold a_flush in Ha. unfold LSMTree._flush_memtable.
cbn [LSMTree.memtable LSMTree.memtable_limit LSMTree.levels amem alimit alevels] in *.
destruct mem as [|kv mem]; [done|].
destruct (fits (kv :: mem)) eqn:Hfits.
2:{ match goal with |- context [SSTable._build hash ?fn (kv :: mem) fs] =>
      destruct (build_unfit fn (kv :: mem) fs Hfits) as [fs2 ->] end.
    by eexists. }
set (lvls1 := match lvls with [] => [[]] | _ :: _ => lvls end) in *.
set (alvls1 := match alvls with [] => [[]] | _ :: _ => alvls end) in *.
set (l0 := default [] (lvls1 !! 0%nat)) in *.
set (al0 := default [] (alvls1 !! 0%nat)) in *.
assert (∃ rest arest, lvls1 = l0 :: rest ∧ alvls1 = al0 :: arest ∧
          Forall2 (represents hash fs) l0 al0 ∧
          Forall2 (Forall2 (represents hash fs)) rest arest ∧
          (length rest <= 1)%nat ∧
          (∀ j h, l0 !! j = Some h →
             SSTable.filename h = "l0_" +:+ str_of_nat j +:+ ".sst") ∧
          (∀ l1 h, rest !! 0%nat = Some l1 → h ∈ l1 →
             l1 = [h] ∧ SSTable.filename h = "l1_0.sst"))
  as (rest & arest & E1 & E2 & Hl0 & Hrest & Hlr & Hnm0 & Hnm1).
{ unfold l0, al0, lvls1, alvls1. destruct Hl as [|x ax r ar Hx Hr].
  - exists [], []. cbn. split_and!; try done; try constructor; try lia.
  - exists r, ar. cbn. cbn in Hlen. split_and!; try done; try lia;
      try (intros j h Hj; by apply (Hn0 x j h));
      try (intros l1 h Hl1 Hin; by apply (Hn1 l1 h)). }
clearbody l0 al0 lvls1 alvls1. subst lvls1 alvls1.
set (fn := "l0_" +:+ str_of_nat (length l0) +:+ ".sst").
destruct (build_is_Ok hash fn (kv :: mem) fs Hfits) as (sst & content & Hb & Hfn).
rewrite Hb.
destruct (represents_build hash _ _ _ _ _ Hnd Hb) as [Hrs _].
cbn [insert list_insert] in Ha |- *.
assert (refines hash
          (LSMTree.mk [] limit ((l0 ++ [sst]) :: rest), <[fn := content]> fs)
          (mk_atree [] limit ((al0 ++ [kv :: mem]) :: arest))) as Hrf.
{ assert (Forall2 (Forall2 (represents hash (<[fn := content]> fs)))
            (l0 :: rest) (al0 :: arest)) as Hall.
  { apply refines_levels_new_l0.
    - by constructor.
    - cbn. lia.
    - intros x j h Hx Hj. cbn in Hx. simplify_eq. split; [by apply Hnm0|].
      by eapply lookup_lt_Some.
    - intros l1 h Hl1 Hin. cbn in Hl1. by apply (Hnm1 l1 h). }
  apply Forall2_cons in Hall as [Hall0 Hallr].
  cbn. split_and!; try done.
  - constructor.
  - constructor; [|done]. apply Forall2_app; [done|]. constructor; [done|constructor].
  - cbn. lia.
  - intros x j h Hx Hj. simplify_eq.
    destruct (decide (j < length l0)%nat) as [Hlt|Hge].
    + rewrite lookup_app_l in Hj by done. by apply Hnm0.
    + rewrite lookup_app_r in Hj by lia.
      destruct (j - length l0)%nat as [|n] eqn:En; [|done].
      cbn in Hj. simplify_eq. rewrite Hfn.
      replace j with (length l0) by lia. done. }
unfold dict in *.
assert (length (al0 ++ [kv :: mem]) = length (l0 ++ [sst])) as Hlen'.
{ rewrite !length_app. by rewrite (Forall2_length _ _ _ Hl0). }
rewrite Hlen' in Ha.
destruct (2 <? length (l0 ++ [sst]))%nat; [|done].
by eapply refines_compact0_None.
Qed.

Lemma refines_put_None st t key value :
refines hash st t → a_put key value t = None →
∃ st', LSMTree.put hash key value st = (Raise StructError, st').
Proof.
destruct st as [[mem limit lvls] fs]. destruct t as [am alim alvls].
intros (Hm & Hlim & Hnd & Hl & Hlen & Hn0 & Hn1) Ha.
cbn [LSMTree.memtable LSMTree.memtable_limit LSMTree.levels amem alimit alevels] in *.
subst am alim.
unfold a_put in Ha. unfold LSMTree.put.
cbn [LSMTree.memtable LSMTree.memtable_limit LSMTree.levels amem alimit alevels] in *.
assert (refines hash (LSMTree.mk (dict_set mem key value) limit lvls, fs)
          (mk_atree (dict_set mem key value) limit alvls)) as Hrf.
{ cbn. split_and!; try done. by apply dict_set_NoDup. }
destruct (limit <=? _); [|done].
by eapply refines_flush_None.
Qed.

(** A run of [put]s on a tree that stores record sets either returns, and
  the tree stores the record sets of the run, or raises [struct.error]. *)
Lemma refines_puts ops st t :
refines hash st t →
(∃ st' t', puts hash ops st = (Ok tt, st') ∧ a_run ops t = Some t' ∧
           refines hash st' t') ∨
(∃ st', puts hash ops st = (Raise StructError, st')).
Proof.
revert st t. induction ops as [|[k v] ops IH]; intros st t Hr; cbn [puts a_run].
- left. by exists st, t.
- destruct (a_put k v t) as [t1|] eqn:Ep.
  + destruct (refines_put hash st t t1 k v Hr Ep) as (st1 & -> & Hr1).
    by apply IH.
  + destruct (refines_put_None st t k v Hr Ep) as (st1 & ->). right. by eexists.
Qed.

Lemma puts_Ok_refines ops limit fs st :
puts hash ops (LSMTree.init limit, fs) = (Ok tt, st) →
∃ t, a_run ops (a_init limit) = Some t ∧ refines hash st t.
Proof.
intros H.
destruct (refines_puts ops _ _ (refines_init hash limit fs))
  as [(st' & t' & H1 & H2 & H3)|(st' & H1)]; rewrite H1 in H; [|done].
simplify_eq. by exists t'.
Qed.


End Runs.

Lemma leb_empty k : String.leb "" k = true.
Proof. by destruct k. Qed.




(** X18. Reads return only what was put.  After a run of [put]s on a new
    tree in which no [put] raised, [get] and [range] raise nothing, a value
    [get] returns for a key was put with that key, and every pair [range]
    returns was put: a key the filter lets through by collision is not
    answered. *)
Theorem reads_return_put_records (hash : string → Z) ops limit fs st :
  puts hash ops (LSMTree.init limit, fs) = (Ok tt, st) →
  (∀ k, ∃ r, LSMTree.get hash k st = Ok r ∧ ∀ v, r = Some v → (k, v) ∈ ops) ∧
  (∀ start stop, ∃ out,
     LSMTree.range hash start stop st = Ok out ∧ ∀ kv, kv ∈ out → kv ∈ ops).
Proof.
  intros H. apply puts_Ok_refines in H as (t & Hrun & Hr).
  assert (∀ kv, kv ∈ a_records t → kv ∈ ops) as Hsub.
  { intros kv Hkv. apply (a_run_sub _ _ _ _ Hrun) in Hkv as [Hkv|Hkv]; [|done].
    by apply elem_of_nil in Hkv. }
  split.
  - intros k. exists (a_get k t). split; [by apply refines_get|].
    intros v Hv. by apply Hsub, a_get_elem.
  - intros start stop. exists (a_range start stop t). split; [by apply refines_range|].
    intros kv Hkv. by apply Hsub, (a_range_sub start stop).
Qed.

Lemma reads_return_put_records_witness :
  ∃ st,
    puts sample_hash scenario_b (LSMTree.init 2, ∅) = (Ok tt, st) ∧
    (∀ k, ∃ r, LSMTree.get sample_hash k st = Ok r ∧
               ∀ v, r = Some v → (k, v) ∈ scenario_b) ∧
    (∀ start stop, ∃ out,
       LSMTree.range sample_hash start stop st = Ok out ∧
       ∀ kv, kv ∈ out → kv ∈ scenario_b).
Proof.
  destruct (puts sample_hash scenario_b (LSMTree.init 2, ∅)) as [[[]|e] st] eqn:E.
  - exists st. split; [reflexivity|].
    exact (reads_return_put_records sample_hash scenario_b 2 ∅ st E).
  - vm_compute in E. discriminate E.
Defined.

(** X19. Keys put once are read back.  After a run of [put]s on a new tree
    in which no [put] raised, no key was put twice and no key sorts after
    ["~"]: [get] answers the value of every key that was put and [None]
    for every other key, however many flushes and compactions the run
    made. *)
Theorem write_once_get (hash : string → Z) ops limit fs st :
  puts hash ops (LSMTree.init limit, fs) = (Ok tt, st) →
  NoDup (map fst ops) →
  (∀ k, k ∈ map fst ops → String.leb k "~" = true) →
  (∀ k v, (k, v) ∈ ops → LSMTree.get hash k st = Ok (Some v)) ∧
  (∀ k, k ∉ map fst ops → LSMTree.get hash k st = Ok None).
Proof.
  intros H Hnd Hw. apply puts_Ok_refines in H as (t & Hrun & Hr).
  assert (a_records t ≡ₚ ops) as Hp.
  { apply (a_run_perm ops (a_init limit) t Hrun); [done|].
    intros [k v] Hkv. unfold in_window. cbn [fst]. rewrite leb_empty. cbn [andb].
    apply Hw. apply list_elem_of_fmap. by exists (k, v). }
  split.
  - intros k v Hkv. rewrite (refines_get hash st t k Hr). f_equal.
    apply a_get_found.
    + change (map fst ?l) with (fst <$> l) in *. by rewrite Hp.
    + by rewrite Hp.
  - intros k Hk. rewrite (refines_get hash st t k Hr). f_equal.
    destruct (a_get k t) as [v|] eqn:E; [|done].
    exfalso. apply Hk. apply a_get_elem in E. rewrite Hp in E.
    apply list_elem_of_fmap. by exists (k, v).
Qed.

Lemma write_once_get_witness :
  ∃ st,
    puts sample_hash [("c", "3"); ("a", "1"); ("b", "2"); ("d", "4")]
      (LSMTree.init 1, ∅) = (Ok tt, st) ∧
    NoDup (map fst [("c", "3"); ("a", "1"); ("b", "2"); ("d", "4")]) ∧
    (∀ k, k ∈ map fst [("c", "3"); ("a", "1"); ("b", "2"); ("d", "4")] →
          String.leb k "~" = true) ∧
    (∀ k v, (k, v) ∈ [("c", "3"); ("a", "1"); ("b", "2"); ("d", "4")] →
            LSMTree.get sample_hash k st = Ok (Some v)) ∧
    (∀ k, k ∉ map fst [("c", "3"); ("a", "1"); ("b", "2"); ("d", "4")] →
          LSMTree.get sample_hash k st = Ok None).
Proof.
  assert (NoDup (map fst [("c", "3"); ("a", "1"); ("b", "2"); ("d", "4")])) as Hnd.
  { cbn [map fst].
    repeat (apply NoDup_cons; split;
            [intros Hc;
             repeat (apply elem_of_cons in Hc as [Hc|Hc]; [discriminate Hc|]);
             by apply elem_of_nil in Hc|]).
    apply NoDup_nil_2. }
  assert (∀ k, k ∈ map fst [("c", "3"); ("a", "1"); ("b", "2"); ("d", "4")] →
               String.leb k "~" = true) as Hw.
  { intros k Hk. cbn [map fst] in Hk.
    repeat (apply elem_of_cons in Hk as [->|Hk]; [reflexivity|]).
    by apply elem_of_nil in Hk. }
  destruct (puts sample_hash [("c", "3"); ("a", "1"); ("b", "2"); ("d", "4")]
              (LSMTree.init 1, ∅)) as [[[]|e] st] eqn:E.
  - exists st. split; [reflexivity|].
    split; [exact Hnd|]. split; [exact Hw|].
    exact (write_once_get sample_hash _ 1 ∅ st E Hnd Hw).
  - vm_compute in E. discriminate E.
Defined.

(** X20. Keys put once are all scanned.  After a run of [put]s on a new tree
    in which no [put] raised, no key was put twice and no key sorts after
    ["~"]: [range(start, end)] returns exactly the records of the run whose
    key lies in the window, so [range("", "~")] returns as many pairs as
    there were [put]s. *)
Theorem write_once_range (hash : string → Z) ops limit fs st start stop :
  puts hash ops (LSMTree.init limit, fs) = (Ok tt, st) →
  NoDup (map fst ops) →
  (∀ k, k ∈ map fst ops → String.leb k "~" = true) →
  ∃ out,
    LSMTree.range hash start stop st = Ok out ∧
    out ≡ₚ List.filter (in_window start stop) ops ∧
    (start = "" → stop = "~" → length out = length ops).
Proof.
  intros H Hnd Hw. apply puts_Ok_refines in H as (t & Hrun & Hr).
  assert (∀ kv, kv ∈ ops → in_window "" "~" kv = true) as Hw'.
  { intros [k v] Hkv. unfold in_window. cbn [fst]. rewrite leb_empty. cbn [andb].
    apply Hw. apply list_elem_of_fmap. by exists (k, v). }
  assert (a_records t ≡ₚ ops) as Hp
    by (by apply (a_run_perm ops (a_init limit) t Hrun)).
  exists (a_range start stop t). split; [by apply refines_range|].
  assert (a_range start stop t ≡ₚ List.filter (in_window start stop) ops) as Hout.
  { rewrite a_range_perm.
    - by apply List_filter_perm.
    - change (map fst ?l) with (fst <$> l) in *. by rewrite Hp. }
  split; [done|]. intros -> ->. rewrite Hout. by rewrite filter_all.
Qed.

Lemma write_once_range_witness :
  ∃ st,
    puts sample_hash [("c", "3"); ("a", "1"); ("b", "2"); ("d", "4")]
      (LSMTree.init 1, ∅) = (Ok tt, st) ∧
    NoDup (map fst [("c", "3"); ("a", "1"); ("b", "2"); ("d", "4")]) ∧
    (∀ k, k ∈ map fst [("c", "3"); ("a", "1"); ("b", "2"); ("d", "4")] →
          String.leb k "~" = true) ∧
    ∃ out,
      LSMTree.range sample_hash "" "~" st = Ok out ∧
      out ≡ₚ List.filter (in_window "" "~") [("c", "3"); ("a", "1"); ("b", "2"); ("d", "4")] ∧
      ("" = "" → "~" = "~" →
       length out = length [("c", "3"); ("a", "1"); ("b", "2"); ("d", "4")]).
Proof.
  assert (NoDup (map fst [("c", "3"); ("a", "1"); ("b", "2"); ("d", "4")])) as Hnd.
  { cbn [map fst].
    repeat (apply NoDup_cons; split;
            [intros Hc;
             repeat (apply elem_of_cons in Hc as [Hc|Hc]; [discriminate Hc|]);
             by apply elem_of_nil in Hc|]).
    apply NoDup_nil_2. }
  assert (∀ k, k ∈ map fst [("c", "3"); ("a", "1"); ("b", "2"); ("d", "4")] →
               String.leb k "~" = true) as Hw.
  { intros k Hk. cbn [map fst] in Hk.
    repeat (apply elem_of_cons in Hk as [->|Hk]; [reflexivity|]).
    by apply elem_of_nil in Hk. }
  destruct (puts sample_hash [("c", "3"); ("a", "1"); ("b", "2"); ("d", "4")]
              (LSMTree.init 1, ∅)) as [[[]|e] st] eqn:E.
  - exists st. split; [reflexivity|].
    split; [exact Hnd|]. split; [exact Hw|].
    exact (write_once_range sample_hash _ 1 ∅ st "" "~" E Hnd Hw).
  - vm_compute in E. discriminate E.
Defined.

(** * The files of the tree *)

Section Files.
Variable hash : string → Z.

Lemma build_other_files fn data fs fn' :
fn' ≠ fn → snd (SSTable._build hash fn data fs) !! fn' = fs !! fn'.
Proof.
intros Hne. unfold SSTable._build.
repeat (match goal with |- context [match ?x with _ => _ end] => destruct x end);
  cbn [snd]; by rewrite lookup_insert_ne.
Qed.

Lemma build_Ok_filename fn data fs sst fs' :
SSTable._build hash fn data fs = (Ok sst, fs') → SSTable.filename sst = fn.
Proof. intros H. by apply build_Ok_inv in H as (? & ? & ? & _ & -> & _). Qed.

Lemma cleanup_all_other ssts fs fn :
(∀ h, h ∈ ssts → SSTable.filename h ≠ fn) →
LSMTree.cleanup_all ssts fs !! fn = fs !! fn.
Proof.
intros H. rewrite cleanup_all_lookup. rewrite decide_False; [done|].
intros Hin. apply list_elem_of_fmap in Hin as (h & Hh & Hin). by apply (H h).
Qed.

(** The files a compaction of level 0 leaves alone. *)
Lemma compact0_other_files mem limit l0 rest fs fn :
(∀ h, h ∈ l0 → SSTable.filename h ≠ fn) →
(∀ l1 h, rest !! 0%nat = Some l1 → h ∈ l1 → SSTable.filename h ≠ fn) →
fn ≠ "l1_0.sst" →
snd (snd (LSMTree._compact_level hash 0 (LSMTree.mk mem limit (l0 :: rest), fs))) !! fn
= fs !! fn.
Proof.
intros H0 H1 Hne. unfold LSMTree._compact_level.
cbn [LSMTree.levels LSMTree.memtable LSMTree.memtable_limit].
change ((l0 :: rest) !! 0%nat) with (Some l0).
destruct l0 as [|h l0]; [done|].
destruct (LSMTree.gather hash [] (h :: l0) fs) as [merged|]; [|done].
change (((h :: l0) :: rest) !! (0 + 1)%nat) with (rest !! 0%nat).
destruct (match rest !! 0%nat with
          | Some next_level => LSMTree.gather hash merged next_level fs
          | None => Ok merged
          end) as [merged'|]; [|done].
set (lvls1 := if (length ((h :: l0) :: rest) <=? 0 + 1)%nat
              then ((h :: l0) :: rest) ++ [[]] else (h :: l0) :: rest).
set (next := default [] (lvls1 !! (0 + 1)%nat)).
assert (∀ x, x ∈ next → SSTable.filename x ≠ fn) as Hnext.
{ unfold next, lvls1. destruct rest as [|l1 rest']; cbn.
  - intros x Hx. by apply elem_of_nil in Hx.
  - intros x Hx. by apply (H1 l1). }
clearbody next. clearbody lvls1.
pose proof (build_other_files "l1_0.sst" merged' (LSMTree.cleanup_all next fs) fn Hne) as Hb.
change ("l" +:+ str_of_nat (0 + 1) +:+ "_0.sst") with "l1_0.sst".
destruct (SSTable._build hash "l1_0.sst" merged' (LSMTree.cleanup_all next fs))
  as [[sst|e] fs2]; cbn [snd] in Hb |- *.
- rewrite cleanup_all_other by done. rewrite Hb. by apply cleanup_all_other.
- rewrite Hb. by apply cleanup_all_other.
Qed.

(** A [put] on a tree whose tables have the names the tree gives leaves
  every other file alone, whether it returns or raises. *)
Lemma put_other_files st t key value fn :
refines hash st t →
(∀ j, fn ≠ "l0_" +:+ str_of_nat j +:+ ".sst") → fn ≠ "l1_0.sst" →
snd (snd (LSMTree.put hash key value st)) !! fn = snd st !! fn.
Proof.
destruct st as [[mem limit lvls] fs]. destruct t as [am alim alvls].
intros (_ & _ & _ & _ & Hlen & Hn0 & Hn1) Hfn0 Hfn1.
cbn [LSMTree.memtable LSMTree.memtable_limit LSMTree.levels snd] in *.
unfold LSMTree.put.
cbn [LSMTree.memtable LSMTree.memtable_limit LSMTree.levels].
destruct (limit <=? _); [|done].
unfold LSMTree._flush_memtable.
cbn [LSMTree.memtable LSMTree.memtable_limit LSMTree.levels].
destruct (dict_set mem key value) as [|kv mem1]; [done|].
set (l0 := match lvls with [] => [] | l0 :: _ => l0 end).
set (rest := match lvls with [] => [] | _ :: rest => rest end).
assert (match lvls with [] => [[]] | _ :: _ => lvls end = l0 :: rest) as ->.
{ unfold l0, rest. by destruct lvls. }
assert (∀ h, h ∈ l0 → SSTable.filename h ≠ fn) as H0.
{ intros h Hh. apply list_elem_of_lookup in Hh as [j Hj].
  unfold l0 in Hj. destruct lvls as [|x lvls']; [done|].
  rewrite (Hn0 x j h eq_refl Hj). intros Hc. by apply (Hfn0 j). }
assert (∀ l1 h, rest !! 0%nat = Some l1 → h ∈ l1 → SSTable.filename h ≠ fn) as H1.
{ intros l1 h Hl1 Hh. unfold rest in Hl1. destruct lvls as [|x lvls']; [done|].
  destruct (Hn1 l1 h Hl1 Hh) as [_ ->]. done. }
clearbody l0 rest.
change (default [] ((l0 :: rest) !! 0%nat)) with l0.
set (fn0 := "l0_" +:+ str_of_nat (length l0) +:+ ".sst").
pose proof (build_other_files fn0 (kv :: mem1) fs fn (Hfn0 _)) as Hb.
destruct (SSTable._build hash fn0 (kv :: mem1) fs) as [[sst|e] fs1] eqn:Eb;
  cbn [snd] in Hb |- *; [|done].
cbn [insert list_insert].
change (<[0%nat := l0 ++ [sst]]> (l0 :: rest)) with ((l0 ++ [sst]) :: rest).
destruct (2 <? length (l0 ++ [sst]))%nat; [|done].
rewrite compact0_other_files; [done| |done|done].
intros h Hh. apply elem_of_app in Hh as [Hh|Hh]; [by apply H0|].
apply list_elem_of_singleton in Hh as ->.
rewrite (build_Ok_filename _ _ _ _ _ Eb). intros Hc. by apply (Hfn0 (length l0)).
Qed.

Lemma puts_other_files ops st t fn :
refines hash st t →
(∀ j, fn ≠ "l0_" +:+ str_of_nat j +:+ ".sst") → fn ≠ "l1_0.sst" →
snd (snd (puts hash ops st)) !! fn = snd st !! fn.
Proof.
intros Hr Hfn0 Hfn1. revert st t Hr.
induction ops as [|[k v] ops IH]; intros st t Hr; cbn [puts]; [done|].
pose proof (put_other_files st t k v fn Hr Hfn0 Hfn1) as Hp.
destruct (a_put k v t) as [t1|] eqn:Ep.
- destruct (refines_put hash st t t1 k v Hr Ep) as (st1 & Hput & Hr1).
  rewrite Hput in Hp |- *. cbn [snd] in Hp. rewrite <- Hp. by eapply IH.
- destruct (refines_put_None hash st t k v Hr Ep) as (st1 & Hput).
  rewrite Hput in Hp |- *. exact Hp.
Qed.

End Files.

(** X21. The tree writes and deletes only files of its own: a run of [put]s
    on a new tree, whether it returns or raises, leaves every file of the
    directory that is not named [l0_<n>.sst] or [l1_0.sst] as it was. *)
Theorem puts_touch_only_own_files (hash : string → Z) ops limit fs fn :
  (∀ j, fn ≠ "l0_" +:+ str_of_nat j +:+ ".sst") → fn ≠ "l1_0.sst" →
  snd (snd (puts hash ops (LSMTree.init limit, fs))) !! fn = fs !! fn.
Proof.
  intros H0 H1.
  exact (puts_other_files hash ops (LSMTree.init limit, fs) (a_init limit) fn
           (refines_init hash limit fs) H0 H1).
Qed.

Lemma puts_touch_only_own_files_witness :
  (∀ j, "notes.txt" ≠ "l0_" +:+ str_of_nat j +:+ ".sst") ∧
  "notes.txt" ≠ "l1_0.sst" ∧
  snd (snd (puts sample_hash scenario_b (LSMTree.init 2, {["notes.txt" := [x00]]})))
    !! "notes.txt"
  = ({["notes.txt" := [x00]]} : files) !! "notes.txt".
Proof.
  assert (∀ j, "notes.txt" ≠ "l0_" +:+ str_of_nat j +:+ ".sst") as H0
    by (intros j Hc; discriminate Hc).
  assert ("notes.txt" ≠ "l1_0.sst") as H1 by (intros Hc; discriminate Hc).
  split; [exact H0|]. split; [exact H1|].
  exact (puts_touch_only_own_files sample_hash scenario_b 2 _ "notes.txt" H0 H1).
Defined.

(** X22. A [put] that does not fill the memtable is read back at once: in
    any state of the tree, [get] of the key answers the value just put,
    whatever the tables hold for that key. *)
Theorem get_after_put_in_memtable (hash : string → Z) key value tr fs :
  Z.of_nat (length (dict_set (LSMTree.memtable tr) key value)) < LSMTree.memtable_limit tr →
  LSMTree.put hash key value (tr, fs)
  = (Ok tt, (LSMTree.mk (dict_set (LSMTree.memtable tr) key value)
               (LSMTree.memtable_limit tr) (LSMTree.levels tr), fs)) ∧
  LSMTree.get hash key (snd (LSMTree.put hash key value (tr, fs))) = Ok (Some value).
Proof.
  intros H. rewrite (put_no_flush hash key value tr fs H). split; [done|].
  cbn [snd]. unfold LSMTree.get. cbn [LSMTree.memtable].
  by rewrite dict_get_set, String.eqb_refl.
Qed.

Lemma get_after_put_in_memtable_witness :
  Z.of_nat (length (dict_set (LSMTree.memtable (LSMTree.init 10)) "banana" "green"))
    < LSMTree.memtable_limit (LSMTree.init 10) ∧
  LSMTree.put sample_hash "banana" "green" (LSMTree.init 10, ∅)
  = (Ok tt, (LSMTree.mk (dict_set (LSMTree.memtable (LSMTree.init 10)) "banana" "green")
               (LSMTree.memtable_limit (LSMTree.init 10))
               (LSMTree.levels (LSMTree.init 10)), ∅)) ∧
  LSMTree.get sample_hash "banana"
    (snd (LSMTree.put sample_hash "banana" "green" (LSMTree.init 10, ∅)))
  = Ok (Some "green").
Proof.
  assert (Z.of_nat (length (dict_set (LSMTree.memtable (LSMTree.init 10)) "banana" "green"))
          < LSMTree.memtable_limit (LSMTree.init 10)) as H by (vm_compute; reflexivity).
  split; [exact H|].
  exact (get_after_put_in_memtable sample_hash "banana" "green" (LSMTree.init 10) ∅ H).
Defined.
